(** * KaraokeKunKari: the pitch timeline and the frame scorer

    A shallow embedding of [src/core/pitchArrayBuilder.ts] and
    [src/core/scoring.ts] (with the records of [src/types.ts]), and the
    properties of the specification proved or refuted on it; then of
    [parseMidiFile] of [src/core/midiParser.ts] and of the history and the
    coordinates of [src/ui/pitchBar.ts], with further properties of the
    code.

    Numbers.  A JavaScript [number] that the program receives (a note's
    time, a detection's clarity, a threshold) is a finite rational [Q],
    and zero has no sign.  What the program computes by a division can be
    infinite or NaN, and is an [ext Q]; what it gets from [Math.floor],
    [Math.ceil] and [Math.round] is an [ext Z].  A MIDI note number is an
    integer ([midi: number; // MIDI note number (integer)] in [types.ts]),
    so a resolved pitch is an [ext Z].

    Arithmetic.  The code is embedded twice.  The first embedding computes
    exactly; it carries the properties that rounding leaves as they are:
    comparisons, counts, the structure of lists, which error is thrown.
    The second, in the module [Binary64], rounds the result of every
    operation to the nearest double, as the source does; it carries the
    properties of the slot that a time falls in, of the length of the
    timeline, of the score, of the cutoff of the history and of the
    coordinates, which depend on the rounding.  Overflow is modelled in
    neither.

    Calls.  A method of the tracker takes the tracker and returns the new
    one.  A function that can fail returns an [outcome]: a value, a thrown
    error, or no end.  The limits of the runtime that are modelled are
    the length of an array, at most 2^32 - 1, and in [Binary64] the number
    of arguments that a call can take, a parameter; memory is not
    bounded. *)

From Stdlib Require Import String.
From Stdlib Require Import ZArith QArith Qround Qabs Qminmax Qpower.
From Stdlib Require Import List Bool Lia Lqa Permutation Sorted.
From Stdlib Require DecimalString DecimalZ.
Import ListNotations.

Set Implicit Arguments.

(** ** JavaScript numbers *)

Module Js.

(** A finite value, or one of the three special values of IEEE 754. *)
Inductive ext (A : Type) : Type :=
| Fin (a : A)
| PInf
| NInf
| NaN.

Arguments PInf {A}.
Arguments NInf {A}.
Arguments NaN {A}.

(** How a call ends: with a value, with a thrown error, or never. *)
Inductive error : Type :=
| RangeError.

Definition error_name (e : error) : string :=
  match e with
  | RangeError => "RangeError"%string
  end.

Inductive outcome (A : Type) : Type :=
| Returned (a : A)
| Threw (e : error)
| Diverges.

Arguments Threw {A} e.
Arguments Diverges {A}.

Definition Qltb (a b : Q) : bool :=
  match a ?= b with Lt => true | _ => false end.

(** [a / b] on finite operands; a zero divisor gives an infinity or NaN. *)
Definition divide (a b : Q) : ext Q :=
  if Qeq_bool b 0 then
    if Qltb 0 a then PInf else if Qltb a 0 then NInf else NaN
  else Fin (a / b).

Definition map_ext {A B : Type} (f : A -> B) (x : ext A) : ext B :=
  match x with
  | Fin a => Fin (f a)
  | PInf => PInf
  | NInf => NInf
  | NaN => NaN
  end.

Definition Math_floor : ext Q -> ext Z := map_ext Qfloor.
Definition Math_ceil : ext Q -> ext Z := map_ext Qceiling.

(** [Math.round] rounds to the nearest integer, a half towards +Infinity. *)
Definition round_half_up (q : Q) : Z := Qfloor (q + (1 # 2)).
Definition Math_round : ext Q -> ext Z := map_ext round_half_up.

Definition Math_abs : ext Q -> ext Q :=
  fun x => match x with
           | Fin q => Fin (Qabs q)
           | PInf | NInf => PInf
           | NaN => NaN
           end.

(** [Math.max(0, x)] and [Math.min(a, b)] on integral values: NaN is
    contagious. *)
Definition Math_max0 (x : ext Z) : ext Z :=
  match x with
  | Fin z => Fin (Z.max 0 z)
  | PInf => PInf
  | NInf => Fin 0%Z
  | NaN => NaN
  end.

Definition Math_min (a b : ext Z) : ext Z :=
  match a, b with
  | NaN, _ | _, NaN => NaN
  | NInf, _ | _, NInf => NInf
  | PInf, y => y
  | x, PInf => x
  | Fin x, Fin y => Fin (Z.min x y)
  end.

(** [a - b] with a finite minuend. *)
Definition sub_from (a : Q) (b : ext Z) : ext Q :=
  match b with
  | Fin z => Fin (a - inject_Z z)
  | PInf => NInf
  | NInf => PInf
  | NaN => NaN
  end.

(** [x <= t] with a finite right-hand side; false on NaN. *)
Definition at_most (x : ext Q) (t : Q) : bool :=
  match x with
  | Fin q => Qle_bool q t
  | NInf => true
  | PInf | NaN => false
  end.

(** [a === b] on numbers: NaN is equal to nothing, not even itself. *)
Definition strict_eq (a b : ext Z) : bool :=
  match a, b with
  | Fin x, Fin y => Z.eqb x y
  | PInf, PInf | NInf, NInf => true
  | _, _ => false
  end.

(** The values that [for (let i = i0; i < i1; i++)] gives to [i]; [None]
    when the loop has no last iteration. *)
Definition for_range (i0 i1 : ext Z) : option (list Z) :=
  match i0, i1 with
  | NaN, _ | _, NaN => Some []
  | PInf, _ => Some []
  | _, NInf => Some []
  | Fin a, Fin b => Some (map (fun k => (a + Z.of_nat k)%Z) (seq 0 (Z.to_nat (b - a))))
  | Fin _, PInf => None
  | NInf, _ => None
  end.

(** [new Array(len)]: the length must be an integer of [0, 2^32 - 1]. *)
Definition max_array_length : Z := 4294967295.

Definition new_Array (len : ext Z) : option nat :=
  match len with
  | Fin z => if (0 <=? z)%Z && (z <=? max_array_length)%Z
             then Some (Z.to_nat z) else None
  | _ => None
  end.

(** [Math.min(...xs)] and [Math.max(...xs)] of a non-empty list [x :: xs]. *)
Definition Math_min_list (x : Q) (xs : list Q) : Q := fold_left Qmin xs x.
Definition Math_max_list (x : Q) (xs : list Q) : Q := fold_left Qmax xs x.

End Js.

Import Js.

(** ** types.ts *)

Record NoteEvent : Type := mkNote {
  time : Q;
  duration : Q;
  midi : Z;
  velocity : Q
}.

(** An element of [pitches]: [number | null]. *)
Inductive slot : Type :=
| null
| note (p : ext Z).

Record ExpectedPitchArray : Type := mkExpected {
  start : Q;
  step : Q;
  pitches : list slot
}.

Inductive PolyphonyStrategy : Type := FIRST | VELOCITY | FREQUENCY.

(** [Partial<PitchArrayConfig>]: a field that is absent is [None]. *)
Record PitchArrayConfig : Type := mkPitchArrayConfig {
  resolution : option Q;
  strategy : option PolyphonyStrategy
}.

(** ** core/pitchArrayBuilder.ts *)

Record NoteCandidate : Type := mkCandidate {
  c_midi : Z;
  c_velocity : Q;
  c_time : Q
}.

(** [Array.prototype.reduce] without an initial value. *)
Definition reduce {A : Type} (f : A -> A -> A) (x : A) (xs : list A) : A :=
  fold_left f xs x.

(** The candidates of a slot are never empty (the builder skips a slot
    that has none): [c0] is [candidates[0]] and [cs] holds the others. *)
Definition resolvePitch (c0 : NoteCandidate) (cs : list NoteCandidate)
    (strategy : PolyphonyStrategy) : ext Z :=
  match cs with
  | [] => Fin (c_midi c0)
  | _ :: _ =>
    match strategy with
    | FIRST =>
      Fin (c_midi (reduce (fun earliest current =>
             if Qltb (c_time current) (c_time earliest) then current else earliest) c0 cs))
    | VELOCITY =>
      Fin (c_midi (reduce (fun loudest current =>
             if Qltb (c_velocity loudest) (c_velocity current) then current else loudest) c0 cs))
    | FREQUENCY =>
      let totalWeight := fold_left (fun sum c => sum + c_velocity c) (c0 :: cs) 0 in
      let weightedSum :=
        fold_left (fun sum c => sum + inject_Z (c_midi c) * c_velocity c) (c0 :: cs) 0 in
      Math_round (divide weightedSum totalWeight)
    end
  end.

(** The [Map<number, NoteCandidate[]>] of the builder, in insertion order. *)
Definition SlotMap : Type := list (Z * list NoteCandidate).

Fixpoint Map_get (i : Z) (m : SlotMap) : option (list NoteCandidate) :=
  match m with
  | [] => None
  | (k, v) :: m' => if Z.eqb k i then Some v else Map_get i m'
  end.

Fixpoint Map_set (i : Z) (v : list NoteCandidate) (m : SlotMap) : SlotMap :=
  match m with
  | [] => [(i, v)]
  | (k, w) :: m' => if Z.eqb k i then (k, v) :: m' else (k, w) :: Map_set i v m'
  end.

(** The body of the inner loop: create the slot's list when the map has
    none, then push the candidate on it. *)
Definition push_candidate (c : NoteCandidate) (m : SlotMap) (i : Z) : SlotMap :=
  match Map_get i m with
  | None => Map_set i [c] m
  | Some cands => Map_set i (cands ++ [c]) m
  end.

Definition slot_begin (start resolution : Q) (n : NoteEvent) : ext Z :=
  Math_max0 (Math_floor (divide (time n - start) resolution)).

Definition slot_end (start resolution : Q) (len : ext Z) (n : NoteEvent) : ext Z :=
  Math_min len (Math_ceil (divide (time n + duration n - start) resolution)).

(** The loop over the notes; [None] when an inner loop does not end. *)
Fixpoint populate (start resolution : Q) (len : ext Z) (notes : list NoteEvent)
    (m : SlotMap) : option SlotMap :=
  match notes with
  | [] => Some m
  | n :: notes' =>
    match for_range (slot_begin start resolution n) (slot_end start resolution len n) with
    | None => None
    | Some is_ =>
      populate start resolution len notes'
        (fold_left (push_candidate (mkCandidate (midi n) (velocity n) (time n))) is_ m)
    end
  end.

(** [pitches[index] = v] on an array of the given length.  The builder
    writes at the keys of its map only, which lie in [0, len)
    ([populate_at] below), so a write never extends the array. *)
Fixpoint array_set (i : nat) (v : slot) (a : list slot) : list slot :=
  match a, i with
  | [], _ => []
  | _ :: a', O => v :: a'
  | x :: a', S i' => x :: array_set i' v a'
  end.

Definition resolve_entry (strategy : PolyphonyStrategy) (ps : list slot)
    (entry : Z * list NoteCandidate) : list slot :=
  match snd entry with
  | [] => ps
  | c0 :: cs => array_set (Z.to_nat (fst entry)) (note (resolvePitch c0 cs strategy)) ps
  end.

Definition default_resolution : Q := 2 # 100.

Definition buildExpectedPitchArray (notes : list NoteEvent) (config : PitchArrayConfig)
    : outcome ExpectedPitchArray :=
  let resolution := match resolution config with Some r => r | None => default_resolution end in
  let strategy := match strategy config with Some s => s | None => VELOCITY end in
  match notes with
  | [] => Returned {| start := 0; step := resolution; pitches := [] |}
  | n0 :: rest =>
    let start := Math_min_list (time n0) (map time rest) in
    let end_ := Math_max_list (time n0 + duration n0)
                              (map (fun n => time n + duration n) rest) in
    let len := Math_ceil (divide (end_ - start) resolution) in
    match populate start resolution len notes [] with
    | None => Diverges
    | Some pitchSlots =>
      match new_Array len with
      | None => Threw RangeError
      | Some l =>
        Returned {| start := start;
                    step := resolution;
                    pitches := fold_left (resolve_entry strategy) pitchSlots (repeat null l) |}
      end
    end
  end.

(** The result is [None] for JavaScript's [undefined], which an array read
    at a NaN index gives. *)
Definition getExpectedMidiAt (time : Q) (expected : ExpectedPitchArray) : option slot :=
  if Qltb time (start expected) then Some null
  else
    match Math_floor (divide (time - start expected) (step expected)) with
    | Fin idx =>
      if (idx <? 0)%Z || (Z.of_nat (length (pitches expected)) <=? idx)%Z then Some null
      else nth_error (pitches expected) (Z.to_nat idx)
    | PInf => Some null
    | NInf => Some null
    | NaN => None
    end.

Record Run : Type := mkRun {
  value : slot;
  count : nat
}.

Record CompressedPitchArray : Type := mkCompressed {
  z_start : Q;
  z_step : Q;
  compressed : list Run
}.

(** [a === b] on [number | null]. *)
Definition slot_strict_eq (a b : slot) : bool :=
  match a, b with
  | null, null => true
  | note x, note y => strict_eq x y
  | _, _ => false
  end.

(** One turn of the loop of [compressPitchArray] on [pitches[i]]. *)
Definition compress_step (st : list Run * slot * nat) (p : slot) : list Run * slot * nat :=
  let '(compressed, currentValue, count) := st in
  if slot_strict_eq p currentValue then (compressed, currentValue, S count)
  else (compressed ++ [mkRun currentValue count], p, 1%nat).

(** With no pitch, [currentValue] is [undefined], the loop and the last
    push are both skipped. *)
Definition compressPitchArray (expected : ExpectedPitchArray) : CompressedPitchArray :=
  {| z_start := start expected;
     z_step := step expected;
     compressed :=
       match pitches expected with
       | [] => []
       | p0 :: rest =>
         let '(compressed, currentValue, count) := fold_left compress_step rest ([], p0, 1%nat) in
         compressed ++ [mkRun currentValue count]
       end |}.

Definition decompressPitchArray (c : CompressedPitchArray) : ExpectedPitchArray :=
  {| start := z_start c;
     step := z_step c;
     pitches := flat_map (fun run => repeat (value run) (count run)) (compressed c) |}.

(** ** types.ts, the scorer's records *)

Record DetectedPitch : Type := mkDetected {
  d_midi : option Q;
  frequency : Q;
  clarity : Q;
  timestamp : Q
}.

Inductive Match : Type := PERFECT | ACCEPTABLE | MISS | NO_DATA.

(** [expected] is [number | null] by its type; [None] stands for the
    [undefined] that [getExpectedMidiAt] can hand over. *)
Record ScoreFrame : Type := mkFrame {
  f_time : Q;
  f_expected : option slot;
  f_detected : option Q;
  f_diff : option (ext Q);
  f_match : Match
}.

Record ScoreStats : Type := mkStats {
  totalFrames : nat;
  perfectFrames : nat;
  acceptableFrames : nat;
  missFrames : nat;
  noDataFrames : nat;
  score : Q;
  matchedTime : Q;
  totalTime : Q
}.

Record ScoringConfig : Type := mkScoringConfig {
  perfectThreshold : Q;
  acceptableThreshold : Q;
  clarityThreshold : Q
}.

(** [Partial<ScoringConfig>] *)
Record PartialScoringConfig : Type := mkPartialScoringConfig {
  p_perfectThreshold : option Q;
  p_acceptableThreshold : option Q;
  p_clarityThreshold : option Q
}.

(** ** core/scoring.ts *)

Definition DEFAULT_SCORING_CONFIG : ScoringConfig :=
  {| perfectThreshold := 1 # 2;
     acceptableThreshold := 1;
     clarityThreshold := 85 # 100 |}.

(** [{ ...base, ...config }] *)
Definition spread (base : ScoringConfig) (config : PartialScoringConfig) : ScoringConfig :=
  {| perfectThreshold :=
       match p_perfectThreshold config with Some x => x | None => perfectThreshold base end;
     acceptableThreshold :=
       match p_acceptableThreshold config with Some x => x | None => acceptableThreshold base end;
     clarityThreshold :=
       match p_clarityThreshold config with Some x => x | None => clarityThreshold base end |}.

(** A whole [ScoringConfig] passed where a partial one is expected. *)
Definition as_partial (c : ScoringConfig) : PartialScoringConfig :=
  {| p_perfectThreshold := Some (perfectThreshold c);
     p_acceptableThreshold := Some (acceptableThreshold c);
     p_clarityThreshold := Some (clarityThreshold c) |}.

(** [detected?.midi ?? null] *)
Definition detected_midi (detected : option DetectedPitch) : option Q :=
  match detected with
  | Some d => d_midi d
  | None => None
  end.

(** [midi - expected]: [null] counts as 0 and [undefined] as NaN. *)
Definition minus_expected (m : Q) (expected : option slot) : ext Q :=
  match expected with
  | Some (note p) => sub_from m p
  | Some null => Fin (m - 0)
  | None => NaN
  end.

Definition evaluateFrame (detected : option DetectedPitch) (expected : option slot)
    (config : PartialScoringConfig) : ScoreFrame :=
  let cfg := spread DEFAULT_SCORING_CONFIG config in
  let time := match detected with Some d => timestamp d | None => 0 end in
  match expected with
  | Some null =>
    {| f_time := time; f_expected := Some null; f_detected := detected_midi detected;
       f_diff := None; f_match := NO_DATA |}
  | _ =>
    match detected with
    | None =>
      {| f_time := time; f_expected := expected; f_detected := None;
         f_diff := None; f_match := NO_DATA |}
    | Some d =>
      match d_midi d with
      | None =>
        {| f_time := time; f_expected := expected; f_detected := None;
           f_diff := None; f_match := NO_DATA |}
      | Some m =>
        if Qltb (clarity d) (clarityThreshold cfg) then
          {| f_time := time; f_expected := expected; f_detected := Some m;
             f_diff := None; f_match := NO_DATA |}
        else
          let diff := Math_abs (minus_expected m expected) in
          let match_ :=
            if at_most diff (perfectThreshold cfg) then PERFECT
            else if at_most diff (acceptableThreshold cfg) then ACCEPTABLE
            else MISS in
          {| f_time := time; f_expected := expected; f_detected := Some m;
             f_diff := Some diff; f_match := match_ |}
      end
    end
  end.

(** The fields of a [ScoreTracker]. *)
Record ScoreTracker : Type := mkTracker {
  frames : list ScoreFrame;
  config : ScoringConfig
}.

(** [new ScoreTracker(config)] *)
Definition new_ScoreTracker (config : PartialScoringConfig) : ScoreTracker :=
  {| frames := []; config := spread DEFAULT_SCORING_CONFIG config |}.

(** The frame returned, and the tracker after the call. *)
Definition addFrame (detected : option DetectedPitch) (expected : ExpectedPitchArray)
    (currentTime : Q) (this : ScoreTracker) : ScoreFrame * ScoreTracker :=
  let expectedMidi := getExpectedMidiAt currentTime expected in
  let frame := evaluateFrame detected expectedMidi (as_partial (config this)) in
  (frame, {| frames := frames this ++ [frame]; config := config this |}).

Definition match_eqb (a b : Match) : bool :=
  match a, b with
  | PERFECT, PERFECT | ACCEPTABLE, ACCEPTABLE | MISS, MISS | NO_DATA, NO_DATA => true
  | _, _ => false
  end.

(** What the counting loop of [getStats] leaves in the counter of [m]. *)
Definition count_match (m : Match) (fs : list ScoreFrame) : nat :=
  fold_left (fun n f => if match_eqb (f_match f) m then S n else n) fs 0%nat.

Definition of_nat (n : nat) : Q := inject_Z (Z.of_nat n).

Definition getStats (this : ScoreTracker) : ScoreStats :=
  let perfectFrames := count_match PERFECT (frames this) in
  let acceptableFrames := count_match ACCEPTABLE (frames this) in
  let missFrames := count_match MISS (frames this) in
  let noDataFrames := count_match NO_DATA (frames this) in
  let totalFrames := length (frames this) in
  let scoredFrames := (perfectFrames + acceptableFrames + missFrames)%nat in
  let matchedFrames := (perfectFrames + acceptableFrames)%nat in
  let score :=
    if (0 <? scoredFrames)%nat then (of_nat matchedFrames / of_nat scoredFrames) * 100 else 0 in
  let frameStep :=
    if (1 <? length (frames this))%nat then
      match nth_error (frames this) (length (frames this) - 1), nth_error (frames this) 0 with
      | Some last_, Some first =>
        (f_time last_ - f_time first) / of_nat (length (frames this) - 1)
      | _, _ => 2 # 100
      end
    else 2 # 100 in
  {| totalFrames := totalFrames;
     perfectFrames := perfectFrames;
     acceptableFrames := acceptableFrames;
     missFrames := missFrames;
     noDataFrames := noDataFrames;
     score := inject_Z (round_half_up (score * 100)) / 100;
     matchedTime := of_nat matchedFrames * frameStep;
     totalTime := of_nat scoredFrames * frameStep |}.

Definition reset (this : ScoreTracker) : ScoreTracker :=
  {| frames := []; config := config this |}.

Definition resetFrom (time : Q) (this : ScoreTracker) : ScoreTracker :=
  {| frames := filter (fun f => Qltb (f_time f) time) (frames this);
     config := config this |}.

(** The argument of [import]: an object that may lack either field. *)
Record ImportData : Type := mkImportData {
  data_frames : option (list ScoreFrame);
  data_config : option PartialScoringConfig
}.

(** The fields of a tracker after [import]: [i_frames] is [None] when
    [this.frames] has been set to [undefined]. *)
Record ImportedTracker : Type := mkImported {
  i_frames : option (list ScoreFrame);
  i_config : ScoringConfig
}.

Definition import (data : ImportData) (this : ScoreTracker) : outcome ImportedTracker :=
  Returned {| i_frames := data_frames data;
              i_config := match data_config data with
                          | Some c => spread DEFAULT_SCORING_CONFIG c
                          | None => config this
                          end |}.

(** The tracker seen through its fields, to compare before and after. *)
Definition fields_of (this : ScoreTracker) : ImportedTracker :=
  {| i_frames := Some (frames this); i_config := config this |}.

(** [export()], and its result read back as an argument of [import]. *)
Record ExportData : Type := mkExportData {
  e_frames : list ScoreFrame;
  e_stats : ScoreStats;
  e_config : ScoringConfig
}.

Definition export (this : ScoreTracker) : ExportData :=
  {| e_frames := frames this; e_stats := getStats this; e_config := config this |}.

Definition as_import (e : ExportData) : ImportData :=
  {| data_frames := Some (e_frames e); data_config := Some (as_partial (e_config e)) |}.

(** ** core/pitchArrayBuilder.ts, the lookup of a range *)

(** An element of the result is what [expected.pitches[i]] gives, [None]
    for [undefined]. *)
Definition getExpectedMidiRange (startTime endTime : Q) (expected : ExpectedPitchArray)
    : outcome (list (option slot)) :=
  let startIdx :=
    Math_max0 (Math_floor (divide (startTime - start expected) (step expected))) in
  let endIdx :=
    Math_min (Fin (Z.of_nat (length (pitches expected))))
             (Math_ceil (divide (endTime - start expected) (step expected))) in
  match for_range startIdx endIdx with
  | None => Diverges
  | Some is_ => Returned (map (fun i => nth_error (pitches expected) (Z.to_nat i)) is_)
  end.

(** ** core/scoring.ts, the other methods of the tracker *)

Definition getFramesInRange (startTime endTime : Q) (this : ScoreTracker) : list ScoreFrame :=
  filter (fun f => Qle_bool startTime (f_time f) && Qle_bool (f_time f) endTime) (frames this).

(** [Array.prototype.slice(start)] with an integral [start]: from the end
    when [start] is negative. *)
Definition slice_from {A : Type} (start : Z) (l : list A) : list A :=
  let len := Z.of_nat (length l) in
  let k := if (start <? 0)%Z then Z.max (len + start) 0 else Z.min start len in
  skipn (Z.to_nat k) l.

(** [this.frames.slice(-count)], for an integral [count]. *)
Definition getRecentFrames (count : Z) (this : ScoreTracker) : list ScoreFrame :=
  slice_from (- count) (frames this).

(** A new tracker imports the frames and gives its statistics; the result
    is [None] where [getStats] would iterate over [undefined]. *)
Definition calculateFinalScore (frames_ : list ScoreFrame) : option ScoreStats :=
  let tracker :=
    new_ScoreTracker {| p_perfectThreshold := None;
                        p_acceptableThreshold := None;
                        p_clarityThreshold := None |} in
  match import {| data_frames := Some frames_; data_config := None |} tracker with
  | Returned t =>
    match i_frames t with
    | Some fs => Some (getStats {| frames := fs; config := i_config t |})
    | None => None
    end
  | _ => None
  end.

(** ** core/midiParser.ts *)

(** [Array.prototype.sort] is stable, and with the comparator
    [(a, b) => a.time - b.time] on finite times its result is the one stable
    arrangement of the notes by time.  It is computed here by insertion: a
    note goes before the first note that is not earlier than it. *)
Fixpoint insert_by_time (x : NoteEvent) (l : list NoteEvent) : list NoteEvent :=
  match l with
  | [] => [x]
  | y :: l' => if Qltb (time y) (time x) then y :: insert_by_time x l' else x :: y :: l'
  end.

Definition sort_by_time (notes : list NoteEvent) : list NoteEvent :=
  fold_right insert_by_time [] notes.

(** [tracks] holds, for each track of the decoded file, its notes
    ([midi.tracks[i].notes], decoded by the library); [trackIndex] is an
    integer, or absent. *)
Definition parseMidiFile (tracks : list (list NoteEvent)) (trackIndex : option Z)
    : list NoteEvent :=
  let notes :=
    match trackIndex with
    | Some i =>
      if (0 <=? i)%Z && (i <? Z.of_nat (length tracks))%Z
      then nth (Z.to_nat i) tracks []
      else concat tracks
    | None => concat tracks
    end in
  sort_by_time notes.

(** ** core/scoring.ts, the name of a note *)

(** The decimal digits of an integer, as [Number.prototype.toString]
    writes them. *)
Definition Number_toString (z : Z) : string :=
  DecimalString.NilZero.string_of_int (Z.to_int z).

Definition note_names : list string :=
  [ "C"; "C#"; "D"; "D#"; "E"; "F"; "F#"; "G"; "G#"; "A"; "A#"; "B" ]%string.

(** For an integral [midi]: [midi % 12] has the sign of [midi], and an
    index that is negative finds [undefined], which the template writes
    out. *)
Definition midiToNoteName (midi : Z) : string :=
  let octave := (midi / 12 - 1)%Z in
  let note_ :=
    if (Z.rem midi 12 <? 0)%Z then "undefined"%string
    else nth (Z.to_nat (Z.rem midi 12)) note_names "undefined"%string in
  (note_ ++ Number_toString octave)%string.

(** ** ui/pitchBar.ts *)

(** [x * w] with a finite right-hand side. *)
Definition times (x : ext Q) (w : Q) : ext Q :=
  match x with
  | Fin q => Fin (q * w)
  | PInf => if Qltb 0 w then PInf else if Qltb w 0 then NInf else NaN
  | NInf => if Qltb 0 w then NInf else if Qltb w 0 then PInf else NaN
  | NaN => NaN
  end.

(** The fields of [PitchBarConfig] that place a point on the canvas; its
    colours are left out. *)
Record PitchBarConfig : Type := mkPitchBarConfig {
  width : Q;
  height : Q;
  noteRange_min : Q;
  noteRange_max : Q;
  historyDuration : Q
}.

(** [match] is [undefined] when no frame is given. *)
Record PitchHistoryEntry : Type := mkEntry {
  h_time : Q;
  h_expected : option slot;
  h_detected : option Q;
  h_match : option Match
}.

(** The fields of a [PitchBarVisualizer] that [addPitch] reads and
    writes. *)
Record PitchBarVisualizer : Type := mkVisualizer {
  history : list PitchHistoryEntry;
  bar_config : PitchBarConfig
}.

(** The entry that [addPitch] pushes. *)
Definition new_entry (currentTime : Q) (detected : option DetectedPitch)
    (expected : option ExpectedPitchArray) (frame : option ScoreFrame) : PitchHistoryEntry :=
  let expectedMidi :=
    match expected with
    | Some e => getExpectedMidiAt currentTime e
    | None => Some null
    end in
  {| h_time := currentTime;
     h_expected := expectedMidi;
     h_detected := detected_midi detected;
     h_match := option_map f_match frame |}.

Definition addPitch (currentTime : Q) (detected : option DetectedPitch)
    (expected : option ExpectedPitchArray) (frame : option ScoreFrame)
    (this : PitchBarVisualizer) : PitchBarVisualizer :=
  let pushed := history this ++ [new_entry currentTime detected expected frame] in
  let cutoffTime := currentTime - historyDuration (bar_config this) in
  {| history := filter (fun entry => Qle_bool cutoffTime (h_time entry)) pushed;
     bar_config := bar_config this |}.

(** ** Notions of the specification *)

(** A call signals the condition of the given name. *)
Definition signals {A : Type} (name : string) (o : outcome A) : Prop :=
  exists e, o = Threw e /\ error_name e = name.

(** *** The timeline *)

(** The resolution and the strategy that a configuration stands for. *)
Definition resolution_of (config : PitchArrayConfig) : Q :=
  match resolution config with
  | Some r => r
  | None => default_resolution
  end.

Definition strategy_of (config : PitchArrayConfig) : PolyphonyStrategy :=
  match strategy config with
  | Some s => s
  | None => VELOCITY
  end.

(** The start, the end and the length of the timeline of a list of notes. *)
Definition timeline_start (notes : list NoteEvent) : Q :=
  match notes with
  | [] => 0
  | n0 :: rest => Math_min_list (time n0) (map time rest)
  end.

Definition timeline_end (notes : list NoteEvent) : Q :=
  match notes with
  | [] => 0
  | n0 :: rest =>
    Math_max_list (time n0 + duration n0) (map (fun n => time n + duration n) rest)
  end.

Definition timeline_length (notes : list NoteEvent) (res : Q) : Z :=
  Qceiling ((timeline_end notes - timeline_start notes) / res).

(** The slots [first_slot, last_slot) in which a note is registered, for
    a resolution that is not zero. *)
Definition first_slot (start res : Q) (n : NoteEvent) : Z :=
  Z.max 0 (Qfloor ((time n - start) / res)).

Definition last_slot (start res : Q) (len : Z) (n : NoteEvent) : Z :=
  Z.min len (Qceiling ((time n + duration n - start) / res)).

Definition in_slot (start res : Q) (len : Z) (n : NoteEvent) (i : Z) : bool :=
  (first_slot start res n <=? i)%Z && (i <? last_slot start res len n)%Z.

(** The candidate that a note leaves in a slot, the candidates that a
    list of notes leaves there, in the order of the notes, and those that
    the map holds for it. *)
Definition candidate_of (n : NoteEvent) : NoteCandidate :=
  mkCandidate (midi n) (velocity n) (time n).

Definition registered (start res : Q) (len : Z) (notes : list NoteEvent) (i : Z)
    : list NoteCandidate :=
  flat_map (fun n => if in_slot start res len n i then [candidate_of n] else []) notes.

Definition candidates_at (i : Z) (m : SlotMap) : list NoteCandidate :=
  match Map_get i m with
  | Some l => l
  | None => []
  end.

(** The pitch that the builder writes in a slot from its candidates. *)
Definition resolved (strategy : PolyphonyStrategy) (cands : list NoteCandidate) : slot :=
  match cands with
  | [] => null
  | c0 :: cs => note (resolvePitch c0 cs strategy)
  end.


(** The sum of a list of numbers; the velocity-weighted mean and the
    arithmetic mean of the pitches of a list of candidates. *)
Definition sumQ (l : list Q) : Q := fold_right Qplus 0 l.

Definition weighted_mean (cs : list NoteCandidate) : Q :=
  sumQ (map (fun c => inject_Z (c_midi c) * c_velocity c) cs) / sumQ (map c_velocity cs).

Definition arithmetic_mean (cs : list NoteCandidate) : Q :=
  sumQ (map (fun c => inject_Z (c_midi c)) cs) / of_nat (length cs).

(** *** The lookup and the encoding *)

(** The index [floor((time - start) / step)] of a time, for a step that
    is not zero. *)
Definition slot_index (expected : ExpectedPitchArray) (t : Q) : Z :=
  Qfloor ((t - start expected) / step expected).


(** The pitches that a list of runs stands for. *)
Definition expand (rs : list Run) : list slot :=
  flat_map (fun run => repeat (value run) (count run)) rs.

(** *** The scorer *)

(** The number of frames of a classification in a history. *)
Definition count_of (m : Match) (fs : list ScoreFrame) : nat :=
  length (filter (fun f => match_eqb (f_match f) m) fs).

(** A number rounded to 2 decimal places. *)
Definition round2 (x : Q) : Q := inject_Z (round_half_up (x * 100)) / 100.

(** The arguments of one call of [addFrame]. *)
Record Call : Type := mkCall {
  call_detected : option DetectedPitch;
  call_expected : ExpectedPitchArray;
  call_currentTime : Q
}.

(** The tracker after a sequence of calls of [addFrame]. *)
Definition play (calls : list Call) (this : ScoreTracker) : ScoreTracker :=
  fold_left
    (fun s c => snd (addFrame (call_detected c) (call_expected c) (call_currentTime c) s))
    calls this.

(** The frame that a call adds under a configuration. *)
Definition frame_of (config : ScoringConfig) (c : Call) : ScoreFrame :=
  fst (addFrame (call_detected c) (call_expected c) (call_currentTime c)
         {| frames := []; config := config |}).

(** The calls whose frame is at a time that is not before [t]. *)
Definition at_or_after (t : Q) (config : ScoringConfig) (c : Call) : bool :=
  negb (Qltb (f_time (frame_of config c)) t).

(** A call whose detection carries the current time of the call. *)
Definition stamped (c : Call) : Prop :=
  exists d, call_detected c = Some d /\ timestamp d = call_currentTime c.

(** A history whose frames are in the order of their times. *)
Definition time_ordered (fs : list ScoreFrame) : Prop :=
  Sorted (fun a b => f_time a <= f_time b)%Q fs.

(** *** Notions of the further properties *)

(** The lists of runs that [compressPitchArray] produces: each run holds
    at least one pitch, a value that is not equal to itself (NaN) is alone
    in its run, and a run and the next one hold values that are not
    equal. *)
Fixpoint canonical (rs : list Run) : Prop :=
  match rs with
  | [] => True
  | r :: rs' =>
    (1 <= count r)%nat /\
    (slot_strict_eq (value r) (value r) = false -> count r = 1%nat) /\
    match rs' with
    | [] => True
    | r' :: _ => slot_strict_eq (value r') (value r) = false
    end /\
    canonical rs'
  end.

(** A list of notes in the order of their times, and the notes of a list
    that start at a given time, in their order. *)
Definition by_time (notes : list NoteEvent) : Prop :=
  Sorted (fun a b => time a <= time b)%Q notes.

Definition at_time (t : Q) (notes : list NoteEvent) : list NoteEvent :=
  filter (fun n => Qeq_bool (time n) t) notes.

(** The arguments of one call of [addPitch], the entry that it pushes,
    and the visualizer after a sequence of calls. *)
Record Shown : Type := mkShown {
  shown_time : Q;
  shown_detected : option DetectedPitch;
  shown_expected : option ExpectedPitchArray;
  shown_frame : option ScoreFrame
}.

(** ** The arithmetic of doubles *)

(** The functions whose result depends on how a sum, a difference, a
    product or a quotient is rounded are embedded a second time, with the
    arithmetic of the source: every operation gives the double nearest to
    its exact result.  A double is the rational that it is; the exponent
    range is not bounded (no overflow to Infinity, no subnormal numbers),
    which is exact for magnitudes between 2^-1022 and 2^1024. *)
Module Binary64.

(** The binade of a positive number: the [e] with 2^e <= q < 2^(e+1). *)
Definition binade (q : Q) : Z :=
  if Qle_bool 1 q then Z.log2 (Qfloor q) else (- Z.log2_up (Qceiling (/ q)))%Z.

(** The nearest integer, a tie going to the even one. *)
Definition round_half_even (x : Q) : Z :=
  let f := Qfloor x in
  match Qcompare (x - inject_Z f) (1 # 2) with
  | Lt => f
  | Gt => (f + 1)%Z
  | Eq => if Z.even f then f else (f + 1)%Z
  end.

(** The distance between the doubles of the binade of a positive
    number: they have 53 significant bits. *)
Definition ulp (q : Q) : Q := 2 ^ (binade q - 52).

Definition nearest (q : Q) : Q := inject_Z (round_half_even (q / ulp q)) * ulp q.

(** The double nearest to a number (round to nearest, ties to even). *)
Definition fl (q : Q) : Q :=
  match Qcompare q 0 with
  | Eq => 0
  | Gt => nearest q
  | Lt => - nearest (- q)
  end.

(** The unit roundoff, 2^-53. *)
Definition unit_roundoff : Q := 1 # 9007199254740992.

(** [a + b], [a - b], [a * b] and [a / b]; [quot] is the quotient by a
    divisor that is not zero. *)
Definition add (a b : Q) : Q := fl (a + b).
Definition sub (a b : Q) : Q := fl (a - b).
Definition mul (a b : Q) : Q := fl (a * b).
Definition quot (a b : Q) : Q := fl (a / b).

Definition divide (a b : Q) : ext Q :=
  if Qeq_bool b 0 then
    if Qltb 0 a then PInf else if Qltb a 0 then NInf else NaN
  else Fin (quot a b).

(** A decimal literal of the source, such as [0.02]. *)
Definition literal (q : Q) : Q := fl q.

(** *** core/pitchArrayBuilder.ts *)

Definition resolvePitch (c0 : NoteCandidate) (cs : list NoteCandidate)
    (strategy : PolyphonyStrategy) : ext Z :=
  match cs with
  | [] => Fin (c_midi c0)
  | _ :: _ =>
    match strategy with
    | FIRST =>
      Fin (c_midi (reduce (fun earliest current =>
             if Qltb (c_time current) (c_time earliest) then current else earliest) c0 cs))
    | VELOCITY =>
      Fin (c_midi (reduce (fun loudest current =>
             if Qltb (c_velocity loudest) (c_velocity current) then current else loudest) c0 cs))
    | FREQUENCY =>
      let totalWeight := fold_left (fun sum c => add sum (c_velocity c)) (c0 :: cs) 0 in
      let weightedSum :=
        fold_left (fun sum c => add sum (mul (inject_Z (c_midi c)) (c_velocity c)))
                  (c0 :: cs) 0 in
      Math_round (divide weightedSum totalWeight)
    end
  end.

Definition slot_begin (start resolution : Q) (n : NoteEvent) : ext Z :=
  Math_max0 (Math_floor (divide (sub (time n) start) resolution)).

Definition slot_end (start resolution : Q) (len : ext Z) (n : NoteEvent) : ext Z :=
  Math_min len (Math_ceil (divide (sub (add (time n) (duration n)) start) resolution)).

Fixpoint populate (start resolution : Q) (len : ext Z) (notes : list NoteEvent)
    (m : SlotMap) : option SlotMap :=
  match notes with
  | [] => Some m
  | n :: notes' =>
    match for_range (slot_begin start resolution n) (slot_end start resolution len n) with
    | None => None
    | Some is_ =>
      populate start resolution len notes'
        (fold_left (push_candidate (mkCandidate (midi n) (velocity n) (time n))) is_ m)
    end
  end.

Definition resolve_entry (strategy : PolyphonyStrategy) (ps : list slot)
    (entry : Z * list NoteCandidate) : list slot :=
  match snd entry with
  | [] => ps
  | c0 :: cs => array_set (Z.to_nat (fst entry)) (note (resolvePitch c0 cs strategy)) ps
  end.

Definition default_resolution : Q := literal (2 # 100).

(** [max_arguments] is the number of arguments that a call can take, a
    limit of the engine: [Math.min(...xs)] and [Math.max(...xs)] throw a
    RangeError on a longer array. *)
Definition buildExpectedPitchArray (max_arguments : nat) (notes : list NoteEvent)
    (config : PitchArrayConfig) : outcome ExpectedPitchArray :=
  let resolution := match resolution config with Some r => r | None => default_resolution end in
  let strategy := match strategy config with Some s => s | None => VELOCITY end in
  match notes with
  | [] => Returned {| start := 0; step := resolution; pitches := [] |}
  | n0 :: rest =>
    if (max_arguments <? length notes)%nat then Threw RangeError
    else
      let start := Math_min_list (time n0) (map time rest) in
      let end_ := Math_max_list (add (time n0) (duration n0))
                                (map (fun n => add (time n) (duration n)) rest) in
      let len := Math_ceil (divide (sub end_ start) resolution) in
      match populate start resolution len notes [] with
      | None => Diverges
      | Some pitchSlots =>
        match new_Array len with
        | None => Threw RangeError
        | Some l =>
          Returned {| start := start;
                      step := resolution;
                      pitches := fold_left (resolve_entry strategy) pitchSlots (repeat null l) |}
        end
      end
  end.

Definition getExpectedMidiAt (time : Q) (expected : ExpectedPitchArray) : option slot :=
  if Qltb time (start expected) then Some null
  else
    match Math_floor (divide (sub time (start expected)) (step expected)) with
    | Fin idx =>
      if (idx <? 0)%Z || (Z.of_nat (length (pitches expected)) <=? idx)%Z then Some null
      else nth_error (pitches expected) (Z.to_nat idx)
    | PInf => Some null
    | NInf => Some null
    | NaN => None
    end.

(** *** core/scoring.ts *)

Definition getStats (this : ScoreTracker) : ScoreStats :=
  let perfectFrames := count_match PERFECT (frames this) in
  let acceptableFrames := count_match ACCEPTABLE (frames this) in
  let missFrames := count_match MISS (frames this) in
  let noDataFrames := count_match NO_DATA (frames this) in
  let totalFrames := length (frames this) in
  let scoredFrames := (perfectFrames + acceptableFrames + missFrames)%nat in
  let matchedFrames := (perfectFrames + acceptableFrames)%nat in
  let score :=
    if (0 <? scoredFrames)%nat
    then mul (quot (of_nat matchedFrames) (of_nat scoredFrames)) 100
    else 0 in
  let frameStep :=
    if (1 <? length (frames this))%nat then
      match nth_error (frames this) (length (frames this) - 1), nth_error (frames this) 0 with
      | Some last_, Some first =>
        quot (sub (f_time last_) (f_time first)) (of_nat (length (frames this) - 1))
      | _, _ => literal (2 # 100)
      end
    else literal (2 # 100) in
  {| totalFrames := totalFrames;
     perfectFrames := perfectFrames;
     acceptableFrames := acceptableFrames;
     missFrames := missFrames;
     noDataFrames := noDataFrames;
     score := quot (inject_Z (round_half_up (mul score 100))) 100;
     matchedTime := mul (of_nat matchedFrames) frameStep;
     totalTime := mul (of_nat scoredFrames) frameStep |}.

(** *** ui/pitchBar.ts *)

(** The entry that [addPitch] pushes. *)
Definition new_entry (currentTime : Q) (detected : option DetectedPitch)
    (expected : option ExpectedPitchArray) (frame : option ScoreFrame) : PitchHistoryEntry :=
  let expectedMidi :=
    match expected with
    | Some e => getExpectedMidiAt currentTime e
    | None => Some null
    end in
  {| h_time := currentTime;
     h_expected := expectedMidi;
     h_detected := detected_midi detected;
     h_match := option_map f_match frame |}.

Definition addPitch (currentTime : Q) (detected : option DetectedPitch)
    (expected : option ExpectedPitchArray) (frame : option ScoreFrame)
    (this : PitchBarVisualizer) : PitchBarVisualizer :=
  let pushed := history this ++ [new_entry currentTime detected expected frame] in
  let cutoffTime := sub currentTime (historyDuration (bar_config this)) in
  {| history := filter (fun entry => Qle_bool cutoffTime (h_time entry)) pushed;
     bar_config := bar_config this |}.

(** A product by [width] or [height], of a quotient that can be
    infinite or NaN. *)
Definition scale (x : ext Q) (w : Q) : ext Q :=
  match x with
  | Fin r => Fin (mul r w)
  | _ => times x w
  end.

Definition timeToX (time_ currentTime : Q) (this : PitchBarVisualizer) : ext Q :=
  let relativeTime := sub time_ (sub currentTime (historyDuration (bar_config this))) in
  scale (divide relativeTime (historyDuration (bar_config this))) (width (bar_config this)).

Definition midiToY (midi_ : Q) (this : PitchBarVisualizer) : ext Q :=
  let range := sub (noteRange_max (bar_config this)) (noteRange_min (bar_config this)) in
  let normalized := divide (sub (noteRange_max (bar_config this)) midi_) range in
  scale normalized (height (bar_config this)).

(** *** Notions *)

Definition resolution_of (config : PitchArrayConfig) : Q :=
  match resolution config with
  | Some r => r
  | None => default_resolution
  end.

(** The start, the end and the length that the builder computes. *)
Definition timeline_end (notes : list NoteEvent) : Q :=
  match notes with
  | [] => 0
  | n0 :: rest =>
    Math_max_list (add (time n0) (duration n0)) (map (fun n => add (time n) (duration n)) rest)
  end.

Definition timeline_length (notes : list NoteEvent) (res : Q) : Z :=
  Qceiling (quot (sub (timeline_end notes) (timeline_start notes)) res).

(** The index that the lookup computes for a time, on a step that is
    not zero. *)
Definition index_of (start step t : Q) : Z := Qfloor (quot (sub t start) step).

Definition slot_index (expected : ExpectedPitchArray) (t : Q) : Z :=
  index_of (start expected) (step expected) t.

(** The slots [first_slot, last_slot) in which the builder registers a
    note, for a resolution that is not zero. *)
Definition first_slot (start res : Q) (n : NoteEvent) : Z :=
  Z.max 0 (index_of start res (time n)).

Definition last_slot (start res : Q) (len : Z) (n : NoteEvent) : Z :=
  Z.min len (Qceiling (quot (sub (add (time n) (duration n)) start) res)).

Definition in_slot (start res : Q) (len : Z) (n : NoteEvent) (i : Z) : bool :=
  (first_slot start res n <=? i)%Z && (i <? last_slot start res len n)%Z.

Definition registered (start res : Q) (len : Z) (notes : list NoteEvent) (i : Z)
    : list NoteCandidate :=
  flat_map (fun n => if in_slot start res len n i then [candidate_of n] else []) notes.

Definition resolved (strategy : PolyphonyStrategy) (cands : list NoteCandidate) : slot :=
  match cands with
  | [] => null
  | c0 :: cs => note (resolvePitch c0 cs strategy)
  end.


(** A number that is a double. *)
Definition double (q : Q) : Prop := fl q == q.

(** The entry that a call of [addPitch] pushes, and the visualizer after
    a sequence of calls. *)
Definition entry_of (c : Shown) : PitchHistoryEntry :=
  new_entry (shown_time c) (shown_detected c) (shown_expected c) (shown_frame c).

Definition show (calls : list Shown) (this : PitchBarVisualizer) : PitchBarVisualizer :=
  fold_left
    (fun v c => addPitch (shown_time c) (shown_detected c) (shown_expected c) (shown_frame c) v)
    calls this.

End Binary64.

(** ** Inputs of the examples *)

(** Two notes, back to back: [0, 0.5) of pitch 60 and [0.5, 1) of
    pitch 64. *)
Definition two_notes : list NoteEvent :=
  [ mkNote 0 (1 # 2) 60 (1 # 2); mkNote (1 # 2) (1 # 2) 64 (9 # 10) ].

(** Two notes of velocity 0 that sound together, and their candidates. *)
Definition muted_chord : list NoteEvent :=
  [ mkNote 0 1 60 0; mkNote 0 1 64 0 ].

Definition muted_candidates : list NoteCandidate :=
  [ mkCandidate 60 0 0; mkCandidate 64 0 0 ].

(** An array of one silent slot. *)
Definition silent_array : ExpectedPitchArray :=
  {| start := 0; step := 1; pitches := [null] |}.

(** The timeline and the detections of the two scenarios of the
    specification: an expected pitch of 60 at time 0, a detected pitch of
    60.3. *)
Definition timeline_60 : ExpectedPitchArray :=
  {| start := 0; step := 1; pitches := [note (Fin 60%Z)] |}.

Definition sung (clarity_ : Q) : DetectedPitch :=
  {| d_midi := Some (603 # 10); frequency := 266; clarity := clarity_; timestamp := 0 |}.

Definition no_config : PartialScoringConfig :=
  {| p_perfectThreshold := None; p_acceptableThreshold := None; p_clarityThreshold := None |}.

(** Trackers that hold one frame and two frames. *)
Definition one_frame_tracker : ScoreTracker :=
  {| frames := [ {| f_time := 0; f_expected := Some (note (Fin 60%Z));
                    f_detected := Some 60; f_diff := Some (Fin 0); f_match := PERFECT |} ];
     config := DEFAULT_SCORING_CONFIG |}.

Definition two_frame_tracker : ScoreTracker :=
  {| frames := [ {| f_time := 0; f_expected := Some (note (Fin 60%Z));
                    f_detected := Some 60; f_diff := Some (Fin 0); f_match := PERFECT |};
                 {| f_time := 1; f_expected := Some (note (Fin 60%Z));
                    f_detected := Some 64; f_diff := Some (Fin 4); f_match := MISS |} ];
     config := DEFAULT_SCORING_CONFIG |}.

(** An argument of [import] that has no frames. *)
Definition data_without_frames : ImportData :=
  {| data_frames := None;
     data_config := Some {| p_perfectThreshold := Some 2;
                            p_acceptableThreshold := None;
                            p_clarityThreshold := None |} |}.

(** Two calls, at times 1 and 2, each with a detection stamped with the
    time of the call. *)
Definition two_calls : list Call :=
  [ {| call_detected := Some {| d_midi := Some 60; frequency := 262;
                                clarity := 1; timestamp := 1 |};
       call_expected := timeline_60; call_currentTime := 1 |};
    {| call_detected := Some {| d_midi := Some 62; frequency := 294;
                                clarity := 1; timestamp := 2 |};
       call_expected := timeline_60; call_currentTime := 2 |} ].

(** Two notes with a gap between them: [0, 0.5) of pitch 60 and [1, 1.5)
    of pitch 64. *)
Definition gapped_notes : list NoteEvent :=
  [ mkNote 0 (1 # 2) 60 (1 # 2); mkNote 1 (1 # 2) 64 (9 # 10) ].

Definition half_second : PitchArrayConfig :=
  {| resolution := Some (1 # 2); strategy := None |}.

(** Two tracks whose notes are not in the order of their times. *)
Definition two_tracks : list (list NoteEvent) :=
  [ [ mkNote 1 (1 # 2) 64 (9 # 10); mkNote 0 (1 # 2) 60 (1 # 2) ];
    [ mkNote (1 # 2) (1 # 2) 62 (1 # 2) ] ].

(** A visualizer with the default sizes (800 by 200, the pitches 48 to
    84, 3 seconds of history) and no entry, and three calls at the times 0,
    2 and 4. *)
Definition default_visualizer : PitchBarVisualizer :=
  {| history := [];
     bar_config := {| width := 800; height := 200; noteRange_min := 48;
                      noteRange_max := 84; historyDuration := 3 |} |}.

Definition three_shown : list Shown :=
  [ mkShown 0 None None None; mkShown 2 None None None; mkShown 4 None None None ].

(** An array of three pitches whose start and step are the double 0.7. *)
Definition seventh_array : ExpectedPitchArray :=
  {| start := Binary64.literal (7 # 10);
     step := Binary64.literal (7 # 10);
     pitches := [note (Fin 60%Z); note (Fin 62%Z); note (Fin 64%Z)] |}.

(** A history of 23 PERFECT frames followed by 137 MISS frames. *)
Definition tracker_23_of_160 : ScoreTracker :=
  {| frames :=
       repeat {| f_time := 0; f_expected := Some (note (Fin 60%Z));
                 f_detected := Some 60; f_diff := Some (Fin 0); f_match := PERFECT |} 23
       ++ repeat {| f_time := 0; f_expected := Some (note (Fin 60%Z));
                    f_detected := Some 64; f_diff := Some (Fin 4); f_match := MISS |} 137;
     config := DEFAULT_SCORING_CONFIG |}.


(** * Properties *)

Unset Implicit Arguments.
Local Open Scope Q_scope.

(** ** Comparisons and division *)

Lemma Qltb_lt (a b : Q) : Qltb a b = true <-> a < b.
Proof.
  unfold Qltb. rewrite Qlt_alt. destruct (a ?= b); split; congruence.
Qed.

Lemma Qltb_ge (a b : Q) : Qltb a b = false <-> b <= a.
Proof.
  split; intro H.
  - apply Qnot_lt_le. intro L. apply Qltb_lt in L. congruence.
  - destruct (Qltb a b) eqn:E; [ | reflexivity ].
    apply Qltb_lt in E. exfalso. exact (Qlt_not_le _ _ E H).
Qed.

Lemma divide_finite (a b : Q) : ~ b == 0 -> divide a b = Fin (a / b).
Proof.
  intro H. unfold divide.
  destruct (Qeq_bool b 0) eqn:E; [ | reflexivity ].
  apply Qeq_bool_iff in E. contradiction.
Qed.

Lemma divide_by_zero (a b : Q) : b == 0 -> forall q, divide a b <> Fin q.
Proof.
  intros H q. unfold divide.
  rewrite (proj2 (Qeq_bool_iff b 0) H).
  destruct (Qltb 0 a); [ discriminate | ].
  destruct (Qltb a 0); discriminate.
Qed.

(** ** Lookup by time *)

Section Lookup.

Variable expected : ExpectedPitchArray.




Lemma index_at_start : ~ step expected == 0 -> slot_index expected (start expected) = 0%Z.
Proof.
  intro H. unfold slot_index.
  assert (E : (start expected - start expected) / step expected == 0) by (field; exact H).
  rewrite E. reflexivity.
Qed.

(** On a step of zero the index at [start] is NaN, and the array read
    gives [undefined]. *)
Lemma lookup_undefined :
  step expected == 0 -> getExpectedMidiAt (start expected) expected = None.
Proof.
  intro H. unfold getExpectedMidiAt, divide.
  rewrite (proj2 (Qeq_bool_iff _ 0) H).
  assert (A : Qltb (start expected) (start expected) = false)
    by (apply Qltb_ge, Qle_refl).
  assert (B : Qltb 0 (start expected - start expected) = false)
    by (apply Qltb_ge; lra).
  assert (C : Qltb (start expected - start expected) 0 = false)
    by (apply Qltb_ge; lra).
  rewrite A, B, C. reflexivity.
Qed.

End Lookup.

(** ** The slot map and the array of the builder *)

Lemma Map_get_set_same (i : Z) (v : list NoteCandidate) (m : SlotMap) :
  Map_get i (Map_set i v m) = Some v.
Proof.
  induction m as [ | [k w] m IH ]; simpl.
  - now rewrite Z.eqb_refl.
  - destruct (Z.eqb k i) eqn:E; simpl; rewrite E; [ reflexivity | exact IH ].
Qed.

Lemma Map_get_set_other (i j : Z) (v : list NoteCandidate) (m : SlotMap) :
  i <> j -> Map_get j (Map_set i v m) = Map_get j m.
Proof.
  intro N. induction m as [ | [k w] m IH ]; simpl.
  - destruct (Z.eqb i j) eqn:E; [ apply Z.eqb_eq in E; contradiction | reflexivity ].
  - destruct (Z.eqb k i) eqn:E; simpl.
    + apply Z.eqb_eq in E. subst k.
      destruct (Z.eqb i j) eqn:E'; [ apply Z.eqb_eq in E'; contradiction | reflexivity ].
    + destruct (Z.eqb k j); [ reflexivity | exact IH ].
Qed.

Lemma Map_get_None (j : Z) (m : SlotMap) : ~ In j (map fst m) -> Map_get j m = None.
Proof.
  induction m as [ | [k w] m IH ]; simpl; intro N; [ reflexivity | ].
  destruct (Z.eqb k j) eqn:E.
  - apply Z.eqb_eq in E. tauto.
  - apply IH. tauto.
Qed.

(** The keys after [set]: the key is new and comes last, or none moves. *)
Lemma Map_set_keys (i : Z) (v : list NoteCandidate) (m : SlotMap) :
  map fst (Map_set i v m) = if in_dec Z.eq_dec i (map fst m) then map fst m
                           else map fst m ++ [i].
Proof.
  induction m as [ | [k w] m IH ]; simpl; [ reflexivity | ].
  destruct (Z.eqb k i) eqn:E; simpl.
  - apply Z.eqb_eq in E. subst k.
    destruct (Z.eq_dec i i); [ reflexivity | congruence ].
  - apply Z.eqb_neq in E. rewrite IH.
    destruct (Z.eq_dec k i); [ contradiction | ].
    destruct (in_dec Z.eq_dec i (map fst m)); reflexivity.
Qed.

Lemma push_candidate_at (c : NoteCandidate) (m : SlotMap) (i j : Z) :
  candidates_at j (push_candidate c m i) =
    if Z.eqb i j then candidates_at j m ++ [c] else candidates_at j m.
Proof.
  unfold candidates_at, push_candidate.
  destruct (Z.eqb i j) eqn:E.
  - apply Z.eqb_eq in E. subst j.
    destruct (Map_get i m); now rewrite Map_get_set_same.
  - apply Z.eqb_neq in E.
    destruct (Map_get i m); now rewrite Map_get_set_other.
Qed.

Lemma push_candidate_keys (c : NoteCandidate) (m : SlotMap) (i : Z) (P : Z -> Prop) :
  NoDup (map fst m) -> Forall P (map fst m) -> P i ->
  NoDup (map fst (push_candidate c m i)) /\ Forall P (map fst (push_candidate c m i)).
Proof.
  intros D F Pi.
  assert (K : forall v, NoDup (map fst (Map_set i v m)) /\ Forall P (map fst (Map_set i v m))).
  { intro v. rewrite Map_set_keys.
    destruct (in_dec Z.eq_dec i (map fst m)) as [I | I]; [ now split | ].
    split.
    - apply NoDup_app; [ exact D | repeat constructor; intros [] | ].
      intros x Hx [<- | []]. contradiction.
    - apply Forall_app. split; [ exact F | now constructor ]. }
  unfold push_candidate. destruct (Map_get i m); apply K.
Qed.

(** The inner loop, over the slots [a], [a + 1], ..., [a + k - 1]. *)
Lemma push_range_at (c : NoteCandidate) (a j : Z) (k : nat) :
  forall m,
    candidates_at j
      (fold_left (push_candidate c) (map (fun x => (a + Z.of_nat x)%Z) (seq 0 k)) m) =
    candidates_at j m ++
      (if (a <=? j)%Z && (j <? a + Z.of_nat k)%Z then [c] else []).
Proof.
  induction k as [ | k IH ]; intro m.
  - cbn [seq map fold_left].
    destruct (Z.leb_spec a j), (Z.ltb_spec j (a + Z.of_nat 0)); cbn [andb];
      try (exfalso; lia); now rewrite app_nil_r.
  - rewrite seq_S, map_app, fold_left_app. cbn [map fold_left Nat.add].
    rewrite push_candidate_at, IH, Nat2Z.inj_succ.
    destruct (Z.eqb_spec (a + Z.of_nat k) j), (Z.leb_spec a j),
      (Z.ltb_spec j (a + Z.of_nat k)), (Z.ltb_spec j (a + Z.succ (Z.of_nat k)));
      cbn [andb]; try (exfalso; lia); rewrite ?app_nil_r; reflexivity.
Qed.

Lemma push_range_keys (c : NoteCandidate) (a : Z) (k : nat) (P : Z -> Prop) :
  (forall i, (a <= i < a + Z.of_nat k)%Z -> P i) ->
  forall m,
    NoDup (map fst m) -> Forall P (map fst m) ->
    let m' := fold_left (push_candidate c) (map (fun x => (a + Z.of_nat x)%Z) (seq 0 k)) m in
    NoDup (map fst m') /\ Forall P (map fst m').
Proof.
  induction k as [ | k IH ]; intros HP m D F.
  - now split.
  - cbv zeta. rewrite seq_S, map_app, fold_left_app. cbn [map fold_left Nat.add].
    destruct (IH (fun i Hi => HP i ltac:(lia)) m D F) as [D' F'].
    apply push_candidate_keys; [ exact D' | exact F' | ].
    apply HP. lia.
Qed.

Lemma array_set_length (i : nat) (v : slot) (a : list slot) :
  length (array_set i v a) = length a.
Proof.
  revert i. induction a as [ | x a IH ]; intros [ | i ]; simpl; auto.
Qed.

Lemma array_set_same (i : nat) (v : slot) (a : list slot) :
  (i < length a)%nat -> nth_error (array_set i v a) i = Some v.
Proof.
  revert i. induction a as [ | x a IH ]; intros [ | i ] L; simpl in *; try lia.
  - reflexivity.
  - apply IH. lia.
Qed.

Lemma array_set_other (i j : nat) (v : slot) (a : list slot) :
  i <> j -> nth_error (array_set i v a) j = nth_error a j.
Proof.
  revert i j. induction a as [ | x a IH ]; intros [ | i ] [ | j ] N; simpl; try reflexivity.
  - congruence.
  - apply IH. congruence.
Qed.

(** The loop that resolves the slots writes, at each key of the map, the
    pitch resolved from the candidates of the key. *)
Lemma resolve_entries_at (strategy : PolyphonyStrategy) (j : Z) (m : SlotMap) :
  forall ps,
    NoDup (map fst m) -> Forall (fun k => 0 <= k)%Z (map fst m) ->
    (0 <= j)%Z -> (Z.to_nat j < length ps)%nat ->
    nth_error (fold_left (resolve_entry strategy) m ps) (Z.to_nat j) =
      match candidates_at j m with
      | [] => nth_error ps (Z.to_nat j)
      | c0 :: cs => Some (note (resolvePitch c0 cs strategy))
      end.
Proof.
  unfold candidates_at.
  induction m as [ | [k v] m IH ]; intros ps D F J L; [ reflexivity | ].
  simpl in D, F. inversion D as [ | ? ? Dk Dm ]; subst. inversion F as [ | ? ? Fk Fm ]; subst.
  cbn [fold_left Map_get].
  assert (L' : (Z.to_nat j < length (resolve_entry strategy ps (k, v)))%nat).
  { unfold resolve_entry. cbn [fst snd]. destruct v; [ exact L | ].
    now rewrite array_set_length. }
  rewrite (IH _ Dm Fm J L').
  destruct (Z.eqb k j) eqn:E.
  - apply Z.eqb_eq in E. subst k.
    rewrite (Map_get_None j m Dk).
    unfold resolve_entry. cbn [fst snd].
    destruct v as [ | c0 cs ]; [ reflexivity | ].
    now apply array_set_same.
  - apply Z.eqb_neq in E.
    destruct (Map_get j m) as [ [ | c0 cs ] | ]; try reflexivity;
      unfold resolve_entry; cbn [fst snd]; destruct v; try reflexivity;
      apply array_set_other; lia.
Qed.

(** ** The loop over the notes *)

Section Populate.

Variables (start res : Q) (len : Z).
Hypothesis res_not_zero : ~ res == 0.

Lemma slot_begin_finite (n : NoteEvent) :
  slot_begin start res n = Fin (first_slot start res n).
Proof.
  unfold slot_begin. now rewrite divide_finite.
Qed.

Lemma slot_end_finite (n : NoteEvent) :
  slot_end start res (Fin len) n = Fin (last_slot start res len n).
Proof.
  unfold slot_end. now rewrite divide_finite.
Qed.

Lemma in_slot_range (n : NoteEvent) (j : Z) :
  let a := first_slot start res n in
  let b := last_slot start res len n in
  (a <=? j)%Z && (j <? a + Z.of_nat (Z.to_nat (b - a)))%Z = in_slot start res len n j.
Proof.
  intros a b. unfold in_slot. fold a b.
  destruct (Z.leb_spec a j), (Z.ltb_spec j b),
    (Z.ltb_spec j (a + Z.of_nat (Z.to_nat (b - a)))); cbn [andb];
    try reflexivity; exfalso; lia.
Qed.

Lemma first_slot_nonneg (n : NoteEvent) : (0 <= first_slot start res n)%Z.
Proof.
  unfold first_slot. lia.
Qed.

Lemma last_slot_le (n : NoteEvent) : (last_slot start res len n <= len)%Z.
Proof.
  unfold last_slot. lia.
Qed.

(** With a resolution that is not zero the loops end; they leave in each
    slot the candidates of the notes registered there, and the keys of the
    map are distinct slots of [0, len). *)
Lemma populate_at (notes : list NoteEvent) :
  forall m,
    NoDup (map fst m) -> Forall (fun k => 0 <= k < len)%Z (map fst m) ->
    exists m',
      populate start res (Fin len) notes m = Some m' /\
      (forall j, candidates_at j m' = candidates_at j m ++ registered start res len notes j) /\
      NoDup (map fst m') /\ Forall (fun k => 0 <= k < len)%Z (map fst m').
Proof.
  induction notes as [ | n notes IH ]; intros m D F.
  - exists m. repeat split; try assumption.
    intro j. simpl. now rewrite app_nil_r.
  - cbn [populate]. rewrite slot_begin_finite, slot_end_finite. cbn [for_range].
    set (a := first_slot start res n). set (b := last_slot start res len n).
    set (m1 := fold_left (push_candidate (mkCandidate (midi n) (velocity n) (time n)))
                 (map (fun k => (a + Z.of_nat k)%Z) (seq 0 (Z.to_nat (b - a)))) m).
    assert (K : NoDup (map fst m1) /\ Forall (fun k => 0 <= k < len)%Z (map fst m1)).
    { apply push_range_keys; [ | exact D | exact F ].
      intros i Hi.
      pose proof (first_slot_nonneg n) as Ha. pose proof (last_slot_le n) as Hb.
      fold a in Ha. fold b in Hb. lia. }
    destruct K as [D1 F1].
    destruct (IH m1 D1 F1) as [m' [E [C [D' F']]]].
    exists m'. repeat split; try assumption.
    intro j. rewrite C. unfold m1. rewrite push_range_at.
    unfold a, b. rewrite in_slot_range.
    cbn [registered flat_map]. rewrite <- app_assoc. reflexivity.
Qed.

End Populate.

(** ** The span of the notes *)

Lemma Math_min_list_le (xs : list Q) :
  forall x, Math_min_list x xs <= x /\ Forall (fun y => Math_min_list x xs <= y) xs.
Proof.
  unfold Math_min_list.
  induction xs as [ | y xs IH ]; intro x; simpl.
  - split; [ apply Qle_refl | constructor ].
  - destruct (IH (Qmin x y)) as [A B]. split; [ | constructor ].
    + apply Qle_trans with (Qmin x y); [ exact A | apply Q.le_min_l ].
    + apply Qle_trans with (Qmin x y); [ exact A | apply Q.le_min_r ].
    + exact B.
Qed.

Lemma Math_max_list_ge (xs : list Q) :
  forall x, x <= Math_max_list x xs /\ Forall (fun y => y <= Math_max_list x xs) xs.
Proof.
  unfold Math_max_list.
  induction xs as [ | y xs IH ]; intro x; simpl.
  - split; [ apply Qle_refl | constructor ].
  - destruct (IH (Qmax x y)) as [A B]. split; [ | constructor ].
    + apply Qle_trans with (Qmax x y); [ apply Q.le_max_l | exact A ].
    + apply Qle_trans with (Qmax x y); [ apply Q.le_max_r | exact A ].
    + exact B.
Qed.

Lemma timeline_start_le (notes : list NoteEvent) (n : NoteEvent) :
  In n notes -> timeline_start notes <= time n.
Proof.
  destruct notes as [ | n0 rest ]; [ intros [] | ].
  unfold timeline_start.
  destruct (Math_min_list_le (map time rest) (time n0)) as [A B].
  intros [<- | I]; [ exact A | ].
  rewrite Forall_forall in B. apply B. now apply in_map.
Qed.

(** ** The timeline built *)

Lemma resolve_entries_length (strategy : PolyphonyStrategy) (m : SlotMap) :
  forall ps, length (fold_left (resolve_entry strategy) m ps) = length ps.
Proof.
  induction m as [ | [k v] m IH ]; intro ps; [ reflexivity | ].
  cbn [fold_left]. rewrite IH. unfold resolve_entry. cbn [fst snd].
  destruct v; [ reflexivity | apply array_set_length ].
Qed.

(** With notes, a resolution that is not zero and a length that an array
    can have, the builder returns: the timeline starts at the earliest
    note, and each of its slots holds the pitch resolved from the notes
    registered there. *)
Lemma build_returns (notes : list NoteEvent) (config : PitchArrayConfig) :
  let res := resolution_of config in
  let len := timeline_length notes res in
  notes <> [] -> ~ res == 0 -> (0 <= len <= max_array_length)%Z ->
  exists ps,
    buildExpectedPitchArray notes config =
      Returned {| start := timeline_start notes; step := res; pitches := ps |} /\
    length ps = Z.to_nat len /\
    forall j, (0 <= j < len)%Z ->
      nth_error ps (Z.to_nat j) =
        Some (resolved (strategy_of config)
                (registered (timeline_start notes) res len notes j)).
Proof.
  intros res len Hne Hres Hlen.
  destruct notes as [ | n0 rest ]; [ congruence | ].
  unfold buildExpectedPitchArray.
  fold (resolution_of config). fold res. fold (strategy_of config).
  change (Math_min_list (time n0) (map time rest)) with (timeline_start (n0 :: rest)).
  change (Math_max_list (time n0 + duration n0) (map (fun n => time n + duration n) rest))
    with (timeline_end (n0 :: rest)).
  rewrite (divide_finite _ _ Hres). cbn [Math_ceil map_ext].
  fold (timeline_length (n0 :: rest) res). fold len.
  destruct (populate_at (timeline_start (n0 :: rest)) res len Hres (n0 :: rest) [])
    as [m [E [C [D F]]]]; [ constructor | constructor | ].
  rewrite E. unfold new_Array.
  rewrite (proj2 (Z.leb_le 0 len)) by lia.
  rewrite (proj2 (Z.leb_le len max_array_length)) by lia.
  cbn [andb].
  eexists. split; [ reflexivity | ].
  split; [ now rewrite resolve_entries_length, repeat_length | ].
  intros j Hj.
  rewrite resolve_entries_at.
  - rewrite C. cbn [candidates_at Map_get app]. unfold resolved.
    destruct (registered _ _ _ _ _); [ | reflexivity ].
    apply nth_error_repeat. lia.
  - exact D.
  - apply Forall_impl with (2 := F). intros k Hk. lia.
  - lia.
  - rewrite repeat_length. lia.
Qed.

(** ** The resolution is not validated *)

Lemma signals_Returned {A : Type} (name : string) (a : A) : ~ signals name (Returned a).
Proof.
  intros [e [H _]]. discriminate H.
Qed.

Lemma signals_RangeError {A : Type} (name : string) :
  name <> "RangeError"%string -> ~ signals name (@Threw A RangeError).
Proof.
  intros N [e [H E]]. injection H as <-. simpl in E. congruence.
Qed.

Lemma signals_Diverges {A : Type} (name : string) : ~ signals name (@Diverges A).
Proof.
  intros [e [H _]]. discriminate H.
Qed.

Lemma for_range_empty (i0 i1 : ext Z) : i0 = PInf \/ i0 = NaN -> for_range i0 i1 = Some [].
Proof.
  intros [-> | ->]; destruct i1; reflexivity.
Qed.

Lemma populate_zero_resolution (start res : Q) (len : ext Z) (notes : list NoteEvent) :
  res == 0 -> Forall (fun n => start <= time n) notes ->
  forall m, populate start res len notes m = Some m.
Proof.
  intros Hz F. induction F as [ | n notes Hn _ IH ]; intro m; [ reflexivity | ].
  cbn [populate]. rewrite for_range_empty; [ apply IH | ].
  unfold slot_begin, divide.
  rewrite (proj2 (Qeq_bool_iff res 0) Hz).
  destruct (Qltb 0 (time n - start)) eqn:P; [ now left | ].
  assert (N : Qltb (time n - start) 0 = false) by (apply Qltb_ge; lra).
  rewrite N. now right.
Qed.

Lemma timeline_start_bound (notes : list NoteEvent) :
  Forall (fun n => timeline_start notes <= time n) notes.
Proof.
  apply Forall_forall. intros n I. now apply timeline_start_le.
Qed.

(** With notes and a resolution of zero, the length is infinite or NaN
    and the allocation of the array fails. *)
Lemma build_zero_resolution (notes : list NoteEvent) (config : PitchArrayConfig) :
  notes <> [] -> resolution_of config == 0 ->
  buildExpectedPitchArray notes config = Threw RangeError.
Proof.
  intros Hne Hz.
  pose proof (timeline_start_bound notes) as F.
  destruct notes as [ | n0 rest ]; [ congruence | ].
  unfold buildExpectedPitchArray. fold (resolution_of config).
  change (Math_min_list (time n0) (map time rest)) with (timeline_start (n0 :: rest)).
  rewrite (populate_zero_resolution _ _ _ _ Hz F).
  unfold divide. rewrite (proj2 (Qeq_bool_iff _ 0) Hz).
  destruct (Qltb 0 _); [ reflexivity | ].
  destruct (Qltb _ 0); reflexivity.
Qed.

(** With notes and a resolution that is not zero, the builder returns
    when the length is one that an array can have, and fails in the
    allocation otherwise. *)
Lemma build_bad_length (notes : list NoteEvent) (config : PitchArrayConfig) :
  let len := timeline_length notes (resolution_of config) in
  notes <> [] -> ~ resolution_of config == 0 ->
  ~ (0 <= len <= max_array_length)%Z ->
  buildExpectedPitchArray notes config = Threw RangeError.
Proof.
  intros len Hne Hres Hlen.
  destruct notes as [ | n0 rest ]; [ congruence | ].
  unfold buildExpectedPitchArray. fold (resolution_of config).
  change (Math_min_list (time n0) (map time rest)) with (timeline_start (n0 :: rest)).
  change (Math_max_list (time n0 + duration n0) (map (fun n => time n + duration n) rest))
    with (timeline_end (n0 :: rest)).
  rewrite (divide_finite _ _ Hres). cbn [Math_ceil map_ext].
  fold (timeline_length (n0 :: rest) (resolution_of config)). fold len.
  destruct (populate_at (timeline_start (n0 :: rest)) (resolution_of config) len Hres
              (n0 :: rest) []) as [m [E _]]; [ constructor | constructor | ].
  rewrite E. unfold new_Array.
  destruct (Z.leb_spec 0 len), (Z.leb_spec len max_array_length); cbn [andb];
    try reflexivity.
  exfalso. apply Hlen. lia.
Qed.

(** The builder always ends. *)
Lemma build_terminates (notes : list NoteEvent) (config : PitchArrayConfig) :
  buildExpectedPitchArray notes config <> Diverges.
Proof.
  destruct notes as [ | n0 rest ] eqn:N; [ discriminate | ]. rewrite <- N.
  assert (Hne : notes <> []) by (rewrite N; discriminate).
  destruct (Qeq_dec (resolution_of config) 0) as [Hz | Hz].
  - rewrite (build_zero_resolution notes config Hne Hz). discriminate.
  - set (len := timeline_length notes (resolution_of config)).
    destruct (Z_le_dec 0 len) as [A | A]; [ destruct (Z_le_dec len max_array_length) as [B | B] | ].
    + destruct (build_returns notes config Hne Hz (conj A B)) as [ps [E _]].
      rewrite E. discriminate.
    + rewrite (build_bad_length notes config Hne Hz); [ discriminate | fold len; lia ].
    + rewrite (build_bad_length notes config Hne Hz); [ discriminate | fold len; lia ].
Qed.

(** C1, as the code has it: [buildExpectedPitchArray] does not validate
    the resolution.  Whatever the notes and the configuration, it signals
    no InvalidConfig condition.  With no notes it returns the empty
    timeline of start 0 whose step is the resolution given, positive or
    not; with notes and a resolution of 0 it fails with the RangeError of
    the allocation of an array of infinite or NaN length. *)
Theorem build_does_not_validate (notes : list NoteEvent) (config : PitchArrayConfig) :
  ~ signals "InvalidConfig" (buildExpectedPitchArray notes config) /\
  buildExpectedPitchArray [] config =
    Returned {| start := 0; step := resolution_of config; pitches := [] |} /\
  (notes <> [] -> resolution_of config == 0 ->
   buildExpectedPitchArray notes config = Threw RangeError).
Proof.
  split; [ | split; [ reflexivity | apply build_zero_resolution ] ].
  pose proof (build_terminates notes config) as T.
  destruct (buildExpectedPitchArray notes config) as [a | [] | ].
  - apply signals_Returned.
  - apply signals_RangeError. discriminate.
  - congruence.
Qed.

Lemma build_does_not_validate_witness :
  two_notes <> [] /\
  resolution_of {| resolution := Some 0; strategy := None |} == 0 /\
  buildExpectedPitchArray two_notes {| resolution := Some 0; strategy := None |}
    = Threw RangeError.
Proof.
  assert (N : two_notes <> []) by discriminate.
  assert (R : resolution_of {| resolution := Some 0; strategy := None |} == 0) by reflexivity.
  split; [ exact N | split; [ exact R | ] ].
  exact (proj2 (proj2 (build_does_not_validate two_notes
                         {| resolution := Some 0; strategy := None |})) N R).
Defined.

(** C1 as it is stated fails: with a resolution of 0 and no notes the
    builder returns a timeline of step 0, and with a resolution of -3 and
    two notes it returns a timeline of step -3; neither call signals a
    condition. *)
Lemma build_accepts_nonpositive_resolution :
  buildExpectedPitchArray [] {| resolution := Some 0; strategy := None |} =
    Returned {| start := 0; step := 0; pitches := [] |} /\
  buildExpectedPitchArray two_notes {| resolution := Some (- (3)); strategy := None |} =
    Returned {| start := 0; step := - (3); pitches := [] |}.
Proof.
  split; reflexivity.
Qed.

(** ** Polyphony resolution *)

Lemma fold_left_sum {A : Type} (f : A -> Q) (l : list A) :
  forall a, fold_left (fun sum c => sum + f c) l a == a + sumQ (map f l).
Proof.
  induction l as [ | x l IH ]; intro a; simpl.
  - ring.
  - rewrite IH. ring.
Qed.

Lemma round_half_up_comp (x y : Q) : x == y -> round_half_up x = round_half_up y.
Proof.
  intro E. unfold round_half_up. now rewrite E.
Qed.

Lemma sumQ_nonneg (l : list Q) : Forall (fun x => 0 <= x) l -> 0 <= sumQ l.
Proof.
  induction 1 as [ | x l Hx _ IH ]; simpl; [ apply Qle_refl | lra ].
Qed.

Lemma sumQ_pos (l : list Q) :
  Forall (fun x => 0 <= x) l -> Exists (fun x => 0 < x) l -> 0 < sumQ l.
Proof.
  intros F E. induction E as [ x l Hx | x l _ IH ]; inversion F; subst; simpl.
  - pose proof (sumQ_nonneg l H2). lra.
  - specialize (IH H2). lra.
Qed.

Lemma sumQ_zero (l : list Q) : Forall (fun x => x == 0) l -> sumQ l == 0.
Proof.
  induction 1 as [ | x l Hx _ IH ]; simpl; [ reflexivity | ].
  rewrite Hx, IH. ring.
Qed.

(** With a total weight that is not zero, FREQUENCY gives the
    velocity-weighted mean of the pitches, rounded. *)
Lemma resolvePitch_weighted (c0 c1 : NoteCandidate) (cs : list NoteCandidate) :
  ~ sumQ (map c_velocity (c0 :: c1 :: cs)) == 0 ->
  resolvePitch c0 (c1 :: cs) FREQUENCY =
    Fin (round_half_up (weighted_mean (c0 :: c1 :: cs))).
Proof.
  intro H. unfold resolvePitch.
  set (w := fold_left (fun sum c => sum + c_velocity c) (c0 :: c1 :: cs) 0).
  set (ws := fold_left (fun sum c => sum + inject_Z (c_midi c) * c_velocity c) (c0 :: c1 :: cs) 0).
  assert (Ew : w == sumQ (map c_velocity (c0 :: c1 :: cs))).
  { unfold w. rewrite fold_left_sum. ring. }
  assert (Es : ws == sumQ (map (fun c => inject_Z (c_midi c) * c_velocity c) (c0 :: c1 :: cs))).
  { unfold ws. rewrite (fold_left_sum (fun c => inject_Z (c_midi c) * c_velocity c)). ring. }
  rewrite divide_finite by (rewrite Ew; exact H).
  simpl Math_round. f_equal. apply round_half_up_comp.
  unfold weighted_mean. now rewrite Ew, Es.
Qed.

(** That is the case of velocities that are not negative, one of them
    positive. *)
Lemma resolvePitch_weighted_mean (c0 c1 : NoteCandidate) (cs : list NoteCandidate) :
  Forall (fun c => 0 <= c_velocity c) (c0 :: c1 :: cs) ->
  Exists (fun c => 0 < c_velocity c) (c0 :: c1 :: cs) ->
  resolvePitch c0 (c1 :: cs) FREQUENCY =
    Fin (round_half_up (weighted_mean (c0 :: c1 :: cs))).
Proof.
  intros F E. apply resolvePitch_weighted.
  assert (P : 0 < sumQ (map c_velocity (c0 :: c1 :: cs))).
  { apply sumQ_pos.
    - apply Forall_map. exact F.
    - apply Exists_map. exact E. }
  intro Z. rewrite Z in P. discriminate P.
Qed.

(** With velocities that are all zero, FREQUENCY divides 0 by 0. *)
Lemma resolvePitch_all_zero (c0 c1 : NoteCandidate) (cs : list NoteCandidate) :
  Forall (fun c => c_velocity c == 0) (c0 :: c1 :: cs) ->
  resolvePitch c0 (c1 :: cs) FREQUENCY = NaN.
Proof.
  intro F. unfold resolvePitch.
  set (w := fold_left (fun sum c => sum + c_velocity c) (c0 :: c1 :: cs) 0).
  set (ws := fold_left (fun sum c => sum + inject_Z (c_midi c) * c_velocity c) (c0 :: c1 :: cs) 0).
  assert (Ew : w == 0).
  { unfold w. rewrite fold_left_sum, sumQ_zero; [ ring | ].
    apply Forall_map. exact F. }
  assert (Es : ws == 0).
  { unfold ws. rewrite (fold_left_sum (fun c => inject_Z (c_midi c) * c_velocity c)).
    rewrite sumQ_zero; [ ring | ].
    apply Forall_map. apply Forall_impl with (2 := F).
    intros c Hc. rewrite Hc. ring. }
  unfold divide.
  rewrite (proj2 (Qeq_bool_iff w 0) Ew).
  assert (L1 : Qltb 0 ws = false) by (apply Qltb_ge; rewrite Es; apply Qle_refl).
  assert (L2 : Qltb ws 0 = false) by (apply Qltb_ge; rewrite Es; apply Qle_refl).
  rewrite L1, L2. reflexivity.
Qed.

(** C2 at two candidates of pitches 60 and 64 and velocity 0: the code
    divides 0 by 0 and returns NaN, where the unweighted mean of the
    pitches, rounded, is 62.  The timeline built with FREQUENCY from two
    such notes holds NaN in its slots. *)
Theorem resolvePitch_zero_velocities :
  resolvePitch (mkCandidate 60 0 0) [mkCandidate 64 0 0] FREQUENCY = NaN /\
  round_half_up (arithmetic_mean muted_candidates) = 62%Z /\
  buildExpectedPitchArray muted_chord {| resolution := Some 1; strategy := Some FREQUENCY |}
    = Returned {| start := 0; step := 1; pitches := [note NaN] |}.
Proof.
  repeat split; reflexivity.
Qed.

(** ** Run-length encoding *)

Lemma strict_eq_sound (a b : ext Z) : strict_eq a b = true -> a = b.
Proof.
  destruct a, b; simpl; try discriminate; try reflexivity.
  intro H. apply Z.eqb_eq in H. now subst.
Qed.

Lemma slot_strict_eq_sound (a b : slot) : slot_strict_eq a b = true -> a = b.
Proof.
  destruct a, b; simpl; try discriminate; try reflexivity.
  intro H. now rewrite (strict_eq_sound _ _ H).
Qed.

Lemma expand_snoc (rs : list Run) (v : slot) (k : nat) :
  expand (rs ++ [mkRun v k]) = expand rs ++ repeat v k.
Proof.
  unfold expand. rewrite flat_map_app. simpl. now rewrite app_nil_r.
Qed.

(** The loop invariant: the runs pushed so far, then the open run, then
    the pitches still to read, spell the array. *)
Lemma compress_loop (rest : list slot) :
  forall (acc : list Run) (cur : slot) (cnt : nat),
    let '(c, v, k) := fold_left compress_step rest (acc, cur, cnt) in
    expand (c ++ [mkRun v k]) = expand (acc ++ [mkRun cur cnt]) ++ rest.
Proof.
  induction rest as [ | p rest IH ]; intros acc cur cnt.
  - simpl. now rewrite app_nil_r.
  - simpl fold_left.
    destruct (slot_strict_eq p cur) eqn:E.
    + apply slot_strict_eq_sound in E. subst p.
      specialize (IH acc cur (S cnt)).
      destruct (fold_left compress_step rest (acc, cur, S cnt)) as [[c v] k].
      rewrite IH, !expand_snoc, <- !app_assoc. f_equal.
      change (cur :: rest) with ([cur] ++ rest).
      rewrite app_assoc, <- repeat_cons. reflexivity.
    + specialize (IH (acc ++ [mkRun cur cnt]) p 1%nat).
      destruct (fold_left compress_step rest (acc ++ [mkRun cur cnt], p, 1%nat)) as [[c v] k].
      rewrite IH. rewrite (expand_snoc (acc ++ _)). simpl.
      now rewrite <- app_assoc.
Qed.

(** C6: decompressing the run-length encoding of an expected pitch array
    gives back the array: the same pitches, element for element (the
    empty sequence included), and the same start and step. *)
Theorem decompress_compress (expected : ExpectedPitchArray) :
  decompressPitchArray (compressPitchArray expected) = expected.
Proof.
  destruct expected as [s st ps].
  unfold decompressPitchArray, compressPitchArray. simpl.
  f_equal.
  destruct ps as [ | p0 rest ]; [ reflexivity | ].
  pose proof (compress_loop rest [] p0 1) as H.
  destruct (fold_left compress_step rest ([], p0, 1%nat)) as [[c v] k].
  fold (expand (c ++ [mkRun v k])). rewrite H. reflexivity.
Qed.

(** Every run of the encoding is at least one pitch long. *)
Lemma compress_loop_counts (rest : list slot) :
  forall (acc : list Run) (cur : slot) (cnt : nat),
    Forall (fun r => 1 <= count r)%nat acc -> (1 <= cnt)%nat ->
    let '(c, v, k) := fold_left compress_step rest (acc, cur, cnt) in
    Forall (fun r => 1 <= count r)%nat (c ++ [mkRun v k]).
Proof.
  induction rest as [ | p rest IH ]; intros acc cur cnt Hacc Hcnt.
  - simpl. apply Forall_app. split; [ assumption | ]. now constructor.
  - simpl fold_left.
    destruct (slot_strict_eq p cur).
    + apply IH; [ assumption | lia ].
    + apply IH; [ | lia ].
      apply Forall_app. split; [ assumption | ]. now constructor.
Qed.

(** ** Classification of a frame *)

Lemma spread_as_partial (base c : ScoringConfig) : spread base (as_partial c) = c.
Proof.
  destruct c. reflexivity.
Qed.




(** ** The time of a frame *)

(** C10: the frame that [addFrame] produces and appends to the history
    has for time the detection's timestamp, and 0 when there is no
    detection; the current time enters the frame through the lookup of the
    expected pitch only, so the frame's time is the current time only where
    the timestamp (or 0) is.  A frame added without a detection lies at
    time 0 in the history: [resetFrom] keeps it exactly when its cutoff is
    above 0. *)
Theorem addFrame_time (this : ScoreTracker) (detected : option DetectedPitch)
    (expected : ExpectedPitchArray) (currentTime : Q) :
  let frame := fst (addFrame detected expected currentTime this) in
  let after := snd (addFrame detected expected currentTime this) in
  let silent := addFrame None expected currentTime this in
  f_time frame = match detected with Some d => timestamp d | None => 0 end /\
  frames after = frames this ++ [frame] /\
  config after = config this /\
  frame = evaluateFrame detected (getExpectedMidiAt currentTime expected)
            (as_partial (config this)) /\
  (f_time frame == currentTime <->
   match detected with Some d => timestamp d | None => 0 end == currentTime) /\
  f_time (fst silent) = 0 /\
  (forall t, frames (resetFrom t (snd silent)) =
             frames (resetFrom t this) ++ (if Qltb 0 t then [fst silent] else [])).
Proof.
  intros frame after silent.
  assert (T : forall d e c, f_time (evaluateFrame d e c)
                            = match d with Some x => timestamp x | None => 0 end).
  { intros d e c. unfold evaluateFrame.
    destruct e as [[ | p] | ]; destruct d as [d | ]; try reflexivity;
      destruct (d_midi d); try reflexivity;
      destruct (Qltb _ _); reflexivity. }
  subst frame after silent. unfold addFrame. simpl fst. simpl snd.
  repeat split; try apply T.
  - rewrite T. tauto.
  - rewrite T. tauto.
  - intro t. simpl. rewrite filter_app. simpl. rewrite T. reflexivity.
Qed.

(** ** Score statistics *)

Lemma count_match_fold (m : Match) (fs : list ScoreFrame) :
  forall n,
    fold_left (fun n f => if match_eqb (f_match f) m then S n else n) fs n
    = (n + count_of m fs)%nat.
Proof.
  unfold count_of.
  induction fs as [ | f fs IH ]; intro n; simpl.
  - lia.
  - rewrite IH. destruct (match_eqb (f_match f) m); simpl; lia.
Qed.

Lemma count_match_count_of (m : Match) (fs : list ScoreFrame) :
  count_match m fs = count_of m fs.
Proof.
  unfold count_match. now rewrite count_match_fold.
Qed.

Lemma count_of_app (m : Match) (fs gs : list ScoreFrame) :
  count_of m (fs ++ gs) = (count_of m fs + count_of m gs)%nat.
Proof.
  unfold count_of. now rewrite filter_app, length_app.
Qed.

Lemma match_eqb_eq (a b : Match) : match_eqb a b = true <-> a = b.
Proof.
  destruct a, b; simpl; split; congruence.
Qed.

Lemma count_of_zero (m : Match) (fs : list ScoreFrame) :
  Forall (fun f => f_match f <> m) fs -> count_of m fs = 0%nat.
Proof.
  unfold count_of.
  induction 1 as [ | f fs Hf _ IH ]; simpl; [ reflexivity | ].
  destruct (match_eqb (f_match f) m) eqn:E; [ | exact IH ].
  apply match_eqb_eq in E. contradiction.
Qed.

Lemma count_of_scored (fs : list ScoreFrame) :
  Exists (fun f => f_match f <> NO_DATA) fs ->
  (0 < count_of PERFECT fs + count_of ACCEPTABLE fs + count_of MISS fs)%nat.
Proof.
  unfold count_of.
  induction 1 as [ f fs Hf | f fs _ IH ]; simpl.
  - destruct (f_match f); simpl; try lia. congruence.
  - destruct (f_match f); simpl; lia.
Qed.

Lemma of_nat_nonneg (n : nat) : 0 <= of_nat n.
Proof.
  unfold of_nat. change 0 with (inject_Z 0). rewrite <- Zle_Qle. lia.
Qed.

Lemma of_nat_pos (n : nat) : (0 < n)%nat -> 0 < of_nat n.
Proof.
  intro H. unfold of_nat. change 0 with (inject_Z 0). rewrite <- Zlt_Qlt. lia.
Qed.

Lemma of_nat_le (n k : nat) : (n <= k)%nat -> of_nat n <= of_nat k.
Proof.
  intro H. unfold of_nat. rewrite <- Zle_Qle. lia.
Qed.

Lemma score_unfold (this : ScoreTracker) :
  let hits := (count_of PERFECT (frames this) + count_of ACCEPTABLE (frames this))%nat in
  let scored := (hits + count_of MISS (frames this))%nat in
  score (getStats this) =
    round2 (if (0 <? scored)%nat then of_nat hits / of_nat scored * 100 else 0).
Proof.
  unfold getStats. cbn [score]. rewrite !count_match_count_of. reflexivity.
Qed.

(** ** Seeking *)

Section Seek.

Variable t : Q.

Lemma filter_none {A : Type} (p : A -> bool) (l : list A) :
  Forall (fun x => p x = false) l ->
  filter p l = [] /\ filter (fun x => negb (p x)) l = l.
Proof.
  induction 1 as [ | x l Hx _ [IH1 IH2] ]; simpl; [ now split | ].
  rewrite Hx. simpl. rewrite IH1, IH2. now split.
Qed.

Lemma filter_split_perm {A : Type} (p : A -> bool) (l : list A) :
  Permutation (filter p l ++ filter (fun x => negb (p x)) l) l.
Proof.
  induction l as [ | x l IH ]; simpl; [ constructor | ].
  destruct (p x); simpl.
  - now constructor.
  - rewrite <- Permutation_middle. now constructor.
Qed.

Lemma count_of_split (m : Match) (p : ScoreFrame -> bool) (l : list ScoreFrame) :
  (count_of m (filter p l) + count_of m (filter (fun x => negb (p x)) l))%nat = count_of m l.
Proof.
  unfold count_of.
  induction l as [ | x l IH ]; simpl; [ reflexivity | ].
  destruct (p x); simpl; destruct (match_eqb (f_match x) m); simpl; lia.
Qed.

(** In a history in the order of its times, the frames before the cutoff
    come first. *)
Lemma time_ordered_split (fs : list ScoreFrame) :
  time_ordered fs ->
  filter (fun f => Qltb (f_time f) t) fs ++ filter (fun f => negb (Qltb (f_time f) t)) fs = fs.
Proof.
  intro S. apply Sorted_StronglySorted in S.
  2:{ intros a b c. apply Qle_trans. }
  induction S as [ | f fs S IH F ]; [ reflexivity | ].
  simpl. destruct (Qltb (f_time f) t) eqn:B; simpl.
  - now rewrite IH.
  - assert (N : Forall (fun g => Qltb (f_time g) t = false) fs).
    { apply Forall_impl with (2 := F). intros g L.
      apply Qltb_ge in B. apply Qltb_ge.
      now apply Qle_trans with (f_time f). }
    destruct (filter_none (fun g => Qltb (f_time g) t) fs N) as [E1 E2].
    rewrite E1, E2. reflexivity.
Qed.

Lemma play_frames (calls : list Call) :
  forall this,
    frames (play calls this) = frames this ++ map (frame_of (config this)) calls /\
    config (play calls this) = config this.
Proof.
  induction calls as [ | c calls IH ]; intro this.
  - simpl. now rewrite app_nil_r.
  - change (play (c :: calls) this)
      with (play calls
              (snd (addFrame (call_detected c) (call_expected c) (call_currentTime c) this))).
    destruct (IH (snd (addFrame (call_detected c) (call_expected c) (call_currentTime c) this)))
      as [E1 E2].
    rewrite E1, E2. unfold addFrame. cbn [snd frames config].
    rewrite <- app_assoc. split; reflexivity.
Qed.

End Seek.

Lemma frame_of_time (config : ScoringConfig) (c : Call) :
  f_time (frame_of config c) =
    match call_detected c with Some d => timestamp d | None => 0 end.
Proof.
  unfold frame_of, addFrame. cbn [fst]. unfold evaluateFrame.
  destruct (getExpectedMidiAt _ _) as [[ | p] | ]; destruct (call_detected c) as [d | ];
    try reflexivity; destruct (d_midi d); try reflexivity; destruct (Qltb _ _); reflexivity.
Qed.

(** C8: [resetFrom(t)] keeps, in their order, the frames whose time is
    before [t] and drops the others, so that no frame at a time at or after
    [t] is left.  When the frames at times at or after [t] are then added
    again, the history holds the frames it held before the reset: the same
    count for each classification and the same score, and, when the history
    was in the order of its times, the same frames in the same places.
    Added again by the calls of [addFrame] that had made them, from the
    same inputs, the frames are the same; these calls are the calls at
    current times at or after [t] when each detection carries the current
    time of its call. *)
Theorem resetFrom_seek (this : ScoreTracker) (t : Q) :
  let dropped := filter (fun f => negb (Qltb (f_time f) t)) (frames this) in
  frames (resetFrom t this) = filter (fun f => Qltb (f_time f) t) (frames this) /\
  config (resetFrom t this) = config this /\
  (forall f, In f (frames (resetFrom t this)) <-> In f (frames this) /\ f_time f < t) /\
  (forall f, In f (frames this) -> t <= f_time f -> ~ In f (frames (resetFrom t this))) /\
  Permutation (frames (resetFrom t this) ++ dropped) (frames this) /\
  (time_ordered (frames this) -> frames (resetFrom t this) ++ dropped = frames this) /\
  (forall (config_ : PartialScoringConfig) (calls : list Call),
     let played := play calls (new_ScoreTracker config_) in
     let again := filter (at_or_after t (config played)) calls in
     let replayed := play again (resetFrom t played) in
     Permutation (frames replayed) (frames played) /\
     (forall m, count_of m (frames replayed) = count_of m (frames played)) /\
     score (getStats replayed) = score (getStats played) /\
     (time_ordered (frames played) -> replayed = played) /\
     (Forall stamped calls ->
      again = filter (fun c => negb (Qltb (call_currentTime c) t)) calls)).
Proof.
  intro dropped.
  split; [ reflexivity | split; [ reflexivity | ] ].
  assert (I : forall f, In f (frames (resetFrom t this)) <-> In f (frames this) /\ f_time f < t).
  { intro f. unfold resetFrom. cbn [frames]. rewrite filter_In, Qltb_lt. tauto. }
  split; [ exact I | split ].
  { intros f _ L X. apply I in X. destruct X as [_ X]. exact (Qlt_not_le _ _ X L). }
  split; [ apply filter_split_perm | ].
  split; [ apply time_ordered_split | ].
  intros config_ calls played again replayed.
  destruct (play_frames calls (new_ScoreTracker config_)) as [Fp Cp].
  fold played in Fp, Cp. simpl in Fp.
  destruct (play_frames again (resetFrom t played)) as [Fr Cr].
  fold replayed in Fr, Cr. cbn [resetFrom frames config] in Fr, Cr.
  assert (E : frames replayed =
              filter (fun f => Qltb (f_time f) t) (frames played)
              ++ filter (fun f => negb (Qltb (f_time f) t)) (frames played)).
  { rewrite Fr. f_equal. subst again. rewrite Fp, Cp.
    rewrite filter_map_swap. reflexivity. }
  assert (C : forall m, count_of m (frames replayed) = count_of m (frames played)).
  { intro m. rewrite E, count_of_app. apply count_of_split. }
  split; [ rewrite E; apply filter_split_perm | ].
  split; [ exact C | ].
  split; [ rewrite !score_unfold, !C; reflexivity | ].
  split.
  - intro S. apply (time_ordered_split t) in S.
    destruct replayed as [fr cr], played as [fp cp]. simpl in *.
    rewrite E, S, Cr. reflexivity.
  - intro St. subst again. apply filter_ext_in.
    intros c Ic. rewrite Forall_forall in St. destruct (St c Ic) as [d [Ed Et]].
    unfold at_or_after. rewrite frame_of_time, Ed, Et. reflexivity.
Qed.

Lemma resetFrom_seek_witness :
  time_ordered (frames (play two_calls (new_ScoreTracker no_config))) /\
  (let played := play two_calls (new_ScoreTracker no_config) in
   play (filter (at_or_after 2 (config played)) two_calls) (resetFrom 2 played) = played).
Proof.
  assert (S : time_ordered (frames (play two_calls (new_ScoreTracker no_config)))).
  { repeat constructor; vm_compute; discriminate. }
  split; [ exact S | ].
  destruct (resetFrom_seek (new_ScoreTracker no_config) 2) as [_ [_ [_ [_ [_ [_ R]]]]]].
  destruct (R no_config two_calls) as [_ [_ [_ [R' _]]]].
  exact (R' S).
Defined.

(** ** Import *)

(** C9, as the code has it: [import] does not validate its argument and
    signals no MalformedScoreData condition.  It replaces the frame history
    by the frames given, and the configuration by the defaults overlaid
    with the configuration given, when one is given; the configuration
    stays as it was when none is given.  What [export] produced is
    imported whole: the frames and the configuration exported replace those
    of the importing tracker. *)
Theorem import_replaces (data : ImportData) (this : ScoreTracker) :
  ~ signals "MalformedScoreData" (import data this) /\
  (forall fs c, import {| data_frames := Some fs; data_config := Some c |} this =
     Returned {| i_frames := Some fs; i_config := spread DEFAULT_SCORING_CONFIG c |}) /\
  (forall fs, import {| data_frames := Some fs; data_config := None |} this =
     Returned {| i_frames := Some fs; i_config := config this |}) /\
  (forall saved, import (as_import (export saved)) this = Returned (fields_of saved)).
Proof.
  split; [ apply signals_Returned | ].
  split; [ reflexivity | ].
  split; [ reflexivity | ].
  intro saved. unfold import, as_import, export, fields_of. simpl.
  now rewrite spread_as_partial.
Qed.

(** C9 as it is stated fails: an argument with no [frames] is imported
    without a condition being signalled, and the tracker does not stay as
    it was: its frame history is lost ([this.frames] is [undefined]) and
    its configuration is replaced. *)
Lemma import_accepts_missing_frames :
  import data_without_frames one_frame_tracker =
    Returned {| i_frames := None;
                i_config := {| perfectThreshold := 2;
                               acceptableThreshold := 1;
                               clarityThreshold := 85 # 100 |} |} /\
  ~ signals "MalformedScoreData" (import data_without_frames one_frame_tracker) /\
  import data_without_frames one_frame_tracker <> Returned (fields_of one_frame_tracker).
Proof.
  split; [ reflexivity | ].
  split; [ apply signals_Returned | discriminate ].
Qed.

(** * Further properties of the code *)

(** ** The candidate that FIRST and VELOCITY choose *)

Section Selection.

Variables (A : Type) (key : A -> Q) (better : A -> A -> bool).

Hypothesis better_spec : forall b c, better b c = true <-> key b < key c.

(** A reduction that replaces the best element so far by a strictly
    better one ends on the first of the best elements. *)
Lemma reduce_first_best (cs : list A) :
  forall (pre : list A) (b : A) (mid : list A),
    Forall (fun c => key c < key b) pre ->
    Forall (fun c => key c <= key b) mid ->
    exists pre' post',
      pre ++ b :: mid ++ cs
      = pre' ++ fold_left (fun best cur => if better best cur then cur else best) cs b :: post' /\
      Forall
        (fun c =>
           key c < key (fold_left (fun best cur => if better best cur then cur else best) cs b))
        pre' /\
      Forall
        (fun c =>
           key c <= key (fold_left (fun best cur => if better best cur then cur else best) cs b))
        post'.
Proof.
  induction cs as [ | c cs IH ]; intros pre b mid Hpre Hmid.
  - exists pre, mid. rewrite app_nil_r. now repeat split.
  - cbn [fold_left]. destruct (better b c) eqn:E.
    + apply better_spec in E.
      destruct (IH (pre ++ b :: mid) c []) as [pre' [post' [E1 [E2 E3]]]].
      * apply Forall_app. split; [ | constructor ].
        -- apply Forall_impl with (2 := Hpre). intros a Ha.
           now apply Qlt_trans with (key b).
        -- exact E.
        -- apply Forall_impl with (2 := Hmid). intros a Ha.
           now apply Qle_lt_trans with (key b).
      * constructor.
      * exists pre', post'. split; [ | now split ].
        rewrite <- E1. rewrite <- app_assoc. reflexivity.
    + assert (L : key c <= key b).
      { apply Qnot_lt_le. intro X. apply better_spec in X. congruence. }
      destruct (IH pre b (mid ++ [c])) as [pre' [post' [E1 [E2 E3]]]].
      * exact Hpre.
      * apply Forall_app. split; [ exact Hmid | now constructor ].
      * exists pre', post'. split; [ | now split ].
        rewrite <- E1. rewrite <- app_assoc. reflexivity.
Qed.

End Selection.

Lemma resolvePitch_single (c0 : NoteCandidate) (strategy : PolyphonyStrategy) :
  resolvePitch c0 [] strategy = Fin (c_midi c0).
Proof.
  reflexivity.
Qed.

(** X1: VELOCITY gives the pitch of the first of the loudest candidates:
    every candidate before it is strictly softer, none after it is
    louder. *)
Theorem resolvePitch_velocity (c0 : NoteCandidate) (cs : list NoteCandidate) :
  exists pre r post,
    c0 :: cs = pre ++ r :: post /\
    resolvePitch c0 cs VELOCITY = Fin (c_midi r) /\
    Forall (fun c => c_velocity c < c_velocity r) pre /\
    Forall (fun c => c_velocity c <= c_velocity r) post.
Proof.
  destruct cs as [ | c1 cs ].
  - exists [], c0, []. repeat split; constructor.
  - destruct (reduce_first_best NoteCandidate c_velocity
                (fun b c => Qltb (c_velocity b) (c_velocity c))
                (fun b c => Qltb_lt (c_velocity b) (c_velocity c))
                (c1 :: cs) [] c0 [] (Forall_nil _) (Forall_nil _))
      as [pre [post [E [P1 P2]]]].
    eexists pre, _, post. split; [ exact E | ].
    split; [ reflexivity | now split ].
Qed.

(** X2: FIRST gives the pitch of the first of the candidates that start
    earliest: every candidate before it starts strictly later, none after
    it starts earlier. *)
Theorem resolvePitch_first (c0 : NoteCandidate) (cs : list NoteCandidate) :
  exists pre r post,
    c0 :: cs = pre ++ r :: post /\
    resolvePitch c0 cs FIRST = Fin (c_midi r) /\
    Forall (fun c => c_time r < c_time c) pre /\
    Forall (fun c => c_time r <= c_time c) post.
Proof.
  destruct cs as [ | c1 cs ].
  - exists [], c0, []. repeat split; constructor.
  - destruct (reduce_first_best NoteCandidate (fun c => - c_time c)
                (fun b c => Qltb (c_time c) (c_time b))) with
      (cs := c1 :: cs) (pre := @nil NoteCandidate) (b := c0) (mid := @nil NoteCandidate)
      as [pre [post [E [P1 P2]]]].
    + intros b c. rewrite Qltb_lt. split; intro H; lra.
    + constructor.
    + constructor.
    + eexists pre, _, post. split; [ exact E | ].
      split; [ reflexivity | ].
      split.
      * apply Forall_impl with (2 := P1). intros a Ha. lra.
      * apply Forall_impl with (2 := P2). intros a Ha. lra.
Qed.

(** ** The pitch that FREQUENCY computes *)

Lemma Qfloor_bounds (x : Q) (z : Z) :
  inject_Z z <= x -> x < inject_Z (z + 1) -> Qfloor x = z.
Proof.
  intros L U.
  assert (A : (z <= Qfloor x)%Z).
  { rewrite <- (Qfloor_Z z). now apply Qfloor_resp_le. }
  assert (B : (Qfloor x < z + 1)%Z).
  { rewrite Zlt_Qlt. apply Qle_lt_trans with (2 := U). apply Qfloor_le. }
  lia.
Qed.

Lemma round_half_up_between (x : Q) (lo hi : Z) :
  inject_Z lo <= x <= inject_Z hi -> (lo <= round_half_up x <= hi)%Z.
Proof.
  intros [L U]. unfold round_half_up. split.
  - rewrite <- (Qfloor_Z lo). apply Qfloor_resp_le. lra.
  - assert (E : Qfloor (inject_Z hi + (1 # 2)) = hi).
    { apply Qfloor_bounds; rewrite ?inject_Z_plus; change (inject_Z 1) with 1; lra. }
    rewrite <- E. apply Qfloor_resp_le. lra.
Qed.

Lemma weighted_sum_between (lo hi : Z) (cs : list NoteCandidate) :
  Forall (fun c => 0 <= c_velocity c) cs ->
  Forall (fun c => lo <= c_midi c <= hi)%Z cs ->
  inject_Z lo * sumQ (map c_velocity cs)
  <= sumQ (map (fun c => inject_Z (c_midi c) * c_velocity c) cs)
  <= inject_Z hi * sumQ (map c_velocity cs).
Proof.
  intros V. induction V as [ | c cs Hc _ IH ]; intro M; simpl.
  - split; rewrite Qmult_0_r; apply Qle_refl.
  - inversion M as [ | ? ? [Ml Mh] M' ]; subst.
    destruct (IH M') as [A B].
    rewrite Zle_Qle in Ml, Mh.
    pose proof (Qmult_le_compat_r _ _ _ Ml Hc) as L.
    pose proof (Qmult_le_compat_r _ _ _ Mh Hc) as U.
    split; lra.
Qed.

(** X3: with velocities that are not negative, one of them positive, the
    pitch that FREQUENCY gives for two or more candidates is an integer
    between the lowest and the highest of their pitches. *)
Theorem resolvePitch_frequency_between (c0 c1 : NoteCandidate) (cs : list NoteCandidate)
    (lo hi : Z) :
  Forall (fun c => 0 <= c_velocity c) (c0 :: c1 :: cs) ->
  Exists (fun c => 0 < c_velocity c) (c0 :: c1 :: cs) ->
  Forall (fun c => lo <= c_midi c <= hi)%Z (c0 :: c1 :: cs) ->
  exists p, resolvePitch c0 (c1 :: cs) FREQUENCY = Fin p /\ (lo <= p <= hi)%Z.
Proof.
  intros V E M.
  exists (round_half_up (weighted_mean (c0 :: c1 :: cs))).
  split; [ now apply resolvePitch_weighted_mean | ].
  apply round_half_up_between.
  assert (P : 0 < sumQ (map c_velocity (c0 :: c1 :: cs))).
  { apply sumQ_pos; [ now apply Forall_map | now apply Exists_map ]. }
  destruct (weighted_sum_between lo hi _ V M) as [A B].
  unfold weighted_mean. split.
  - apply Qle_shift_div_l; [ exact P | exact A ].
  - apply Qle_shift_div_r; [ exact P | exact B ].
Qed.

Lemma resolvePitch_frequency_between_witness :
  exists p,
    resolvePitch (mkCandidate 60 (1 # 2) 0) [mkCandidate 64 (9 # 10) (1 # 2)] FREQUENCY = Fin p /\
    (60 <= p <= 64)%Z.
Proof.
  apply (resolvePitch_frequency_between (mkCandidate 60 (1 # 2) 0)
           (mkCandidate 64 (9 # 10) (1 # 2)) [] 60 64).
  - repeat constructor; vm_compute; discriminate.
  - left. reflexivity.
  - repeat constructor; vm_compute; discriminate.
Defined.

(** ** The slots of the timeline *)

Lemma Math_min_list_In (xs : list Q) : forall x, In (Math_min_list x xs) (x :: xs).
Proof.
  unfold Math_min_list.
  induction xs as [ | y xs IH ]; intro x; [ now left | ].
  cbn [fold_left].
  destruct (IH (Qmin x y)) as [E | I].
  - rewrite <- E. unfold Qmin, GenericMinMax.gmin.
    destruct (x ?= y); [ now left | now left | right; now left ].
  - right. now right.
Qed.

Lemma timeline_start_In (notes : list NoteEvent) :
  notes <> [] -> In (timeline_start notes) (map time notes).
Proof.
  destruct notes as [ | n0 rest ]; [ congruence | intros _ ].
  apply (Math_min_list_In (map time rest) (time n0)).
Qed.

(** ** The lookup of a range *)

Lemma skipn_nth_error {A : Type} (l : list A) :
  forall a x, nth_error l a = Some x -> skipn a l = x :: skipn (S a) l.
Proof.
  induction l as [ | y l IH ]; intros [ | a ] x H; try discriminate H.
  - injection H as ->. reflexivity.
  - cbn [nth_error] in H. change (skipn (S a) (y :: l)) with (skipn a l).
    rewrite (IH a x H). reflexivity.
Qed.

Lemma map_nth_error_seq {A : Type} (l : list A) (n : nat) :
  forall a, (a + n <= length l)%nat ->
    map (fun k => nth_error l (a + k)) (seq 0 n) = map Some (firstn n (skipn a l)).
Proof.
  induction n as [ | n IH ]; intros a L; [ reflexivity | ].
  cbn [seq map]. rewrite <- seq_shift, map_map.
  destruct (nth_error l a) as [x | ] eqn:N.
  2:{ apply nth_error_None in N. lia. }
  rewrite (skipn_nth_error l a x N). cbn [firstn map].
  rewrite Nat.add_0_r, N. f_equal.
  rewrite <- (IH (S a)) by lia.
  apply List.map_ext. intro k. f_equal. lia.
Qed.

(** With a step that is not zero the loop of the range lookup runs from
    [max(0, floor((startTime - start) / step))] to
    [min(length, ceil((endTime - start) / step))]. *)
Lemma range_unfold (startTime endTime : Q) (expected : ExpectedPitchArray) :
  ~ step expected == 0 ->
  let lo := Z.max 0 (Qfloor ((startTime - start expected) / step expected)) in
  let hi := Z.min (Z.of_nat (length (pitches expected)))
                  (Qceiling ((endTime - start expected) / step expected)) in
  getExpectedMidiRange startTime endTime expected =
    Returned (map Some (firstn (Z.to_nat (hi - lo)) (skipn (Z.to_nat lo) (pitches expected)))).
Proof.
  intros R lo hi. unfold getExpectedMidiRange.
  rewrite !divide_finite by exact R.
  cbn [Math_floor Math_ceil map_ext Math_max0 Math_min for_range].
  fold lo hi. f_equal.
  destruct (Z_le_gt_dec hi lo) as [C | C].
  - replace (Z.to_nat (hi - lo)) with 0%nat by lia. reflexivity.
  - assert (L0 : (0 <= lo)%Z) by (unfold lo; lia).
    assert (H1 : (hi <= Z.of_nat (length (pitches expected)))%Z) by (unfold hi; lia).
    rewrite <- map_nth_error_seq by lia.
    rewrite map_map. apply List.map_ext. intro k. f_equal. lia.
Qed.

(** X9: on an array with a positive step, the range lookup over the
    whole extent of the array, from [start] to [start + length * step],
    returns every element of the array. *)
Theorem range_whole (expected : ExpectedPitchArray) :
  0 < step expected ->
  getExpectedMidiRange (start expected)
    (start expected + of_nat (length (pitches expected)) * step expected) expected
  = Returned (map Some (pitches expected)).
Proof.
  intro R.
  assert (R0 : ~ step expected == 0) by (intro X; rewrite X in R; discriminate R).
  rewrite range_unfold by exact R0. cbv zeta.
  assert (A : Qfloor ((start expected - start expected) / step expected) = 0%Z).
  { apply (index_at_start expected R0). }
  assert (B : Qceiling ((start expected + of_nat (length (pitches expected)) * step expected
                         - start expected) / step expected)
              = Z.of_nat (length (pitches expected))).
  { rewrite <- (Qceiling_Z (Z.of_nat (length (pitches expected)))).
    apply Qceiling_comp. unfold of_nat. now field. }
  rewrite A, B.
  replace (Z.max 0 0) with 0%Z by lia.
  rewrite Z.min_id, Z.sub_0_r, Nat2Z.id. cbn [Z.to_nat skipn].
  now rewrite firstn_all.
Qed.

Lemma range_whole_witness :
  getExpectedMidiRange 0 (0 + of_nat 1 * 1) timeline_60 = Returned [Some (note (Fin 60%Z))].
Proof.
  apply (range_whole timeline_60). reflexivity.
Defined.

Lemma Math_max0_cases (x : ext Z) :
  (exists l, Math_max0 x = Fin l /\ (0 <= l)%Z) \/ Math_max0 x = PInf \/ Math_max0 x = NaN.
Proof.
  destruct x as [z | | | ]; cbn; [ left | right; now left | left | right; now right ].
  - exists (Z.max 0 z). split; [ reflexivity | lia ].
  - exists 0%Z. split; [ reflexivity | lia ].
Qed.

Lemma Math_min_cases (len : Z) (y : ext Z) :
  (exists h, Math_min (Fin len) y = Fin h /\ (h <= len)%Z)
  \/ Math_min (Fin len) y = NInf \/ Math_min (Fin len) y = NaN.
Proof.
  destruct y as [z | | | ]; cbn; [ left | left | right; now left | right; now right ].
  - exists (Z.min len z). split; [ reflexivity | lia ].
  - exists len. split; [ reflexivity | lia ].
Qed.

(** X10: whatever the window and the array, its step zero or negative
    included, the range lookup ends, returns at most as many elements as
    the array has, and each of them is an element of the array: it never
    reads outside the array. *)
Theorem range_inside (startTime endTime : Q) (expected : ExpectedPitchArray) :
  exists r,
    getExpectedMidiRange startTime endTime expected = Returned r /\
    (length r <= length (pitches expected))%nat /\
    Forall (fun x => exists c, x = Some c /\ In c (pitches expected)) r.
Proof.
  unfold getExpectedMidiRange.
  destruct (Math_max0_cases
              (Math_floor (divide (startTime - start expected) (step expected))))
    as [[l [-> L]] | [-> | ->]];
    destruct (Math_min_cases (Z.of_nat (length (pitches expected)))
                (Math_ceil (divide (endTime - start expected) (step expected))))
    as [[h [-> H]] | [-> | ->]];
    cbn [for_range];
    try (exists []; repeat split; [ cbn; lia | constructor ]).
  eexists. split; [ reflexivity | ].
  split.
  - rewrite !length_map, length_seq. lia.
  - apply Forall_forall. intros x Hx.
    apply in_map_iff in Hx. destruct Hx as [i [<- Hi]].
    apply in_map_iff in Hi. destruct Hi as [k [<- Hk]].
    apply in_seq in Hk.
    destruct (nth_error (pitches expected) (Z.to_nat (l + Z.of_nat k))) as [c | ] eqn:N.
    + exists c. split; [ reflexivity | exact (nth_error_In _ _ N) ].
    + apply nth_error_None in N. lia.
Qed.

(** ** The runs of the encoding *)

Lemma canonical_snoc (l : list Run) (r new : Run) :
  canonical (l ++ [r]) ->
  (1 <= count new)%nat ->
  (slot_strict_eq (value new) (value new) = false -> count new = 1%nat) ->
  slot_strict_eq (value new) (value r) = false ->
  canonical (l ++ [r; new]).
Proof.
  intros C N1 N2 N3. induction l as [ | a l IH ].
  - cbn in *. tauto.
  - cbn [app canonical] in *. destruct C as [A1 [A2 [A3 A4]]].
    repeat split; try assumption.
    + destruct l; exact A3.
    + now apply IH.
Qed.

Lemma canonical_last_count (l : list Run) (v : slot) (c c' : nat) :
  canonical (l ++ [mkRun v c]) ->
  (1 <= c')%nat ->
  (slot_strict_eq v v = false -> c' = 1%nat) ->
  canonical (l ++ [mkRun v c']).
Proof.
  intros C N1 N2. induction l as [ | a l IH ].
  - cbn in *. tauto.
  - cbn [app canonical] in *. destruct C as [A1 [A2 [A3 A4]]].
    repeat split; try assumption.
    + destruct l; exact A3.
    + now apply IH.
Qed.

Lemma compress_loop_canonical (rest : list slot) :
  forall (acc : list Run) (cur : slot) (cnt : nat),
    canonical (acc ++ [mkRun cur cnt]) ->
    let '(c, v, k) := fold_left compress_step rest (acc, cur, cnt) in
    canonical (c ++ [mkRun v k]).
Proof.
  induction rest as [ | p rest IH ]; intros acc cur cnt C; [ exact C | ].
  simpl fold_left. destruct (slot_strict_eq p cur) eqn:E.
  - apply IH. apply canonical_last_count with (c := cnt); [ exact C | lia | ].
    apply slot_strict_eq_sound in E as E'. subst p. congruence.
  - apply IH. rewrite <- app_assoc. cbn [app].
    apply canonical_snoc; cbn [count value]; auto.
Qed.

Lemma expand_length (rs : list Run) : length (expand rs) = list_sum (map count rs).
Proof.
  unfold expand. induction rs as [ | r rs IH ]; [ reflexivity | ].
  cbn [flat_map map list_sum]. now rewrite length_app, repeat_length, IH.
Qed.

Lemma counts_length (rs : list Run) :
  Forall (fun r => 1 <= count r)%nat rs ->
  (length rs <= list_sum (map count rs))%nat.
Proof.
  intro N. induction N as [ | r rs Hr _ IH ]; [ cbn; lia | ].
  cbn beta in Hr. unfold list_sum in *. cbn [length map fold_right]. lia.
Qed.

(** X11: the runs of [compressPitchArray] are as long as they can be:
    each holds at least one pitch, no two neighbours hold equal values, and
    a NaN is alone in its run; their lengths add up to the length of the
    array, so there are at most as many runs as pitches. *)
Theorem compress_canonical (expected : ExpectedPitchArray) :
  canonical (compressed (compressPitchArray expected)) /\
  list_sum (map count (compressed (compressPitchArray expected)))
    = length (pitches expected) /\
  (length (compressed (compressPitchArray expected)) <= length (pitches expected))%nat.
Proof.
  destruct expected as [s st ps]. unfold compressPitchArray. cbn [compressed pitches].
  destruct ps as [ | p0 rest ]; [ cbn; repeat split; lia | ].
  pose proof (compress_loop_canonical rest [] p0 1) as C.
  pose proof (compress_loop rest [] p0 1) as E.
  pose proof (compress_loop_counts rest [] p0 1 (Forall_nil _) (le_n 1)) as N.
  destruct (fold_left compress_step rest ([], p0, 1%nat)) as [[c v] k].
  assert (S : list_sum (map count (c ++ [mkRun v k])) = length (p0 :: rest)).
  { rewrite <- expand_length, E. reflexivity. }
  split; [ apply C; cbn; repeat split; auto | ].
  split; [ exact S | ].
  rewrite <- S. now apply counts_length.
Qed.

Lemma compress_absorb (v : slot) :
  slot_strict_eq v v = true ->
  forall (k : nat) (rest : list slot) (acc : list Run) (c : nat),
    fold_left compress_step (repeat v k ++ rest) (acc, v, c)
    = fold_left compress_step rest (acc, v, (c + k)%nat).
Proof.
  intros E k. induction k as [ | k IH ]; intros rest acc c.
  - cbn. now rewrite Nat.add_0_r.
  - cbn [repeat app fold_left compress_step]. rewrite E, IH. f_equal. f_equal. lia.
Qed.

(** The loop on the pitches of a canonical list of runs, when it has
    read [c] pitches of a run of value [v] that has [k] more. *)
Lemma compress_runs (rs : list Run) :
  forall (acc : list Run) (v : slot) (c k : nat),
    (slot_strict_eq v v = true \/ k = 0%nat) ->
    match rs with
    | [] => True
    | r' :: _ => slot_strict_eq (value r') v = false
    end ->
    canonical rs ->
    let '(a, v', c') := fold_left compress_step (repeat v k ++ expand rs) (acc, v, c) in
    a ++ [mkRun v' c'] = acc ++ mkRun v (c + k) :: rs.
Proof.
  induction rs as [ | r rs IH ]; intros acc v c k Hk Adj C.
  - assert (E : fold_left compress_step (repeat v k ++ expand []) (acc, v, c)
                = (acc, v, (c + k)%nat)).
    { destruct Hk as [Hk | ->]; [ now rewrite compress_absorb | ].
      cbn. now rewrite Nat.add_0_r. }
    rewrite E. reflexivity.
  - assert (E : fold_left compress_step (repeat v k ++ expand (r :: rs)) (acc, v, c)
                = fold_left compress_step (expand (r :: rs)) (acc, v, (c + k)%nat)).
    { destruct Hk as [Hk | ->]; [ now rewrite compress_absorb | ].
      cbn [repeat app]. now rewrite Nat.add_0_r. }
    rewrite E. clear E.
    cbn [canonical] in C. destruct C as [C1 [C2 [C3 C4]]].
    destruct r as [w n]. cbn [value count] in *.
    destruct n as [ | n ]; [ lia | ].
    change (expand (mkRun w (S n) :: rs)) with (w :: (repeat w n ++ expand rs)).
    cbn [fold_left compress_step]. rewrite Adj.
    specialize (IH (acc ++ [mkRun v (c + k)]) w 1%nat n).
    destruct (fold_left compress_step (repeat w n ++ expand rs)
                (acc ++ [mkRun v (c + k)], w, 1%nat)) as [[a v'] c'].
    rewrite IH; [ now rewrite <- app_assoc | | exact C3 | exact C4 ].
    destruct (slot_strict_eq w w); [ now left | right ].
    specialize (C2 eq_refl). lia.
Qed.

(** X12: on a canonical list of runs compression undoes decompression:
    compressing the array that the runs stand for gives the runs back, with
    the same start and step. *)
Theorem compress_decompress (c : CompressedPitchArray) :
  canonical (compressed c) ->
  compressPitchArray (decompressPitchArray c) = c.
Proof.
  destruct c as [s st rs]. cbn [compressed]. intro C.
  unfold compressPitchArray, decompressPitchArray.
  cbn [start step pitches z_start z_step compressed].
  f_equal. fold (expand rs).
  destruct rs as [ | [w n] rs ]; [ reflexivity | ].
  cbn [canonical value count] in C. destruct C as [C1 [C2 [C3 C4]]].
  destruct n as [ | n ]; [ lia | ].
  change (expand (mkRun w (S n) :: rs)) with (w :: (repeat w n ++ expand rs)).
  cbv iota beta.
  pose proof (compress_runs rs [] w 1 n) as R.
  destruct (fold_left compress_step (repeat w n ++ expand rs) ([], w, 1%nat)) as [[a v'] c'].
  rewrite R; [ reflexivity | | exact C3 | exact C4 ].
  destruct (slot_strict_eq w w); [ now left | right ].
  specialize (C2 eq_refl). lia.
Qed.

Lemma compress_decompress_witness :
  compressPitchArray
    (decompressPitchArray {| z_start := 0; z_step := 1;
                             compressed := [mkRun null 2; mkRun (note (Fin 60%Z)) 3] |})
  = {| z_start := 0; z_step := 1; compressed := [mkRun null 2; mkRun (note (Fin 60%Z)) 3] |}.
Proof.
  apply (compress_decompress {| z_start := 0; z_step := 1;
                                compressed := [mkRun null 2; mkRun (note (Fin 60%Z)) 3] |}).
  cbn. repeat split; try lia; discriminate.
Defined.

(** ** The fields of a frame *)




(** ** Singing closer *)

(** The classification of a difference against two thresholds. *)
Lemma classify_cases (diff : ext Q) (p a : Q) :
  ((if at_most diff p then PERFECT else if at_most diff a then ACCEPTABLE else MISS) = PERFECT
   <-> at_most diff p = true) /\
  ((if at_most diff p then PERFECT else if at_most diff a then ACCEPTABLE else MISS) = ACCEPTABLE
   <-> at_most diff p = false /\ at_most diff a = true) /\
  ((if at_most diff p then PERFECT else if at_most diff a then ACCEPTABLE else MISS) = MISS
   <-> at_most diff p = false /\ at_most diff a = false).
Proof.
  destruct (at_most diff p), (at_most diff a); repeat split; intros; try tauto;
    try discriminate; try (destruct H; discriminate).
Qed.

Lemma evaluateFrame_scored (d : DetectedPitch) (m : Q) (expected : option slot)
    (config : PartialScoringConfig) :
  let cfg := spread DEFAULT_SCORING_CONFIG config in
  expected <> Some null -> d_midi d = Some m -> clarityThreshold cfg <= clarity d ->
  f_match (evaluateFrame (Some d) expected config) =
    if at_most (Math_abs (minus_expected m expected)) (perfectThreshold cfg) then PERFECT
    else if at_most (Math_abs (minus_expected m expected)) (acceptableThreshold cfg)
         then ACCEPTABLE
         else MISS.
Proof.
  intros cfg E M L. subst cfg. unfold evaluateFrame. rewrite M.
  apply Qltb_ge in L. rewrite L.
  destruct expected as [[ | p] | ]; [ congruence | reflexivity | reflexivity ].
Qed.

(** X14: of two clear detections against the same expected pitch, the
    one that is at most as far from it is classified at least as well: it
    is PERFECT where the other is, PERFECT or ACCEPTABLE where the other is
    ACCEPTABLE, and where it is a MISS so is the other.  Neither is
    NO_DATA; and when the acceptable threshold is not above the perfect
    one, neither is ACCEPTABLE. *)
Theorem evaluateFrame_closer (d1 d2 : DetectedPitch) (m1 m2 : Q) (z : Z)
    (config : PartialScoringConfig) :
  let cfg := spread DEFAULT_SCORING_CONFIG config in
  let f1 := evaluateFrame (Some d1) (Some (note (Fin z))) config in
  let f2 := evaluateFrame (Some d2) (Some (note (Fin z))) config in
  d_midi d1 = Some m1 -> d_midi d2 = Some m2 ->
  clarityThreshold cfg <= clarity d1 -> clarityThreshold cfg <= clarity d2 ->
  Qabs (m1 - inject_Z z) <= Qabs (m2 - inject_Z z) ->
  (f_match f2 = PERFECT -> f_match f1 = PERFECT) /\
  (f_match f2 = ACCEPTABLE -> f_match f1 = PERFECT \/ f_match f1 = ACCEPTABLE) /\
  (f_match f1 = MISS -> f_match f2 = MISS) /\
  f_match f1 <> NO_DATA /\ f_match f2 <> NO_DATA /\
  (acceptableThreshold cfg <= perfectThreshold cfg ->
   f_match f1 <> ACCEPTABLE /\ f_match f2 <> ACCEPTABLE).
Proof.
  intros cfg f1 f2 M1 M2 L1 L2 C. subst f1 f2.
  assert (N : Some (note (Fin z)) <> Some null) by discriminate.
  rewrite (evaluateFrame_scored d1 m1 _ config N M1 L1).
  rewrite (evaluateFrame_scored d2 m2 _ config N M2 L2).
  fold cfg. cbn [minus_expected sub_from Math_abs at_most].
  set (x1 := Qabs (m1 - inject_Z z)) in *. set (x2 := Qabs (m2 - inject_Z z)) in *.
  assert (T : forall t, Qle_bool x2 t = true -> Qle_bool x1 t = true).
  { intros t H. apply Qle_bool_iff in H. apply Qle_bool_iff.
    now apply Qle_trans with x2. }
  assert (A : forall x, acceptableThreshold cfg <= perfectThreshold cfg ->
                        Qle_bool x (perfectThreshold cfg) = false ->
                        Qle_bool x (acceptableThreshold cfg) = false).
  { intros x O H. destruct (Qle_bool x (acceptableThreshold cfg)) eqn:B; [ | reflexivity ].
    apply Qle_bool_iff in B.
    assert (X : Qle_bool x (perfectThreshold cfg) = true).
    { apply Qle_bool_iff. now apply Qle_trans with (acceptableThreshold cfg). }
    congruence. }
  pose proof (T (perfectThreshold cfg)) as Tp.
  pose proof (T (acceptableThreshold cfg)) as Ta.
  pose proof (fun O => A x1 O) as A1. pose proof (fun O => A x2 O) as A2.
  destruct (Qle_bool x1 (perfectThreshold cfg)) eqn:P1,
           (Qle_bool x2 (perfectThreshold cfg)) eqn:P2,
           (Qle_bool x1 (acceptableThreshold cfg)) eqn:B1,
           (Qle_bool x2 (acceptableThreshold cfg)) eqn:B2;
    repeat split; intros; try discriminate; try tauto;
    try (specialize (Tp eq_refl); discriminate);
    try (specialize (Ta eq_refl); discriminate);
    try (specialize (A1 H eq_refl); discriminate);
    try (specialize (A2 H eq_refl); discriminate);
    try (left; reflexivity); try (right; reflexivity).
Qed.

Lemma evaluateFrame_closer_witness :
  let near := {| d_midi := Some (603 # 10); frequency := 266; clarity := 1; timestamp := 0 |} in
  let far := {| d_midi := Some (608 # 10); frequency := 274; clarity := 1; timestamp := 0 |} in
  Qabs ((603 # 10) - inject_Z 60) <= Qabs ((608 # 10) - inject_Z 60) /\
  f_match (evaluateFrame (Some far) (Some (note (Fin 60%Z))) no_config) = ACCEPTABLE /\
  (f_match (evaluateFrame (Some near) (Some (note (Fin 60%Z))) no_config) = PERFECT \/
   f_match (evaluateFrame (Some near) (Some (note (Fin 60%Z))) no_config) = ACCEPTABLE).
Proof.
  intros near far.
  assert (C : Qabs ((603 # 10) - inject_Z 60) <= Qabs ((608 # 10) - inject_Z 60))
    by (vm_compute; discriminate).
  assert (L : clarityThreshold (spread DEFAULT_SCORING_CONFIG no_config) <= 1)
    by (vm_compute; discriminate).
  assert (A : f_match (evaluateFrame (Some far) (Some (note (Fin 60%Z))) no_config)
              = ACCEPTABLE) by reflexivity.
  split; [ exact C | split; [ exact A | ] ].
  exact (proj1 (proj2 (evaluateFrame_closer near far (603 # 10) (608 # 10) 60 no_config
                         eq_refl eq_refl L L C)) A).
Defined.

(** ** A timeline of step zero *)

(** X15: on a timeline whose step is zero, at the start of the timeline
    the expected pitch that [addFrame] looks up is [undefined]: a clear
    detection is then a MISS whatever its pitch, with a difference of NaN,
    and the frame holds [undefined] for its expected pitch.  At a later
    time the lookup gives [null] and the frame is NO_DATA. *)
Theorem addFrame_zero_step (this : ScoreTracker) (d : DetectedPitch) (m : Q)
    (expected : ExpectedPitchArray) (currentTime : Q) :
  step expected == 0 -> d_midi d = Some m ->
  clarityThreshold (config this) <= clarity d ->
  let frame := fst (addFrame (Some d) expected currentTime this) in
  (currentTime == start expected ->
   f_expected frame = None /\ f_diff frame = Some NaN /\ f_match frame = MISS) /\
  (start expected < currentTime ->
   f_expected frame = Some null /\ f_diff frame = None /\ f_match frame = NO_DATA).
Proof.
  intros S M L frame. subst frame. unfold addFrame. cbn [fst].
  split.
  - intro E.
    assert (G : getExpectedMidiAt currentTime expected = None).
    { unfold getExpectedMidiAt, divide.
      rewrite (proj2 (Qeq_bool_iff _ 0) S).
      assert (A : Qltb currentTime (start expected) = false) by (apply Qltb_ge; lra).
      assert (B : Qltb 0 (currentTime - start expected) = false) by (apply Qltb_ge; lra).
      assert (C : Qltb (currentTime - start expected) 0 = false) by (apply Qltb_ge; lra).
      rewrite A, B, C. reflexivity. }
    rewrite G. unfold evaluateFrame. rewrite spread_as_partial, M.
    apply Qltb_ge in L. rewrite L. cbn. repeat split.
  - intro E.
    assert (G : getExpectedMidiAt currentTime expected = Some null).
    { unfold getExpectedMidiAt, divide.
      rewrite (proj2 (Qeq_bool_iff _ 0) S).
      assert (A : Qltb currentTime (start expected) = false) by (apply Qltb_ge; lra).
      assert (B : Qltb 0 (currentTime - start expected) = true) by (apply Qltb_lt; lra).
      rewrite A, B. reflexivity. }
    rewrite G. unfold evaluateFrame. cbn [f_expected f_diff f_match]. repeat split.
Qed.

Lemma addFrame_zero_step_witness :
  let expected := {| start := 0; step := 0; pitches := [] |} in
  f_match (fst (addFrame (Some (sung 1)) expected 0 (new_ScoreTracker no_config))) = MISS.
Proof.
  intro expected.
  refine (proj2 (proj2 (proj1 (addFrame_zero_step (new_ScoreTracker no_config) (sung 1)
                                 (603 # 10) expected 0 _ eq_refl _) _))).
  - reflexivity.
  - vm_compute; discriminate.
  - reflexivity.
Defined.

(** ** The counts and the score of a history *)

Lemma count_of_total (fs : list ScoreFrame) :
  (count_of PERFECT fs + count_of ACCEPTABLE fs + count_of MISS fs + count_of NO_DATA fs)%nat
  = length fs.
Proof.
  unfold count_of.
  induction fs as [ | f fs IH ]; [ reflexivity | ].
  cbn [filter length]. destruct (f_match f); cbn [match_eqb length]; lia.
Qed.

Lemma count_of_perm (m : Match) (fs gs : list ScoreFrame) :
  Permutation fs gs -> count_of m fs = count_of m gs.
Proof.
  intro P. unfold count_of.
  induction P as [ | f fs gs _ IH | f g fs | fs gs hs _ IH1 _ IH2 ].
  - reflexivity.
  - cbn [filter]. destruct (match_eqb (f_match f) m); cbn [length]; now rewrite IH.
  - cbn [filter].
    destruct (match_eqb (f_match f) m), (match_eqb (f_match g) m); reflexivity.
  - now rewrite IH1.
Qed.

(** X16: [getStats] counts every frame of the history once: the four
    counts add up to the number of frames, which is the length of the
    history.  The counts and the score do not depend on the order of the
    frames, nor on the configuration of the tracker. *)
Theorem getStats_partition (this : ScoreTracker) :
  let st := getStats this in
  totalFrames st = length (frames this) /\
  (perfectFrames st + acceptableFrames st + missFrames st + noDataFrames st)%nat
    = totalFrames st /\
  (forall other,
     Permutation (frames this) (frames other) ->
     totalFrames (getStats other) = totalFrames st /\
     perfectFrames (getStats other) = perfectFrames st /\
     acceptableFrames (getStats other) = acceptableFrames st /\
     missFrames (getStats other) = missFrames st /\
     noDataFrames (getStats other) = noDataFrames st /\
     score (getStats other) = score st).
Proof.
  intro st. subst st.
  split; [ reflexivity | ].
  split.
  - unfold getStats. cbn [perfectFrames acceptableFrames missFrames noDataFrames totalFrames].
    rewrite !count_match_count_of. apply count_of_total.
  - intros other P.
    assert (C : forall m, count_of m (frames other) = count_of m (frames this)).
    { intro m. symmetry. now apply count_of_perm. }
    split; [ cbn; symmetry; now apply Permutation_length | ].
    rewrite !score_unfold, !C.
    unfold getStats. cbn [perfectFrames acceptableFrames missFrames noDataFrames].
    rewrite !count_match_count_of, !C. tauto.
Qed.

Lemma getStats_partition_witness :
  score (getStats {| frames := rev (frames two_frame_tracker);
                     config := DEFAULT_SCORING_CONFIG |})
  = score (getStats two_frame_tracker).
Proof.
  refine (proj2 (proj2 (proj2 (proj2 (proj2
            (proj2 (proj2 (getStats_partition two_frame_tracker))
               {| frames := rev (frames two_frame_tracker);
                  config := DEFAULT_SCORING_CONFIG |} _)))))).
  apply Permutation_rev.
Defined.

Lemma of_nat_S (n : nat) : of_nat (S n) == of_nat n + 1.
Proof.
  unfold of_nat. rewrite Nat2Z.inj_succ. unfold Z.succ. rewrite inject_Z_plus. reflexivity.
Qed.

Lemma round2_le (x y : Q) : x <= y -> round2 x <= round2 y.
Proof.
  intro L. unfold round2, round_half_up.
  assert (F : (Qfloor (x * 100 + (1 # 2)) <= Qfloor (y * 100 + (1 # 2)))%Z).
  { apply Qfloor_resp_le. lra. }
  rewrite Zle_Qle in F.
  unfold Qdiv. apply Qmult_le_compat_r; [ exact F | discriminate ].
Qed.

(** The percentage of [hits] among [scored] does not fall when a hit is
    added, and does not rise when a miss is. *)
Lemma percent_hit (hits scored : nat) :
  (hits <= scored)%nat ->
  (if (0 <? scored)%nat then of_nat hits / of_nat scored * 100 else 0)
  <= (if (0 <? S scored)%nat then of_nat (S hits) / of_nat (S scored) * 100 else 0).
Proof.
  intro L. change (0 <? S scored)%nat with true. cbv iota.
  pose proof (of_nat_nonneg hits) as Nh.
  pose proof (of_nat_nonneg scored) as Ns.
  pose proof (of_nat_le hits scored L) as Lh.
  assert (P1 : 0 < of_nat scored + 1) by lra.
  rewrite !of_nat_S.
  destruct (0 <? scored)%nat eqn:P.
  - apply Nat.ltb_lt in P. pose proof (of_nat_pos scored P) as Ps.
    set (a := of_nat hits) in *. set (b := of_nat scored) in *.
    assert (D : (a + 1) / (b + 1) - a / b == (b - a) / (b * (b + 1))).
    { field. split; intro X; [ rewrite X in P1 | rewrite X in Ps ]; discriminate. }
    assert (G : 0 <= (b - a) / (b * (b + 1))).
    { apply Qle_shift_div_l; [ now apply Qmult_lt_0_compat | lra ]. }
    lra.
  - assert (G : 0 <= (of_nat hits + 1) / (of_nat scored + 1)).
    { apply Qle_shift_div_l; [ exact P1 | lra ]. }
    lra.
Qed.

Lemma percent_miss (hits scored : nat) :
  (hits <= scored)%nat ->
  (if (0 <? S scored)%nat then of_nat hits / of_nat (S scored) * 100 else 0)
  <= (if (0 <? scored)%nat then of_nat hits / of_nat scored * 100 else 0).
Proof.
  intro L. change (0 <? S scored)%nat with true. cbv iota.
  pose proof (of_nat_nonneg hits) as Nh.
  pose proof (of_nat_nonneg scored) as Ns.
  pose proof (of_nat_le hits scored L) as Lh.
  assert (P1 : 0 < of_nat scored + 1) by lra.
  rewrite !of_nat_S.
  destruct (0 <? scored)%nat eqn:P.
  - apply Nat.ltb_lt in P. pose proof (of_nat_pos scored P) as Ps.
    set (a := of_nat hits) in *. set (b := of_nat scored) in *.
    assert (D : a / b - a / (b + 1) == a / (b * (b + 1))).
    { field. split; intro X; [ rewrite X in P1 | rewrite X in Ps ]; discriminate. }
    assert (G : 0 <= a / (b * (b + 1))).
    { apply Qle_shift_div_l; [ now apply Qmult_lt_0_compat | lra ]. }
    lra.
  - apply Nat.ltb_ge in P.
    assert (H0 : hits = 0%nat) by lia. rewrite H0.
    assert (G : of_nat 0 / (of_nat scored + 1) == 0).
    { unfold of_nat. cbn [Z.of_nat]. change (inject_Z 0) with 0.
      field. intro X. rewrite X in P1. discriminate. }
    lra.
Qed.

Lemma count_of_snoc (m : Match) (fs : list ScoreFrame) (f : ScoreFrame) :
  count_of m (fs ++ [f]) =
    (if match_eqb (f_match f) m then S (count_of m fs) else count_of m fs).
Proof.
  rewrite count_of_app. unfold count_of at 2. cbn [filter].
  destruct (match_eqb (f_match f) m); cbn [length]; lia.
Qed.

(** X17: a frame that [addFrame] appends moves the score of [getStats]
    by its class: a PERFECT or an ACCEPTABLE frame does not lower it, a
    MISS does not raise it, and a NO_DATA frame leaves it, and the three
    counts that enter it, as they are.  In each case the number of frames
    grows by one. *)
Theorem addFrame_score (this : ScoreTracker) (detected : option DetectedPitch)
    (expected : ExpectedPitchArray) (currentTime : Q) :
  let frame := fst (addFrame detected expected currentTime this) in
  let after := snd (addFrame detected expected currentTime this) in
  totalFrames (getStats after) = S (totalFrames (getStats this)) /\
  (f_match frame = PERFECT \/ f_match frame = ACCEPTABLE ->
   score (getStats this) <= score (getStats after)) /\
  (f_match frame = MISS -> score (getStats after) <= score (getStats this)) /\
  (f_match frame = NO_DATA ->
   score (getStats after) = score (getStats this) /\
   perfectFrames (getStats after) = perfectFrames (getStats this) /\
   acceptableFrames (getStats after) = acceptableFrames (getStats this) /\
   missFrames (getStats after) = missFrames (getStats this) /\
   noDataFrames (getStats after) = S (noDataFrames (getStats this))).
Proof.
  intros frame after.
  assert (F : frames after = frames this ++ [frame]) by reflexivity.
  clearbody frame after.
  split.
  { unfold getStats. cbn [totalFrames]. rewrite F, length_app. cbn [length]. lia. }
  rewrite !score_unfold.
  assert (C : forall m, count_of m (frames after) =
                        if match_eqb (f_match frame) m then S (count_of m (frames this))
                        else count_of m (frames this)).
  { intro m. rewrite F. apply count_of_snoc. }
  split; [ | split ].
  - intros [E | E]; rewrite !C, E; cbn [match_eqb]; apply round2_le.
    + rewrite Nat.add_succ_l, Nat.add_succ_l. apply percent_hit. lia.
    + rewrite Nat.add_succ_r, Nat.add_succ_l. apply percent_hit. lia.
  - intro E. rewrite !C, E. cbn [match_eqb]. apply round2_le.
    rewrite Nat.add_succ_r. apply percent_miss. lia.
  - intro E. rewrite !C, E. cbn [match_eqb].
    split; [ reflexivity | ].
    unfold getStats. cbn [perfectFrames acceptableFrames missFrames noDataFrames].
    rewrite !count_match_count_of, !C, E. cbn [match_eqb]. tauto.
Qed.

Lemma addFrame_score_witness :
  f_match (fst (addFrame (Some (sung 1)) timeline_60 0 two_frame_tracker)) = PERFECT /\
  score (getStats two_frame_tracker)
  <= score (getStats (snd (addFrame (Some (sung 1)) timeline_60 0 two_frame_tracker))).
Proof.
  assert (E : f_match (fst (addFrame (Some (sung 1)) timeline_60 0 two_frame_tracker))
              = PERFECT) by reflexivity.
  split; [ exact E | ].
  exact (proj1 (proj2 (addFrame_score two_frame_tracker (Some (sung 1)) timeline_60 0))
           (or_introl E)).
Defined.

(** ** The time figures of a history *)





(** ** Clearing the history *)

Lemma filter_all {A : Type} (p : A -> bool) (l : list A) :
  Forall (fun x => p x = true) l -> filter p l = l.
Proof.
  induction 1 as [ | x l Hx _ IH ]; [ reflexivity | ].
  cbn [filter]. now rewrite Hx, IH.
Qed.

(** X19: [reset] empties the history and keeps the configuration: the
    tracker is then the one that the constructor makes from this
    configuration, every count and figure of [getStats] is zero, and the
    frames added afterwards are those that a new tracker would hold.
    [resetFrom] at a time that no frame is before does the same, and at a
    time that every frame is before it changes nothing. *)
Theorem reset_clears (this : ScoreTracker) :
  let st := getStats (reset this) in
  reset this = new_ScoreTracker (as_partial (config this)) /\
  (totalFrames st = 0 /\ perfectFrames st = 0 /\ acceptableFrames st = 0 /\
   missFrames st = 0 /\ noDataFrames st = 0)%nat /\
  (score st == 0 /\ matchedTime st == 0 /\ totalTime st == 0) /\
  (forall calls,
     frames (play calls (reset this)) = map (frame_of (config this)) calls /\
     config (play calls (reset this)) = config this) /\
  (forall t, Forall (fun f => t <= f_time f) (frames this) -> resetFrom t this = reset this) /\
  (forall t, Forall (fun f => f_time f < t) (frames this) -> resetFrom t this = this).
Proof.
  intro st. subst st.
  split; [ unfold reset, new_ScoreTracker; now rewrite spread_as_partial | ].
  split; [ cbn; tauto | ].
  split; [ repeat split | ].
  split; [ intro calls; apply (play_frames calls (reset this)) | ].
  split; intros t F; unfold resetFrom, reset.
  - f_equal. apply filter_none. apply Forall_impl with (2 := F).
    intros f L. now apply Qltb_ge.
  - destruct this as [fs c]. cbn [frames config] in *. f_equal.
    apply filter_all. apply Forall_impl with (2 := F).
    intros f L. now apply Qltb_lt.
Qed.

Lemma reset_clears_witness :
  Forall (fun f => 0 <= f_time f) (frames two_frame_tracker) /\
  resetFrom 0 two_frame_tracker = reset two_frame_tracker.
Proof.
  assert (F : Forall (fun f => 0 <= f_time f) (frames two_frame_tracker)).
  { repeat constructor; vm_compute; discriminate. }
  split; [ exact F | ].
  exact (proj1 (proj2 (proj2 (proj2 (proj2 (reset_clears two_frame_tracker))))) 0 F).
Defined.

(** ** The frames of a time range and the recent frames *)

Lemma filter_filter_all {A : Type} (p q : A -> bool) (l : list A) :
  (forall x, In x l -> p x = true -> q x = true) ->
  filter p (filter q l) = filter p l.
Proof.
  induction l as [ | x l IH ]; intro H; [ reflexivity | ].
  cbn [filter].
  assert (IH' : filter p (filter q l) = filter p l).
  { apply IH. intros y I. apply H. now right. }
  specialize (H x (or_introl eq_refl)).
  destruct (q x) eqn:Q; cbn [filter]; destruct (p x) eqn:P;
    try (now rewrite IH'); specialize (H eq_refl); discriminate.
Qed.

Lemma filter_filter_none {A : Type} (p q : A -> bool) (l : list A) :
  (forall x, In x l -> p x = true -> q x = false) ->
  filter p (filter q l) = [].
Proof.
  induction l as [ | x l IH ]; intro H; [ reflexivity | ].
  cbn [filter].
  assert (IH' : filter p (filter q l) = []).
  { apply IH. intros y I. apply H. now right. }
  specialize (H x (or_introl eq_refl)).
  destruct (q x) eqn:Q; [ | exact IH' ].
  cbn [filter]. destruct (p x); [ specialize (H eq_refl); discriminate | exact IH' ].
Qed.

Lemma in_range_iff (startTime endTime : Q) (f : ScoreFrame) :
  Qle_bool startTime (f_time f) && Qle_bool (f_time f) endTime = true
  <-> startTime <= f_time f <= endTime.
Proof.
  rewrite andb_true_iff, !Qle_bool_iff. tauto.
Qed.

(** X20: [getFramesInRange] gives, in their order, the frames of the
    history whose time lies in the closed range, both ends included; none
    when the range ends before it starts.  After [resetFrom(t)], a range
    that ends before [t] holds the frames it held, and a range that starts
    at [t] or later holds none. *)
Theorem getFramesInRange_frames (this : ScoreTracker) (startTime endTime : Q) :
  (forall f, In f (getFramesInRange startTime endTime this) <->
             In f (frames this) /\ startTime <= f_time f <= endTime) /\
  (endTime < startTime -> getFramesInRange startTime endTime this = []) /\
  (Forall (fun f => startTime <= f_time f <= endTime) (frames this) ->
   getFramesInRange startTime endTime this = frames this) /\
  (forall t, endTime < t ->
     getFramesInRange startTime endTime (resetFrom t this)
     = getFramesInRange startTime endTime this) /\
  (forall t, t <= startTime ->
     getFramesInRange startTime endTime (resetFrom t this) = []).
Proof.
  unfold getFramesInRange, resetFrom. cbn [frames].
  split; [ | split; [ | split; [ | split ] ] ].
  - intro f. rewrite filter_In, in_range_iff. tauto.
  - intro L. apply filter_none. rewrite Forall_forall. intros f _.
    destruct (Qle_bool startTime (f_time f) && Qle_bool (f_time f) endTime) eqn:E;
      [ | reflexivity ].
    apply in_range_iff in E. lra.
  - intro F. apply filter_all. apply Forall_impl with (2 := F).
    intros f H. now apply in_range_iff.
  - intros t L. apply filter_filter_all. intros f _ E.
    apply in_range_iff in E. apply Qltb_lt. lra.
  - intros t L. apply filter_filter_none. intros f _ E.
    apply in_range_iff in E. apply Qltb_ge. lra.
Qed.

Lemma getFramesInRange_frames_witness :
  (1 # 2) < 1 /\
  getFramesInRange 0 (1 # 2) (resetFrom 1 two_frame_tracker)
  = getFramesInRange 0 (1 # 2) two_frame_tracker.
Proof.
  assert (L : (1 # 2) < 1) by reflexivity.
  split; [ exact L | ].
  exact (proj1 (proj2 (proj2 (proj2 (getFramesInRange_frames two_frame_tracker 0 (1 # 2)))))
           1 L).
Defined.

(** X21: [getRecentFrames] gives an end of the history: for a positive
    count the last [count] frames, or the whole history when it holds
    fewer.  For a count of 0 it gives the whole history, not an empty
    list; for a negative count it gives the history without its first
    [-count] frames. *)
Theorem getRecentFrames_end (count_ : Z) (this : ScoreTracker) :
  let recent := getRecentFrames count_ this in
  let n := Z.of_nat (length (frames this)) in
  (exists older, frames this = older ++ recent) /\
  ((0 < count_)%Z -> Z.of_nat (length recent) = Z.min count_ n) /\
  (count_ = 0%Z -> recent = frames this) /\
  ((count_ < 0)%Z -> recent = skipn (Z.to_nat (- count_)) (frames this)).
Proof.
  intros recent n. subst recent n. unfold getRecentFrames, slice_from.
  split; [ | split; [ | split ] ].
  - eexists. symmetry. apply firstn_skipn.
  - intro P. rewrite length_skipn.
    destruct (Z.ltb_spec (- count_) 0); lia.
  - intros ->. change (- 0)%Z with 0%Z. change (0 <? 0)%Z with false. cbv iota.
    now rewrite Z.min_l by lia.
  - intro N. destruct (Z.ltb_spec (- count_) 0); [ lia | ].
    destruct (Z.le_ge_cases (- count_) (Z.of_nat (length (frames this)))) as [L | L].
    + now rewrite Z.min_l.
    + rewrite Z.min_r, Nat2Z.id by exact L.
      rewrite !skipn_all2; [ reflexivity | lia | lia ].
Qed.

Lemma getRecentFrames_end_witness :
  (0 < 1)%Z /\ Z.of_nat (length (getRecentFrames 1 two_frame_tracker)) = Z.min 1 2.
Proof.
  assert (P : (0 < 1)%Z) by lia.
  split; [ exact P | ].
  exact (proj1 (proj2 (getRecentFrames_end 1 two_frame_tracker)) P).
Defined.

(** ** The final score *)

(** X22: [calculateFinalScore] returns the statistics that the tracker
    of the frames returns, whatever the configuration of this tracker: the
    final score of the frames that [export] gives is the statistics that it
    gives, and the final score of the frames of a session is the statistics
    at its end. *)
Theorem calculateFinalScore_stats (this : ScoreTracker) :
  calculateFinalScore (frames this) = Some (getStats this) /\
  calculateFinalScore (e_frames (export this)) = Some (e_stats (export this)) /\
  (forall calls,
     calculateFinalScore (frames this ++ map (frame_of (config this)) calls)
     = Some (getStats (play calls this))).
Proof.
  split; [ reflexivity | split; [ reflexivity | ] ].
  intro calls. destruct (play_frames calls this) as [E _].
  unfold calculateFinalScore. cbn [import i_frames data_frames].
  unfold getStats. cbn [frames]. now rewrite E.
Qed.

(** ** The notes of a file *)

Lemma insert_by_time_perm (x : NoteEvent) (l : list NoteEvent) :
  Permutation (x :: l) (insert_by_time x l).
Proof.
  induction l as [ | y l IH ]; [ reflexivity | ].
  cbn [insert_by_time]. destruct (Qltb (time y) (time x)); [ | reflexivity ].
  rewrite perm_swap. now constructor.
Qed.

Lemma sort_by_time_perm (l : list NoteEvent) : Permutation l (sort_by_time l).
Proof.
  unfold sort_by_time.
  induction l as [ | x l IH ]; [ constructor | ].
  cbn [fold_right]. rewrite <- insert_by_time_perm. now constructor.
Qed.

Lemma insert_by_time_sorted (x : NoteEvent) (l : list NoteEvent) :
  by_time l -> by_time (insert_by_time x l).
Proof.
  unfold by_time. intro S.
  induction S as [ | y l S IH H ]; [ repeat constructor | ].
  cbn [insert_by_time]. destruct (Qltb (time y) (time x)) eqn:E.
  - apply Qltb_lt in E. constructor; [ exact IH | ].
    destruct l as [ | z l ]; cbn [insert_by_time].
    + constructor. now apply Qlt_le_weak.
    + destruct (Qltb (time z) (time x)).
      * constructor. now inversion H.
      * constructor. now apply Qlt_le_weak.
  - apply Qltb_ge in E. constructor; [ now constructor | now constructor ].
Qed.

Lemma sort_by_time_sorted (l : list NoteEvent) : by_time (sort_by_time l).
Proof.
  unfold sort_by_time.
  induction l as [ | x l IH ]; [ constructor | ].
  cbn [fold_right]. now apply insert_by_time_sorted.
Qed.

Lemma insert_by_time_at_time (t : Q) (x : NoteEvent) (l : list NoteEvent) :
  at_time t (insert_by_time x l) = at_time t (x :: l).
Proof.
  unfold at_time.
  induction l as [ | y l IH ]; [ reflexivity | ].
  cbn [insert_by_time]. destruct (Qltb (time y) (time x)) eqn:E; [ | reflexivity ].
  apply Qltb_lt in E. cbn [filter] in *. rewrite IH.
  destruct (Qeq_bool (time x) t) eqn:X; [ | reflexivity ].
  destruct (Qeq_bool (time y) t) eqn:Y; [ | reflexivity ].
  apply Qeq_bool_iff in X, Y. lra.
Qed.

Lemma sort_by_time_at_time (t : Q) (l : list NoteEvent) :
  at_time t (sort_by_time l) = at_time t l.
Proof.
  unfold sort_by_time.
  induction l as [ | x l IH ]; [ reflexivity | ].
  cbn [fold_right]. rewrite insert_by_time_at_time.
  unfold at_time in *. cbn [filter]. now rewrite IH.
Qed.

Lemma by_time_head (a : NoteEvent) (l : list NoteEvent) :
  by_time (a :: l) -> Forall (fun n => time a <= time n) l /\ by_time l.
Proof.
  unfold by_time. intro S. apply Sorted_StronglySorted in S.
  2:{ intros x y z. apply Qle_trans. }
  apply StronglySorted_inv in S. destruct S as [S F].
  split; [ exact F | now apply StronglySorted_Sorted ].
Qed.

Lemma at_time_In (t : Q) (n : NoteEvent) (l : list NoteEvent) :
  In n (at_time t l) <-> In n l /\ time n == t.
Proof.
  unfold at_time. now rewrite filter_In, Qeq_bool_iff.
Qed.

(** Two lists in the order of their times that hold, for each time, the
    same notes in the same order, are the same list. *)
Lemma by_time_unique (l1 : list NoteEvent) :
  forall l2,
    by_time l1 -> by_time l2 -> (forall t, at_time t l1 = at_time t l2) -> l1 = l2.
Proof.
  induction l1 as [ | a l1 IH ]; intros l2 S1 S2 H.
  - destruct l2 as [ | b l2 ]; [ reflexivity | ].
    specialize (H (time b)). unfold at_time in H. cbn [filter] in H.
    rewrite (proj2 (Qeq_bool_iff _ _) (Qeq_refl (time b))) in H. discriminate.
  - destruct l2 as [ | b l2 ].
    { specialize (H (time a)). unfold at_time in H. cbn [filter] in H.
      rewrite (proj2 (Qeq_bool_iff _ _) (Qeq_refl (time a))) in H. discriminate. }
    destruct (by_time_head _ _ S1) as [F1 T1]. destruct (by_time_head _ _ S2) as [F2 T2].
    rewrite Forall_forall in F1, F2.
    assert (Iab : In a (b :: l2)).
    { apply (at_time_In (time a)). rewrite <- H. apply at_time_In.
      split; [ now left | reflexivity ]. }
    assert (Iba : In b (a :: l1)).
    { apply (at_time_In (time b)). rewrite H. apply at_time_In.
      split; [ now left | reflexivity ]. }
    assert (Lab : time b <= time a).
    { destruct Iab as [<- | I]; [ apply Qle_refl | now apply F2 ]. }
    assert (Lba : time a <= time b).
    { destruct Iba as [<- | I]; [ apply Qle_refl | now apply F1 ]. }
    assert (E : time b == time a) by lra.
    assert (Eab : a = b).
    { pose proof (H (time a)) as Ha. unfold at_time in Ha. cbn [filter] in Ha.
      rewrite (proj2 (Qeq_bool_iff _ _) (Qeq_refl (time a))) in Ha.
      rewrite (proj2 (Qeq_bool_iff _ _) E) in Ha. congruence. }
    subst b. f_equal. apply IH; [ exact T1 | exact T2 | ].
    intro t. specialize (H t). unfold at_time in *. cbn [filter] in H.
    destruct (Qeq_bool (time a) t); congruence.
Qed.

Lemma parseMidiFile_concat (tracks : list (list NoteEvent)) (trackIndex : option Z) :
  (trackIndex = None \/
   exists i, trackIndex = Some i /\ (i < 0 \/ Z.of_nat (length tracks) <= i)%Z) ->
  parseMidiFile tracks trackIndex = sort_by_time (concat tracks).
Proof.
  intros [-> | [i [-> O]]]; unfold parseMidiFile; [ reflexivity | ].
  destruct (Z.leb_spec 0 i), (Z.ltb_spec i (Z.of_nat (length tracks)));
    cbn [andb]; try reflexivity; lia.
Qed.

Lemma parseMidiFile_nth (tracks : list (list NoteEvent)) (i : Z) (track : list NoteEvent) :
  (0 <= i)%Z -> nth_error tracks (Z.to_nat i) = Some track ->
  parseMidiFile tracks (Some i) = sort_by_time track.
Proof.
  intros P E. unfold parseMidiFile.
  assert (L : (Z.to_nat i < length tracks)%nat).
  { apply nth_error_Some. congruence. }
  destruct (Z.leb_spec 0 i), (Z.ltb_spec i (Z.of_nat (length tracks)));
    cbn [andb]; try lia.
  now rewrite (nth_error_nth _ _ _ E).
Qed.

Lemma parseMidiFile_sort (tracks : list (list NoteEvent)) (trackIndex : option Z) :
  exists chosen,
    parseMidiFile tracks trackIndex = sort_by_time chosen /\
    (chosen = concat tracks \/ In chosen tracks).
Proof.
  unfold parseMidiFile. destruct trackIndex as [i | ]; [ | eexists; split; eauto ].
  destruct (Z.leb_spec 0 i), (Z.ltb_spec i (Z.of_nat (length tracks)));
    cbn [andb]; try (eexists; split; eauto; fail).
  eexists. split; [ reflexivity | right ].
  apply nth_In. lia.
Qed.

(** X23: the notes that [parseMidiFile] returns are in the order of
    their times, so that none is earlier than the first one, and each of
    them is a note of a track of the file. *)
Theorem parseMidiFile_sorted (tracks : list (list NoteEvent)) (trackIndex : option Z) :
  let notes := parseMidiFile tracks trackIndex in
  by_time notes /\
  (forall first rest, notes = first :: rest ->
     Forall (fun n => time first <= time n) rest) /\
  (forall n, In n notes -> exists track, In track tracks /\ In n track).
Proof.
  intro notes. subst notes.
  destruct (parseMidiFile_sort tracks trackIndex) as [chosen [-> C]].
  split; [ apply sort_by_time_sorted | split ].
  - intros first rest E. pose proof (sort_by_time_sorted chosen) as S.
    rewrite E in S. now apply by_time_head in S.
  - intros n I.
    apply (Permutation_in _ (Permutation_sym (sort_by_time_perm chosen))) in I.
    destruct C as [-> | C].
    + apply in_concat in I. destruct I as [track [I1 I2]]. now exists track.
    + now exists chosen.
Qed.

Lemma parseMidiFile_sorted_witness :
  let first := mkNote 0 (1 # 2) 60 (1 # 2) in
  let rest := [ mkNote (1 # 2) (1 # 2) 62 (1 # 2); mkNote 1 (1 # 2) 64 (9 # 10) ] in
  parseMidiFile two_tracks None = first :: rest /\
  Forall (fun n => time first <= time n) rest.
Proof.
  intros first rest.
  assert (E : parseMidiFile two_tracks None = first :: rest) by reflexivity.
  split; [ exact E | ].
  exact (proj1 (proj2 (parseMidiFile_sorted two_tracks None)) first rest E).
Defined.

(** X24: with the index of a track of the file, [parseMidiFile] returns
    the notes of this track and no others, each as often as the track
    holds it, and the notes that start at the same time in the order that
    they have in the track.  It is the only arrangement of them by time
    that keeps this order. *)
Theorem parseMidiFile_track (tracks : list (list NoteEvent)) (i : Z)
    (track : list NoteEvent) :
  (0 <= i)%Z -> nth_error tracks (Z.to_nat i) = Some track ->
  let notes := parseMidiFile tracks (Some i) in
  Permutation track notes /\
  (forall t, at_time t notes = at_time t track) /\
  (forall others,
     by_time others -> (forall t, at_time t others = at_time t track) -> others = notes).
Proof.
  intros P E notes. subst notes. rewrite (parseMidiFile_nth tracks i track P E).
  split; [ apply sort_by_time_perm | ].
  split; [ intro t; apply sort_by_time_at_time | ].
  intros others S H. apply by_time_unique; [ exact S | apply sort_by_time_sorted | ].
  intro t. now rewrite sort_by_time_at_time.
Qed.

Lemma parseMidiFile_track_witness :
  (0 <= 0)%Z /\
  Permutation [ mkNote 1 (1 # 2) 64 (9 # 10); mkNote 0 (1 # 2) 60 (1 # 2) ]
              (parseMidiFile two_tracks (Some 0%Z)).
Proof.
  assert (P : (0 <= 0)%Z) by lia.
  split; [ exact P | ].
  exact (proj1 (parseMidiFile_track two_tracks 0
                  [ mkNote 1 (1 # 2) 64 (9 # 10); mkNote 0 (1 # 2) 60 (1 # 2) ]
                  P eq_refl)).
Defined.

(** X25: without a track index, and with an index that is negative or
    not below the number of tracks, [parseMidiFile] returns the notes of all
    the tracks: an index out of range is not reported.  The notes that
    start at the same time come in the order of their tracks, and within a
    track in its order. *)
Theorem parseMidiFile_all_tracks (tracks : list (list NoteEvent)) (trackIndex : option Z) :
  (trackIndex = None \/
   exists i, trackIndex = Some i /\ (i < 0 \/ Z.of_nat (length tracks) <= i)%Z) ->
  let notes := parseMidiFile tracks trackIndex in
  notes = parseMidiFile tracks None /\
  Permutation (concat tracks) notes /\
  (forall t, at_time t notes = at_time t (concat tracks)) /\
  (forall others,
     by_time others -> (forall t, at_time t others = at_time t (concat tracks)) ->
     others = notes).
Proof.
  intros O notes. subst notes. rewrite (parseMidiFile_concat tracks trackIndex O).
  split; [ reflexivity | ].
  split; [ apply sort_by_time_perm | ].
  split; [ intro t; apply sort_by_time_at_time | ].
  intros others S H. apply by_time_unique; [ exact S | apply sort_by_time_sorted | ].
  intro t. now rewrite sort_by_time_at_time.
Qed.

Lemma parseMidiFile_all_tracks_witness :
  (5 < 0 \/ Z.of_nat (length two_tracks) <= 5)%Z /\
  parseMidiFile two_tracks (Some 5%Z) = parseMidiFile two_tracks None.
Proof.
  assert (O : (5 < 0 \/ Z.of_nat (length two_tracks) <= 5)%Z) by (right; cbn; lia).
  split; [ exact O | ].
  exact (proj1 (parseMidiFile_all_tracks two_tracks (Some 5%Z)
                  (or_intror (ex_intro _ 5%Z (conj eq_refl O))))).
Defined.

(** ** The history of the visualizer *)

Lemma cutoff_filter (c1 c2 : Q) (l : list PitchHistoryEntry) :
  c1 <= c2 ->
  filter (fun e => Qle_bool c2 (h_time e)) (filter (fun e => Qle_bool c1 (h_time e)) l)
  = filter (fun e => Qle_bool c2 (h_time e)) l.
Proof.
  intro L. apply filter_filter_all. intros e _ H.
  apply Qle_bool_iff in H. apply Qle_bool_iff. lra.
Qed.

Lemma last_cons {A : Type} (l : list A) :
  forall a d : A, last (a :: l) d = last l a.
Proof.
  induction l as [ | b l IH ]; intros a d; [ reflexivity | ].
  change (last (a :: b :: l) d) with (last (b :: l) d).
  now rewrite !IH.
Qed.

Lemma last_In {A : Type} (l : list A) : forall a : A, In (last l a) (a :: l).
Proof.
  induction l as [ | b l IH ]; intro a; [ now left | ].
  right. rewrite last_cons. apply IH.
Qed.

Lemma evaluateFrame_echo (detected : option DetectedPitch) (expected : option slot)
    (config : PartialScoringConfig) :
  f_expected (evaluateFrame detected expected config) = expected /\
  f_detected (evaluateFrame detected expected config) = detected_midi detected.
Proof.
  unfold evaluateFrame.
  destruct expected as [[ | p] | ]; destruct detected as [d | ]; cbn [detected_midi];
    try (split; reflexivity);
    destruct (d_midi d) eqn:M; try (split; reflexivity);
    destruct (Qltb _ _); split; reflexivity.
Qed.

(** X28: when the frame that [addFrame] returns is handed to [addPitch]
    with the same detection, timeline and current time, the entry that the
    visualizer shows last carries the expected pitch, the detected pitch
    and the class of the frame.  Its time is the current time, whatever the
    time of the frame. *)
Theorem addPitch_frame (tracker : ScoreTracker) (visualizer : PitchBarVisualizer)
    (detected : option DetectedPitch) (expected : ExpectedPitchArray) (currentTime : Q) :
  0 <= historyDuration (bar_config visualizer) ->
  let frame := fst (addFrame detected expected currentTime tracker) in
  let shown := addPitch currentTime detected (Some expected) (Some frame) visualizer in
  exists older,
    history shown =
      older ++ [ {| h_time := currentTime;
                    h_expected := f_expected frame;
                    h_detected := f_detected frame;
                    h_match := Some (f_match frame) |} ] /\
    Forall (fun e => In e (history visualizer)) older.
Proof.
  intros P frame shown. subst shown.
  exists (filter (fun e => Qle_bool (currentTime - historyDuration (bar_config visualizer))
                             (h_time e)) (history visualizer)).
  split.
  - unfold addPitch. cbn [history]. rewrite filter_app. f_equal. cbn [filter].
    assert (K : Qle_bool (currentTime - historyDuration (bar_config visualizer))
                  (h_time (new_entry currentTime detected (Some expected) (Some frame)))
                = true).
    { apply Qle_bool_iff. cbn [new_entry h_time]. lra. }
    rewrite K. unfold new_entry. cbn [option_map].
    subst frame. unfold addFrame. cbn [fst].
    destruct (evaluateFrame_echo detected (getExpectedMidiAt currentTime expected)
                (as_partial (config tracker))) as [E1 E2].
    now rewrite E1, E2.
  - rewrite Forall_forall. intros e I. apply filter_In in I. tauto.
Qed.

Lemma addPitch_frame_witness :
  exists older,
    history (addPitch 0 (Some (sung 1)) (Some timeline_60)
               (Some (fst (addFrame (Some (sung 1)) timeline_60 0 two_frame_tracker)))
               default_visualizer)
    = older ++ [ {| h_time := 0;
                    h_expected := Some (note (Fin 60%Z));
                    h_detected := Some (603 # 10);
                    h_match := Some PERFECT |} ].
Proof.
  assert (P : 0 <= historyDuration (bar_config default_visualizer))
    by (vm_compute; discriminate).
  destruct (addPitch_frame two_frame_tracker default_visualizer (Some (sung 1)) timeline_60 0 P)
    as [older [E _]].
  exists older. exact E.
Defined.

(** ** The name of a note *)

Lemma to_int_proper (z : Z) : Z.to_int z <> Decimal.Pos Decimal.Nil /\
                              Z.to_int z <> Decimal.Neg Decimal.Nil.
Proof.
  assert (N : forall p, Pos.to_uint p <> Decimal.Nil).
  { intros p E. pose proof (DecimalPos.Unsigned.of_to p) as O.
    rewrite E in O. discriminate O. }
  destruct z as [ | p | p ]; cbn; split; intro E; try discriminate;
    injection E as E; exact (N p E).
Qed.

Lemma Number_toString_inj (a b : Z) : Number_toString a = Number_toString b -> a = b.
Proof.
  unfold Number_toString. intro E.
  destruct (to_int_proper a) as [A1 A2]. destruct (to_int_proper b) as [B1 B2].
  pose proof (DecimalString.NilZero.isi (Z.to_int a) A1 A2) as Ia.
  pose proof (DecimalString.NilZero.isi (Z.to_int b) B1 B2) as Ib.
  rewrite E in Ia. rewrite Ia in Ib. injection Ib as Ib.
  rewrite <- (DecimalZ.of_to a), <- (DecimalZ.of_to b). now rewrite Ib.
Qed.

(** The digits of a number do not start with a sharp sign. *)
Lemma Number_toString_sharp (z : Z) (s : string) :
  Number_toString z <> ("#" ++ s)%string.
Proof.
  unfold Number_toString. cbn [append]. intro E.
  destruct (to_int_proper z) as [A1 A2].
  pose proof (DecimalString.NilZero.isi (Z.to_int z) A1 A2) as I.
  rewrite E in I. cbn in I.
  destruct (DecimalString.NilEmpty.uint_of_string s); discriminate I.
Qed.

(** A note name followed by digits is read in one way. *)
Lemma note_name_prefix (ra rb : Z) (sa sb : string) :
  (0 <= ra < 12)%Z -> (0 <= rb < 12)%Z ->
  (forall s, sa <> ("#" ++ s)%string) -> (forall s, sb <> ("#" ++ s)%string) ->
  (nth (Z.to_nat ra) note_names "undefined" ++ sa)%string
  = (nth (Z.to_nat rb) note_names "undefined" ++ sb)%string ->
  ra = rb /\ sa = sb.
Proof.
  intros Ra Rb Sa Sb E.
  assert (Ca : (ra = 0 \/ ra = 1 \/ ra = 2 \/ ra = 3 \/ ra = 4 \/ ra = 5 \/ ra = 6 \/
                ra = 7 \/ ra = 8 \/ ra = 9 \/ ra = 10 \/ ra = 11)%Z) by lia.
  assert (Cb : (rb = 0 \/ rb = 1 \/ rb = 2 \/ rb = 3 \/ rb = 4 \/ rb = 5 \/ rb = 6 \/
                rb = 7 \/ rb = 8 \/ rb = 9 \/ rb = 10 \/ rb = 11)%Z) by lia.
  clear Ra Rb.
  repeat (destruct Ca as [Ca | Ca]); repeat (destruct Cb as [Cb | Cb]);
    subst ra rb; cbv in E;
    repeat (match goal with
            | H : String _ _ = String _ _ |- _ => injection H; clear H; intros
            end);
    try (split; [ reflexivity | assumption ]);
    exfalso;
    try congruence;
    match goal with
    | H : sa = String _ _ |- _ => exact (Sa _ H)
    | H : String _ _ = sb |- _ => exact (Sb _ (eq_sym H))
    end.
Qed.

Lemma midiToNoteName_unfold (midi : Z) :
  (0 <= midi)%Z ->
  midiToNoteName midi =
    (nth (Z.to_nat (midi mod 12)) note_names "undefined" ++ Number_toString (midi / 12 - 1))%string
  /\ (0 <= midi mod 12 < 12)%Z.
Proof.
  intro P. unfold midiToNoteName.
  rewrite (Z.rem_mod_nonneg midi 12) by lia.
  pose proof (Z.mod_pos_bound midi 12) as B.
  destruct (Z.ltb_spec (midi mod 12) 0); [ lia | ].
  split; [ reflexivity | lia ].
Qed.

(** X30: the name that [midiToNoteName] gives to a MIDI number that is
    not negative is one of the twelve note names followed by the digits of
    the octave, the number divided by 12, rounded down, less one; twelve
    semitones higher the note name is the same and the octave one more.
    Two such numbers that are different have different names. *)
Theorem midiToNoteName_injective (a b : Z) :
  (0 <= a)%Z -> (0 <= b)%Z ->
  (exists letter,
     In letter note_names /\
     midiToNoteName a = (letter ++ Number_toString (a / 12 - 1))%string /\
     midiToNoteName (a + 12) = (letter ++ Number_toString (a / 12))%string) /\
  (midiToNoteName a = midiToNoteName b -> a = b).
Proof.
  intros Pa Pb.
  destruct (midiToNoteName_unfold a Pa) as [Ea Ra].
  destruct (midiToNoteName_unfold b Pb) as [Eb Rb].
  split.
  - exists (nth (Z.to_nat (a mod 12)) note_names "undefined"%string).
    split; [ apply nth_In; cbn [note_names length]; lia | ].
    split; [ exact Ea | ].
    destruct (midiToNoteName_unfold (a + 12) ltac:(lia)) as [E _].
    rewrite E.
    replace ((a + 12) mod 12)%Z with (a mod 12)%Z
      by (rewrite <- (Z.mod_add a 1 12) by lia; f_equal; lia).
    replace ((a + 12) / 12 - 1)%Z with (a / 12)%Z
      by (replace (a + 12)%Z with (a + 1 * 12)%Z by lia; rewrite Z.div_add by lia; lia).
    reflexivity.
  - rewrite Ea, Eb. intro E.
    assert (D : (a mod 12 = b mod 12)%Z /\
                Number_toString (a / 12 - 1) = Number_toString (b / 12 - 1)).
    { apply note_name_prefix; try assumption; apply Number_toString_sharp. }
    destruct D as [D1 D2]. apply Number_toString_inj in D2.
    rewrite (Z.div_mod a 12), (Z.div_mod b 12) by lia. lia.
Qed.

Lemma midiToNoteName_injective_witness :
  (0 <= 60)%Z /\ (0 <= 69)%Z /\
  midiToNoteName 60 = "C4"%string /\ midiToNoteName 72 = "C5"%string /\
  midiToNoteName 60 <> midiToNoteName 69.
Proof.
  assert (Pa : (0 <= 60)%Z) by lia. assert (Pb : (0 <= 69)%Z) by lia.
  split; [ exact Pa | split; [ exact Pb | ] ].
  split; [ reflexivity | split; [ reflexivity | ] ].
  intro E. pose proof (proj2 (midiToNoteName_injective 60 69 Pa Pb) E) as X.
  discriminate X.
Defined.

(** * Properties in the arithmetic of doubles *)

(** ** Rounding to the nearest double *)

Lemma pow2_pos (e : Z) : 0 < 2 ^ e.
Proof. apply Qpower_0_lt. reflexivity. Qed.

Lemma pow2_Z (e : Z) : (0 <= e)%Z -> 2 ^ e == inject_Z (2 ^ e).
Proof. intro H. now rewrite Zpower_Qpower. Qed.

Lemma pow2_succ (e : Z) : 2 ^ (e + 1) == 2 * 2 ^ e.
Proof. rewrite Qpower_plus by discriminate. rewrite Qpower_1_r. ring. Qed.

Lemma binade_comp (x y : Q) : x == y -> Binary64.binade x = Binary64.binade y.
Proof.
  intro E. unfold Binary64.binade.
  assert (B : Qle_bool 1 x = Qle_bool 1 y).
  { destruct (Qle_bool 1 x) eqn:X, (Qle_bool 1 y) eqn:Y; try reflexivity.
    - apply Qle_bool_iff in X. rewrite E in X. apply Qle_bool_iff in X. congruence.
    - apply Qle_bool_iff in Y. rewrite <- E in Y. apply Qle_bool_iff in Y. congruence. }
  rewrite B. destruct (Qle_bool 1 y).
  - now rewrite (Qfloor_comp _ _ E).
  - assert (E' : / x == / y) by now rewrite E.
    now rewrite (Qceiling_comp _ _ E').
Qed.

Lemma binade_spec (q : Q) : 0 < q -> 2 ^ Binary64.binade q <= q < 2 ^ (Binary64.binade q + 1).
Proof.
  intro P. unfold Binary64.binade. destruct (Qle_bool 1 q) eqn:B.
  - apply Qle_bool_iff in B.
    assert (F : (1 <= Qfloor q)%Z).
    { change 1%Z with (Qfloor 1). now apply Qfloor_resp_le. }
    pose proof (Z.log2_spec (Qfloor q) ltac:(lia)) as [L U].
    pose proof (Z.log2_nonneg (Qfloor q)) as N.
    rewrite !pow2_Z by lia. split.
    + apply Qle_trans with (inject_Z (Qfloor q)); [ now rewrite <- Zle_Qle | apply Qfloor_le ].
    + apply Qlt_le_trans with (inject_Z (Qfloor q + 1)); [ apply Qlt_floor | ].
      rewrite <- Zle_Qle. unfold Z.succ in U. lia.
  - assert (B' : q < 1).
    { apply Qnot_le_lt. intro X. apply Qle_bool_iff in X. congruence. }
    set (r := / q).
    assert (QR : q * r == 1).
    { unfold r. apply Qmult_inv_r. intro X. rewrite X in P. discriminate. }
    assert (R0 : 0 < r) by (unfold r; now apply Qinv_lt_0_compat).
    assert (R : 1 < r).
    { apply Qnot_le_lt. intro X.
      assert (Y : q * r <= q * 1) by (apply Qmult_le_l; assumption).
      lra. }
    set (c := Qceiling r).
    assert (C : (1 < c)%Z).
    { rewrite Zlt_Qlt. apply Qlt_le_trans with r; [ exact R | apply Qle_ceiling ]. }
    pose proof (Z.log2_up_spec c C) as [L U].
    pose proof (Z.log2_up_pos c C) as K.
    set (k := Z.log2_up c) in *.
    assert (U' : r <= 2 ^ k).
    { rewrite pow2_Z by lia. apply Qle_trans with (inject_Z c); [ apply Qle_ceiling | ].
      now rewrite <- Zle_Qle. }
    assert (L' : 2 ^ (k - 1) < r).
    { rewrite pow2_Z by lia. apply Qle_lt_trans with (inject_Z (c - 1)); [ | apply Qceiling_lt ].
      rewrite <- Zle_Qle. replace (Z.pred k) with (k - 1)%Z in L by lia. lia. }
    split.
    + rewrite Qpower_opp. apply Qle_shift_inv_r; [ apply pow2_pos | ].
      rewrite <- QR. apply Qmult_le_l; assumption.
    + replace (- k + 1)%Z with (- (k - 1))%Z by lia.
      rewrite Qpower_opp. apply Qlt_shift_inv_l; [ apply pow2_pos | ].
      rewrite <- QR. apply Qmult_lt_l; assumption.
Qed.

Lemma round_half_even_comp (x y : Q) :
  x == y -> Binary64.round_half_even x = Binary64.round_half_even y.
Proof.
  intro E. unfold Binary64.round_half_even. rewrite (Qfloor_comp _ _ E).
  assert (C : Qcompare (x - inject_Z (Qfloor y)) (1 # 2)
              = Qcompare (y - inject_Z (Qfloor y)) (1 # 2)) by now rewrite E.
  now rewrite C.
Qed.

Lemma round_half_even_cases (x : Q) :
  let f := Qfloor x in
  (Binary64.round_half_even x = f /\ x - inject_Z f <= 1 # 2) \/
  (Binary64.round_half_even x = (f + 1)%Z /\ 1 # 2 <= x - inject_Z f).
Proof.
  intro f. unfold Binary64.round_half_even. fold f.
  destruct (Qcompare_spec (x - inject_Z f) (1 # 2)) as [E | L | G].
  - destruct (Z.even f); [ left | right ]; split; try reflexivity; rewrite E; apply Qle_refl.
  - left. split; [ reflexivity | now apply Qlt_le_weak ].
  - right. split; [ reflexivity | now apply Qlt_le_weak ].
Qed.

Lemma round_half_even_error (x : Q) :
  - (1 # 2) <= inject_Z (Binary64.round_half_even x) - x <= 1 # 2.
Proof.
  pose proof (Qfloor_le x) as A. pose proof (Qlt_floor x) as B.
  rewrite inject_Z_plus in B. change (inject_Z 1) with 1 in B.
  destruct (round_half_even_cases x) as [[-> H] | [-> H]].
  - lra.
  - rewrite inject_Z_plus. change (inject_Z 1) with 1. lra.
Qed.

Lemma round_half_even_Z (z : Z) : Binary64.round_half_even (inject_Z z) = z.
Proof.
  unfold Binary64.round_half_even. rewrite Qfloor_Z.
  destruct (Qcompare_spec (inject_Z z - inject_Z z) (1 # 2)) as [E | L | G].
  - exfalso. assert (X : inject_Z z - inject_Z z == 0) by ring. rewrite X in E. discriminate.
  - reflexivity.
  - exfalso. assert (X : inject_Z z - inject_Z z == 0) by ring. rewrite X in G. discriminate.
Qed.

Lemma round_half_even_mono (x y : Q) :
  x <= y -> (Binary64.round_half_even x <= Binary64.round_half_even y)%Z.
Proof.
  intro L.
  pose proof (Qfloor_resp_le _ _ L) as F.
  destruct (Z.eq_dec (Qfloor x) (Qfloor y)) as [E | N].
  - unfold Binary64.round_half_even. rewrite E.
    destruct (Qcompare_spec (x - inject_Z (Qfloor y)) (1 # 2)) as [Ex | Lx | Gx];
      destruct (Qcompare_spec (y - inject_Z (Qfloor y)) (1 # 2)) as [Ey | Ly | Gy];
      try destruct (Z.even (Qfloor y)); try lia; exfalso; lra.
  - destruct (round_half_even_cases x) as [[-> _] | [-> _]];
      destruct (round_half_even_cases y) as [[-> _] | [-> _]]; lia.
Qed.

Lemma ulp_pos (q : Q) : 0 < Binary64.ulp q.
Proof. apply pow2_pos. Qed.

Lemma ulp_comp (x y : Q) : x == y -> Binary64.ulp x = Binary64.ulp y.
Proof. intro E. unfold Binary64.ulp. now rewrite (binade_comp _ _ E). Qed.

Lemma nearest_comp (x y : Q) : x == y -> Binary64.nearest x == Binary64.nearest y.
Proof.
  intro E. unfold Binary64.nearest. rewrite (ulp_comp _ _ E).
  assert (X : x / Binary64.ulp y == y / Binary64.ulp y) by now rewrite E.
  now rewrite (round_half_even_comp _ _ X).
Qed.

Lemma fl_comp (x y : Q) : x == y -> Binary64.fl x == Binary64.fl y.
Proof.
  intro E. unfold Binary64.fl.
  assert (C : Qcompare x 0 = Qcompare y 0) by now rewrite E.
  rewrite C. destruct (Qcompare y 0); [ reflexivity | | now apply nearest_comp ].
  apply Qopp_comp. apply nearest_comp. now rewrite E.
Qed.

Lemma ulp_spec (q : Q) : 0 < q -> 2 ^ 52 * Binary64.ulp q <= q < 2 ^ 53 * Binary64.ulp q.
Proof.
  intro P. destruct (binade_spec q P) as [L U]. unfold Binary64.ulp.
  assert (A : 2 ^ 52 * 2 ^ (Binary64.binade q - 52) == 2 ^ Binary64.binade q).
  { rewrite <- Qpower_plus by discriminate. apply Qpower_comp; [ reflexivity | lia ]. }
  assert (B : 2 ^ 53 * 2 ^ (Binary64.binade q - 52) == 2 ^ (Binary64.binade q + 1)).
  { rewrite <- Qpower_plus by discriminate. apply Qpower_comp; [ reflexivity | lia ]. }
  rewrite A, B. now split.
Qed.

Lemma nearest_error (q : Q) : 0 < q -> Qabs (Binary64.nearest q - q) <= q * (1 # 9007199254740992).
Proof.
  intro P. destruct (ulp_spec q P) as [L _].
  pose proof (ulp_pos q) as U. set (u := Binary64.ulp q) in *.
  pose proof (round_half_even_error (q / u)) as [A B].
  unfold Binary64.nearest. fold u. set (m := inject_Z (Binary64.round_half_even (q / u))) in *.
  assert (E : m * u - q == (m - q / u) * u).
  { field. intro X. rewrite X in U. discriminate. }
  rewrite E, Qabs_Qmult, (Qabs_pos u) by now apply Qlt_le_weak.
  assert (H : Qabs (m - q / u) <= 1 # 2) by (apply Qabs_Qle_condition; split; assumption).
  apply Qle_trans with ((1 # 2) * u).
  - apply Qmult_le_compat_r; [ exact H | now apply Qlt_le_weak ].
  - change (2 ^ 52) with 4503599627370496 in L. lra.
Qed.

Lemma nearest_bounds (q : Q) :
  0 < q -> 2 ^ Binary64.binade q <= Binary64.nearest q <= 2 ^ (Binary64.binade q + 1).
Proof.
  intro P. destruct (ulp_spec q P) as [L U].
  pose proof (ulp_pos q) as Up. unfold Binary64.nearest.
  assert (A : 2 ^ 52 * Binary64.ulp q == 2 ^ Binary64.binade q).
  { unfold Binary64.ulp. rewrite <- Qpower_plus by discriminate.
    apply Qpower_comp; [ reflexivity | lia ]. }
  assert (B : 2 ^ 53 * Binary64.ulp q == 2 ^ (Binary64.binade q + 1)).
  { unfold Binary64.ulp. rewrite <- Qpower_plus by discriminate.
    apply Qpower_comp; [ reflexivity | lia ]. }
  set (u := Binary64.ulp q) in *.
  assert (X1 : 2 ^ 52 <= q / u) by (apply Qle_shift_div_l; assumption).
  assert (X2 : q / u <= 2 ^ 53) by (apply Qle_shift_div_r; [ assumption | now apply Qlt_le_weak ]).
  apply round_half_even_mono in X1. apply round_half_even_mono in X2.
  change (2 ^ 52) with (inject_Z 4503599627370496) in X1.
  change (2 ^ 53) with (inject_Z 9007199254740992) in X2.
  rewrite round_half_even_Z in X1, X2.
  rewrite Zle_Qle in X1, X2.
  rewrite <- A, <- B. split; apply Qmult_le_compat_r; try (now apply Qlt_le_weak); assumption.
Qed.

Lemma binade_mono (x y : Q) : 0 < x -> x <= y -> (Binary64.binade x <= Binary64.binade y)%Z.
Proof.
  intros P L.
  destruct (binade_spec x P) as [A _].
  destruct (binade_spec y (Qlt_le_trans _ _ _ P L)) as [_ B].
  assert (C : 2 ^ Binary64.binade x < 2 ^ (Binary64.binade y + 1)) by lra.
  apply Qpower_lt_compat_l_inv in C; [ lia | reflexivity ].
Qed.

Lemma nearest_mono (x y : Q) : 0 < x -> x <= y -> Binary64.nearest x <= Binary64.nearest y.
Proof.
  intros P L. pose proof (binade_mono x y P L) as M.
  assert (Py : 0 < y) by lra.
  destruct (Z.eq_dec (Binary64.binade x) (Binary64.binade y)) as [E | N].
  - unfold Binary64.nearest, Binary64.ulp. rewrite E.
    pose proof (pow2_pos (Binary64.binade y - 52)) as U.
    apply Qmult_le_compat_r; [ | now apply Qlt_le_weak ].
    rewrite <- Zle_Qle. apply round_half_even_mono.
    apply Qmult_le_compat_r; [ exact L | ].
    apply Qlt_le_weak. now apply Qinv_lt_0_compat.
  - destruct (nearest_bounds x P) as [_ A]. destruct (nearest_bounds y Py) as [B _].
    apply Qle_trans with (2 ^ (Binary64.binade x + 1)); [ exact A | ].
    apply Qle_trans with (2 ^ Binary64.binade y); [ | exact B ].
    apply Qpower_le_compat_l; [ lia | discriminate ].
Qed.

Lemma nearest_pos (q : Q) : 0 < q -> 0 < Binary64.nearest q.
Proof.
  intro P. destruct (nearest_bounds q P) as [A _].
  apply Qlt_le_trans with (2 ^ Binary64.binade q); [ apply pow2_pos | exact A ].
Qed.

Lemma nearest_Z (z : Z) :
  (0 < z < 2 ^ 53)%Z -> Binary64.nearest (inject_Z z) == inject_Z z.
Proof.
  intros [P B].
  assert (Pq : 0 < inject_Z z) by (change 0 with (inject_Z 0); now rewrite <- Zlt_Qlt).
  destruct (binade_spec _ Pq) as [L _].
  set (e := Binary64.binade (inject_Z z)) in *.
  assert (E : (e <= 52)%Z).
  { assert (C : 2 ^ e < 2 ^ 53).
    { apply Qle_lt_trans with (inject_Z z); [ exact L | ].
      change (2 ^ 53) with (inject_Z (2 ^ 53)). now rewrite <- Zlt_Qlt. }
    apply Qpower_lt_compat_l_inv in C; [ lia | reflexivity ]. }
  unfold Binary64.nearest, Binary64.ulp. fold e.
  assert (X : inject_Z z / 2 ^ (e - 52) == inject_Z (z * 2 ^ (52 - e))).
  { rewrite inject_Z_mult, <- pow2_Z by lia.
    replace (e - 52)%Z with (- (52 - e))%Z by lia. rewrite Qpower_opp.
    field. intro Y. pose proof (pow2_pos (52 - e)) as Q. rewrite Y in Q. discriminate. }
  rewrite (round_half_even_comp _ _ X), round_half_even_Z.
  rewrite inject_Z_mult, <- pow2_Z by lia.
  replace (e - 52)%Z with (- (52 - e))%Z by lia. rewrite Qpower_opp.
  field. intro Y. pose proof (pow2_pos (52 - e)) as Q. rewrite Y in Q. discriminate.
Qed.

Lemma fl_pos_eq (q : Q) : 0 < q -> Binary64.fl q = Binary64.nearest q.
Proof.
  intro P. unfold Binary64.fl. destruct (Qcompare_spec q 0) as [E | L | G]; try reflexivity.
  - rewrite E in P. discriminate.
  - exfalso. lra.
Qed.

Lemma fl_neg_eq (q : Q) : q < 0 -> Binary64.fl q = - Binary64.nearest (- q).
Proof.
  intro P. unfold Binary64.fl. destruct (Qcompare_spec q 0) as [E | L | G]; try reflexivity.
  - rewrite E in P. discriminate.
  - exfalso. lra.
Qed.

Lemma fl_zero (q : Q) : q == 0 -> Binary64.fl q == 0.
Proof.
  intro E. rewrite (fl_comp _ _ E). reflexivity.
Qed.

Lemma fl_opp (q : Q) : Binary64.fl (- q) == - Binary64.fl q.
Proof.
  destruct (Q_dec q 0) as [[L | G] | E].
  - rewrite (fl_neg_eq q L), (fl_pos_eq (- q)) by lra. ring.
  - rewrite (fl_pos_eq q G), (fl_neg_eq (- q)) by lra.
    apply Qopp_comp. apply nearest_comp. ring.
  - rewrite (fl_zero q E), (fl_zero (- q)) by (rewrite E; reflexivity). reflexivity.
Qed.

Lemma fl_error (q : Q) : Qabs (Binary64.fl q - q) <= Qabs q * Binary64.unit_roundoff.
Proof.
  unfold Binary64.unit_roundoff.
  destruct (Q_dec q 0) as [[L | G] | E].
  - rewrite (fl_neg_eq q L), (Qabs_neg q) by lra.
    assert (X : - Binary64.nearest (- q) - q == - (Binary64.nearest (- q) - - q)) by ring.
    rewrite X, Qabs_opp. apply nearest_error. lra.
  - rewrite (fl_pos_eq q G), (Qabs_pos q) by lra. now apply nearest_error.
  - rewrite (fl_zero q E), E. discriminate.
Qed.

Lemma fl_mono (x y : Q) : x <= y -> Binary64.fl x <= Binary64.fl y.
Proof.
  intro L.
  destruct (Q_dec x 0) as [[Lx | Gx] | Ex]; destruct (Q_dec y 0) as [[Ly | Gy] | Ey];
    try (exfalso; lra).
  - rewrite (fl_neg_eq x Lx), (fl_neg_eq y Ly).
    apply Qopp_le_compat. apply nearest_mono; lra.
  - rewrite (fl_neg_eq x Lx), (fl_pos_eq y Gy).
    pose proof (nearest_pos (- x)). pose proof (nearest_pos y). lra.
  - rewrite (fl_neg_eq x Lx), (fl_zero y Ey).
    pose proof (nearest_pos (- x)). lra.
  - rewrite (fl_pos_eq x Gx), (fl_pos_eq y Gy). now apply nearest_mono.
  - rewrite (fl_zero x Ex), (fl_pos_eq y Gy). pose proof (nearest_pos y). lra.
  - rewrite (fl_zero x Ex), (fl_zero y Ey). apply Qle_refl.
Qed.

Lemma fl_Z (z : Z) : (Z.abs z < 2 ^ 53)%Z -> Binary64.fl (inject_Z z) == inject_Z z.
Proof.
  intro B. destruct (Z.lt_trichotomy z 0) as [L | [E | G]].
  - assert (X : inject_Z z == - inject_Z (- z)) by (rewrite inject_Z_opp; ring).
    rewrite (fl_comp _ _ X), fl_opp, fl_pos_eq.
    + rewrite nearest_Z by lia. rewrite inject_Z_opp. ring.
    + change 0 with (inject_Z 0). rewrite <- Zlt_Qlt. lia.
  - subst z. reflexivity.
  - rewrite fl_pos_eq.
    + apply nearest_Z. lia.
    + change 0 with (inject_Z 0). now rewrite <- Zlt_Qlt.
Qed.

Lemma fl_nonneg (q : Q) : 0 <= q -> 0 <= Binary64.fl q.
Proof.
  intro P. apply fl_mono in P. exact P.
Qed.

Lemma Qmult_le_nonneg_l (x a b : Q) : 0 <= x -> a <= b -> x * a <= x * b.
Proof.
  intros P L. rewrite (Qmult_comm x a), (Qmult_comm x b).
  now apply Qmult_le_compat_r.
Qed.

(** A rounded number that is not negative, and a quotient of a
    rounded difference, within their relative errors. *)
Lemma fl_bounds (q : Q) :
  0 <= q ->
  q * (1 - Binary64.unit_roundoff) <= Binary64.fl q <= q * (1 + Binary64.unit_roundoff).
Proof.
  intro P. pose proof (fl_error q) as E. rewrite (Qabs_pos q P) in E.
  apply Qabs_Qle_condition in E. destruct E as [A B]. split; lra.
Qed.

Lemma quot_sub_bounds (a b : Q) :
  0 <= a -> 0 < b ->
  a / b * (1 - 2 * Binary64.unit_roundoff)
    <= Binary64.quot (Binary64.fl a) b
    <= a / b * (1 + 3 * Binary64.unit_roundoff).
Proof.
  intros A B. unfold Binary64.quot.
  pose proof (fl_bounds a A) as [L1 U1].
  pose proof (fl_nonneg a A) as N1.
  assert (Ib : 0 < / b) by now apply Qinv_lt_0_compat.
  assert (Nx : 0 <= a / b) by (apply Qle_shift_div_l; [ exact B | lra ]).
  assert (Ny : 0 <= Binary64.fl a / b) by (apply Qle_shift_div_l; [ exact B | lra ]).
  pose proof (fl_bounds (Binary64.fl a / b) Ny) as [L2 U2].
  assert (L : a / b * (1 - Binary64.unit_roundoff) <= Binary64.fl a / b).
  { unfold Qdiv.
    setoid_replace (a * / b * (1 - Binary64.unit_roundoff))
      with (a * (1 - Binary64.unit_roundoff) * / b) by ring.
    apply Qmult_le_compat_r; [ exact L1 | now apply Qlt_le_weak ]. }
  assert (U : Binary64.fl a / b <= a / b * (1 + Binary64.unit_roundoff)).
  { unfold Qdiv.
    setoid_replace (a * / b * (1 + Binary64.unit_roundoff))
      with (a * (1 + Binary64.unit_roundoff) * / b) by ring.
    apply Qmult_le_compat_r; [ exact U1 | now apply Qlt_le_weak ]. }
  set (x := a / b) in *. set (y := Binary64.fl a / b) in *.
  set (z := Binary64.fl y) in *.
  assert (u0 : Binary64.unit_roundoff == 1 # 9007199254740992) by reflexivity.
  split.
  - apply Qle_trans with (y * (1 - Binary64.unit_roundoff)); [ | exact L2 ].
    apply Qle_trans with (x * (1 - Binary64.unit_roundoff) * (1 - Binary64.unit_roundoff)).
    + assert (X : x * (1 - 2 * Binary64.unit_roundoff)
                  <= x * ((1 - Binary64.unit_roundoff) * (1 - Binary64.unit_roundoff))).
      { apply Qmult_le_nonneg_l; [ exact Nx | ]. rewrite u0. vm_compute. discriminate. }
      lra.
    + apply Qmult_le_compat_r; [ exact L | rewrite u0; vm_compute; discriminate ].
  - apply Qle_trans with (y * (1 + Binary64.unit_roundoff)); [ exact U2 | ].
    apply Qle_trans with (x * (1 + Binary64.unit_roundoff) * (1 + Binary64.unit_roundoff)).
    + apply Qmult_le_compat_r; [ exact U | rewrite u0; vm_compute; discriminate ].
    + assert (X : x * ((1 + Binary64.unit_roundoff) * (1 + Binary64.unit_roundoff))
                  <= x * (1 + 3 * Binary64.unit_roundoff)).
      { apply Qmult_le_nonneg_l; [ exact Nx | ]. rewrite u0. vm_compute. discriminate. }
      lra.
Qed.

(** ** The lookup by time, in doubles *)

Lemma Qfloor_ge (m : Z) (q : Q) : inject_Z m <= q -> (m <= Qfloor q)%Z.
Proof.
  intro L. rewrite <- (Qfloor_Z m). now apply Qfloor_resp_le.
Qed.

Lemma Qfloor_lt (m : Z) (q : Q) : q < inject_Z m -> (Qfloor q < m)%Z.
Proof.
  intro L. rewrite Zlt_Qlt. apply Qle_lt_trans with q; [ apply Qfloor_le | exact L ].
Qed.

Lemma inject_Z_pred (k : Z) : inject_Z (k - 1) == inject_Z k - 1.
Proof.
  unfold Z.sub. rewrite inject_Z_plus. reflexivity.
Qed.

Lemma divide_quot (a b : Q) : ~ b == 0 -> Binary64.divide a b = Fin (Binary64.quot a b).
Proof.
  intro H. unfold Binary64.divide.
  destruct (Qeq_bool b 0) eqn:E; [ apply Qeq_bool_iff in E; contradiction | reflexivity ].
Qed.


Lemma index_of_start (start step t : Q) :
  ~ step == 0 -> t == start -> Binary64.index_of start step t = 0%Z.
Proof.
  intros H E. unfold Binary64.index_of, Binary64.quot, Binary64.sub.
  assert (A : Binary64.fl (t - start) == 0) by (apply fl_zero; rewrite E; ring).
  assert (B : Binary64.fl (t - start) / step == 0) by (rewrite A; field; exact H).
  rewrite (Qfloor_comp _ _ (fl_zero _ B)). reflexivity.
Qed.


Section LookupInDoubles.

Variable expected : ExpectedPitchArray.
Hypothesis step_pos : 0 < step expected.

Lemma lookup64_unfold (t : Q) :
  Binary64.getExpectedMidiAt t expected =
    if Qltb t (start expected) then Some null
    else if (Binary64.slot_index expected t <? 0)%Z
            || (Z.of_nat (length (pitches expected)) <=? Binary64.slot_index expected t)%Z
         then Some null
         else nth_error (pitches expected) (Z.to_nat (Binary64.slot_index expected t)).
Proof.
  unfold Binary64.getExpectedMidiAt. rewrite divide_quot by (intro X; lra). reflexivity.
Qed.

Lemma lookup64_out (t : Q) :
  t < start expected \/
  (Binary64.slot_index expected t < 0)%Z \/
  (Z.of_nat (length (pitches expected)) <= Binary64.slot_index expected t)%Z ->
  Binary64.getExpectedMidiAt t expected = Some null.
Proof.
  intro O. rewrite lookup64_unfold.
  destruct (Qltb t (start expected)) eqn:A; [ reflexivity | ].
  apply Qltb_ge in A.
  destruct O as [O | [O | O]]; [ exfalso; lra | | ].
  - rewrite (proj2 (Z.ltb_lt _ _) O). reflexivity.
  - rewrite (proj2 (Z.leb_le _ _) O). now rewrite orb_true_r.
Qed.

Lemma lookup64_in (t : Q) :
  start expected <= t ->
  (0 <= Binary64.slot_index expected t < Z.of_nat (length (pitches expected)))%Z ->
  Binary64.getExpectedMidiAt t expected
    = nth_error (pitches expected) (Z.to_nat (Binary64.slot_index expected t)) /\
  exists c, nth_error (pitches expected) (Z.to_nat (Binary64.slot_index expected t)) = Some c.
Proof.
  intros A [B C]. rewrite lookup64_unfold.
  rewrite (proj2 (Qltb_ge _ _) A).
  rewrite (proj2 (Z.ltb_ge _ _) B), (proj2 (Z.leb_gt _ _) C). cbn [orb].
  split; [ reflexivity | ].
  destruct (nth_error (pitches expected) (Z.to_nat (Binary64.slot_index expected t))) eqn:E;
    [ now eexists | ].
  apply nth_error_None in E. lia.
Qed.

(** The quotient that the lookup computes, against the exact one. *)
Lemma lookup64_quotient (t : Q) :
  start expected <= t ->
  (t - start expected) / step expected * (1 - 2 * Binary64.unit_roundoff)
    <= Binary64.quot (Binary64.sub t (start expected)) (step expected)
    <= (t - start expected) / step expected * (1 + 3 * Binary64.unit_roundoff).
Proof.
  intro A. apply quot_sub_bounds; [ lra | exact step_pos ].
Qed.

End LookupInDoubles.

(** C7, as the code has it: on an array with a positive step and at
    least one pitch (and at most 2^32 - 1), the lookup is absent before
    [start] and is [pitches[0]] at [start].  It is absent at a time that is
    before [start] or whose index is outside [0, length), and at any other
    time it is the array's element at that index, which can itself be
    absent (a silent slot): the lookup is absent exactly when the time is
    out of range or the slot read holds no pitch.  The index is the floor
    of the quotient that the doubles give, [floor((time - start) / step)]
    with the difference and the quotient rounded: it is the exact floor or
    one of its two neighbours (up to 2^50 steps after [start]).  So from
    [start + length * step] on the lookup is absent or, the index being
    [length - 1], the last element; and from [start + (length + 1) * step]
    on it is absent. *)
Theorem lookup_boundary (expected : ExpectedPitchArray) (t : Q) :
  let n := Z.of_nat (length (pitches expected)) in
  let index := Binary64.slot_index expected t in
  let exact := Qfloor ((t - start expected) / step expected) in
  0 < step expected -> pitches expected <> [] -> (n <= max_array_length)%Z ->
  (t < start expected -> Binary64.getExpectedMidiAt t expected = Some null) /\
  (t == start expected ->
   Binary64.getExpectedMidiAt t expected = nth_error (pitches expected) 0 /\
   exists c, nth_error (pitches expected) 0 = Some c) /\
  (t < start expected \/ (index < 0)%Z \/ (n <= index)%Z ->
   Binary64.getExpectedMidiAt t expected = Some null) /\
  (start expected <= t -> (0 <= index < n)%Z ->
   Binary64.getExpectedMidiAt t expected = nth_error (pitches expected) (Z.to_nat index) /\
   exists c, nth_error (pitches expected) (Z.to_nat index) = Some c) /\
  (Binary64.getExpectedMidiAt t expected = Some null <->
   (t < start expected \/ (index < 0)%Z \/ (n <= index)%Z) \/
   nth_error (pitches expected) (Z.to_nat index) = Some null) /\
  (start expected <= t -> (t - start expected) / step expected <= inject_Z (2 ^ 50) ->
   (exact - 1 <= index <= exact + 1)%Z) /\
  (start expected + inject_Z n * step expected <= t ->
   (n - 1 <= index)%Z /\
   (Binary64.getExpectedMidiAt t expected = Some null \/
    Binary64.getExpectedMidiAt t expected = nth_error (pitches expected) (Z.to_nat (n - 1)))) /\
  (start expected + inject_Z (n + 1) * step expected <= t ->
   Binary64.getExpectedMidiAt t expected = Some null).
Proof.
  intros n index exact Hstep Hne Hn.
  assert (H0 : ~ step expected == 0) by (intro E; rewrite E in Hstep; discriminate).
  assert (N1 : (1 <= n)%Z).
  { subst n. destruct (pitches expected); [ congruence | cbn [length]; lia ]. }
  assert (Out := lookup64_out expected Hstep t).
  assert (In_ := lookup64_in expected Hstep t).
  fold index in Out, In_. fold n in Out, In_.
  assert (Q := lookup64_quotient expected Hstep t).
  assert (I : index = Qfloor (Binary64.quot (Binary64.sub t (start expected)) (step expected)))
    by reflexivity.
  set (q := Binary64.quot (Binary64.sub t (start expected)) (step expected)) in *.
  set (x := (t - start expected) / step expected) in *.
  assert (u0 : Binary64.unit_roundoff == 1 # 9007199254740992) by reflexivity.
  assert (Low : forall k : Z,
             (1 <= k <= max_array_length + 1)%Z ->
             start expected + inject_Z k * step expected <= t -> (k - 1 <= index)%Z).
  { intros k Hk L.
    assert (K0 : 0 <= inject_Z k) by (change 0 with (inject_Z 0); rewrite <- Zle_Qle; lia).
    assert (A : start expected <= t).
    { apply Qle_trans with (start expected + inject_Z k * step expected); [ | exact L ].
      assert (0 <= inject_Z k * step expected); [ | lra ].
      apply Qmult_le_0_compat; [ exact K0 | lra ]. }
    destruct (Q A) as [Lq _].
    assert (X : inject_Z k <= x).
    { unfold x. apply Qle_shift_div_l; [ exact Hstep | lra ]. }
    assert (Y : inject_Z k * (1 - 2 * Binary64.unit_roundoff)
                <= x * (1 - 2 * Binary64.unit_roundoff)).
    { apply Qmult_le_compat_r; [ exact X | rewrite u0; vm_compute; discriminate ]. }
    assert (K : inject_Z k <= inject_Z (max_array_length + 1)) by (rewrite <- Zle_Qle; lia).
    change (inject_Z (max_array_length + 1)) with 4294967296 in K.
    rewrite I. apply Qfloor_ge. rewrite inject_Z_pred. rewrite u0 in *. lra. }
  split; [ intro A; apply Out; now left | ].
  split.
  { intro E. 
    assert (Z0 : index = 0%Z).
    { subst index. unfold Binary64.slot_index. now apply index_of_start. }
    rewrite Z0 in In_. apply In_; [ rewrite E; apply Qle_refl | lia ]. }
  split; [ exact Out | ].
  split; [ exact In_ | ].
  split.
  { split.
    - intro L.
      destruct (Qlt_le_dec t (start expected)) as [A | A]; [ left; now left | ].
      destruct (Z_lt_ge_dec index 0) as [B | B]; [ left; right; now left | ].
      destruct (Z_le_gt_dec n index) as [C | C]; [ left; right; now right | ].
      right. destruct (In_ A ltac:(lia)) as [E _]. congruence.
    - intros [O | N]; [ now apply Out | ].
      destruct (Qlt_le_dec t (start expected)) as [A | A]; [ apply Out; now left | ].
      destruct (Z_lt_ge_dec index 0) as [B | B]; [ apply Out; right; now left | ].
      destruct (Z_le_gt_dec n index) as [C | C]; [ apply Out; right; now right | ].
      destruct (In_ A ltac:(lia)) as [E _]. congruence. }
  split.
  { intros A B. destruct (Q A) as [Lq Uq].
    assert (X0 : 0 <= x).
    { unfold x. apply Qle_shift_div_l; [ exact Hstep | lra ]. }
    change (inject_Z (2 ^ 50)) with 1125899906842624 in B.
    assert (Wl : x - 1 <= q) by (rewrite u0 in *; lra).
    assert (Wu : q <= x + 1) by (rewrite u0 in *; lra).
    rewrite I. subst exact.
    pose proof (Qfloor_le x) as Fx. pose proof (Qlt_floor x) as Gx.
    split.
    - apply Qfloor_ge. rewrite inject_Z_pred. lra.
    - assert (F : (Qfloor q < Qfloor x + 1 + 1)%Z); [ | lia ].
      apply Qfloor_lt. rewrite (inject_Z_plus (Qfloor x + 1) 1).
      change (inject_Z 1) with 1. lra. }
  split.
  { intro L. assert (B := Low n ltac:(lia) L).
    split; [ exact B | ].
    destruct (Z_le_gt_dec n index) as [C | C]; [ left; apply Out; right; now right | ].
    right. assert (E : index = (n - 1)%Z) by lia.
    assert (A : start expected <= t).
    { apply Qle_trans with (start expected + inject_Z n * step expected); [ | exact L ].
      assert (0 <= inject_Z n * step expected); [ | lra ].
      apply Qmult_le_0_compat; [ | lra ].
      change 0 with (inject_Z 0). rewrite <- Zle_Qle. lia. }
    destruct (In_ A ltac:(lia)) as [R _]. now rewrite <- E. }
  intro L. apply Out. right; right.
  assert (B := Low (n + 1)%Z ltac:(lia) L). lia.
Qed.

Lemma lookup_boundary_witness :
  0 < step seventh_array /\ pitches seventh_array <> [] /\
  Binary64.getExpectedMidiAt (start seventh_array) seventh_array
    = nth_error (pitches seventh_array) 0.
Proof.
  assert (Hstep : 0 < step seventh_array) by (vm_compute; reflexivity).
  assert (Hne : pitches seventh_array <> []) by discriminate.
  assert (Hn : (Z.of_nat (length (pitches seventh_array)) <= max_array_length)%Z)
    by (vm_compute; discriminate).
  split; [ exact Hstep | split; [ exact Hne | ] ].
  exact (proj1 (proj1 (proj2 (lookup_boundary seventh_array (start seventh_array)
                                Hstep Hne Hn)) (Qeq_refl _))).
Defined.

(** C7 as it is stated fails in two places.  On a silent slot: in the
    array [[null]] of start 0 and step 1 the lookup at time 0 is absent,
    although the time is not before [start] and its index 0 is inside
    [0, length).  At the end: in the array of three pitches of start 0.7
    and step 0.7 the time 2.8 is [start + 3 * step], in doubles and
    exactly; the quotient [(2.8 - 0.7) / 0.7] is 2.9999999999999996, the
    index is 2, and the lookup gives the last pitch. *)
Lemma lookup_absent_in_range :
  (Binary64.getExpectedMidiAt 0 silent_array = Some null /\
   start silent_array <= 0 /\
   (0 <= Binary64.slot_index silent_array 0 < Z.of_nat (length (pitches silent_array)))%Z) /\
  (Binary64.add (start seventh_array) (Binary64.mul 3 (step seventh_array))
     = Binary64.literal (28 # 10) /\
   Binary64.literal (28 # 10) == start seventh_array + 3 * step seventh_array /\
   Binary64.slot_index seventh_array (Binary64.literal (28 # 10)) = 2%Z /\
   Binary64.getExpectedMidiAt (Binary64.literal (28 # 10)) seventh_array
     = Some (note (Fin 64%Z))).
Proof.
  split.
  - split; [ vm_compute; reflexivity | ].
    split; [ vm_compute; discriminate | vm_compute; split; [ discriminate | reflexivity ] ].
  - split; [ vm_compute; reflexivity | ].
    split; [ vm_compute; reflexivity | ].
    split; vm_compute; reflexivity.
Qed.

(** ** The score, in doubles *)

Lemma fl_one : Binary64.fl 1 == 1.
Proof. apply (fl_Z 1). vm_compute. reflexivity. Qed.

Lemma fl_hundred : Binary64.fl 100 == 100.
Proof. apply (fl_Z 100). vm_compute. reflexivity. Qed.

Lemma fl_ten_thousand : Binary64.fl 10000 == 10000.
Proof. apply (fl_Z 10000). vm_compute. reflexivity. Qed.

Lemma fl_le_Z (q : Q) (z : Z) :
  (Z.abs z < 2 ^ 53)%Z -> q <= inject_Z z -> Binary64.fl q <= inject_Z z.
Proof.
  intros B L. apply Qle_trans with (Binary64.fl (inject_Z z)); [ now apply fl_mono | ].
  rewrite (fl_Z z B). apply Qle_refl.
Qed.

(** What [getStats] rounds to an integer: the share of the hits, times
    100, times 100 again, each operation rounded. *)
Lemma percent64 (hits scored : nat) :
  (0 < scored)%nat -> (hits <= scored)%nat ->
  let share := of_nat hits / of_nat scored in
  let c := Binary64.mul (Binary64.mul (Binary64.quot (of_nat hits) (of_nat scored)) 100) 100 in
  0 <= c <= 10000 /\
  10000 * share - (1 # 100000000000) <= c <= 10000 * share + (1 # 100000000000) /\
  (hits = 0%nat -> c == 0) /\
  (hits = scored -> c == 10000).
Proof.
  intros P L share c.
  pose proof (of_nat_pos scored P) as Ps.
  pose proof (of_nat_nonneg hits) as Nh.
  pose proof (of_nat_le hits scored L) as Lh.
  assert (X0 : 0 <= share) by (apply Qle_shift_div_l; [ exact Ps | lra ]).
  assert (X1 : share <= 1) by (apply Qle_shift_div_r; [ exact Ps | lra ]).
  unfold Binary64.mul, Binary64.quot in c. fold share in c.
  set (a := Binary64.fl share) in *.
  set (b := Binary64.fl (a * 100)) in *.
  assert (A0 : 0 <= a) by now apply fl_nonneg.
  assert (A1 : a <= 1) by (apply (fl_le_Z _ 1); [ vm_compute; reflexivity | exact X1 ]).
  assert (B0 : 0 <= b) by (apply fl_nonneg; lra).
  assert (B1 : b <= 100)
    by (apply (fl_le_Z _ 100); [ vm_compute; reflexivity | change (inject_Z 100) with 100; lra ]).
  assert (C0 : 0 <= c) by (apply fl_nonneg; lra).
  assert (C1 : c <= 10000)
    by (apply (fl_le_Z _ 10000);
        [ vm_compute; reflexivity | change (inject_Z 10000) with 10000; lra ]).
  pose proof (fl_bounds share X0) as [La Ua]. fold a in La, Ua.
  pose proof (fl_bounds (a * 100) ltac:(lra)) as [Lb Ub]. fold b in Lb, Ub.
  pose proof (fl_bounds (b * 100) ltac:(lra)) as [Lc Uc]. fold c in Lc, Uc.
  assert (u0 : Binary64.unit_roundoff == 1 # 9007199254740992) by reflexivity.
  rewrite u0 in *.
  split; [ now split | ].
  split; [ split; lra | ].
  split.
  - intro H. subst hits.
    assert (S0 : share == 0).
    { unfold share, of_nat. cbn [Z.of_nat]. change (inject_Z 0) with 0.
      field. intro X. rewrite X in Ps. discriminate. }
    assert (Ea : a == 0) by (apply fl_zero; exact S0).
    assert (Eb : b == 0) by (apply fl_zero; rewrite Ea; reflexivity).
    apply fl_zero. rewrite Eb. reflexivity.
  - intro H. subst hits.
    assert (S1 : share == 1).
    { unfold share. field. intro X. rewrite X in Ps. discriminate. }
    assert (Ea : a == 1) by (unfold a; rewrite (fl_comp _ _ S1); apply fl_one).
    assert (Eb : b == 100).
    { unfold b. rewrite (fl_comp (a * 100) 100) by (rewrite Ea; reflexivity).
      apply fl_hundred. }
    unfold c. rewrite (fl_comp (b * 100) 10000) by (rewrite Eb; reflexivity).
    apply fl_ten_thousand.
Qed.

Lemma round_half_up_bounds (c : Q) :
  inject_Z (round_half_up c) <= c + (1 # 2) < inject_Z (round_half_up c) + 1.
Proof.
  unfold round_half_up. pose proof (Qfloor_le (c + (1 # 2))) as A.
  pose proof (Qlt_floor (c + (1 # 2))) as B.
  rewrite inject_Z_plus in B. change (inject_Z 1) with 1 in B. now split.
Qed.

Lemma score64_unfold (this : ScoreTracker) :
  let hits := (count_of PERFECT (frames this) + count_of ACCEPTABLE (frames this))%nat in
  let scored := (hits + count_of MISS (frames this))%nat in
  score (Binary64.getStats this) =
    Binary64.quot
      (inject_Z (round_half_up
         (Binary64.mul
            (if (0 <? scored)%nat
             then Binary64.mul (Binary64.quot (of_nat hits) (of_nat scored)) 100
             else 0) 100))) 100.
Proof.
  unfold Binary64.getStats. cbn [score]. rewrite !count_match_count_of. reflexivity.
Qed.

Lemma quot_hundred_bounds (k : Z) :
  (0 <= k <= 10000)%Z -> 0 <= Binary64.quot (inject_Z k) 100 <= 100.
Proof.
  intros [A B]. unfold Binary64.quot.
  assert (K0 : 0 <= inject_Z k) by (change 0 with (inject_Z 0); now rewrite <- Zle_Qle).
  assert (K1 : inject_Z k <= 10000)
    by (change 10000 with (inject_Z 10000); now rewrite <- Zle_Qle).
  split.
  - apply fl_nonneg. apply Qle_shift_div_l; [ reflexivity | lra ].
  - apply (fl_le_Z _ 100); [ vm_compute; reflexivity | ].
    change (inject_Z 100) with 100. apply Qle_shift_div_r; [ reflexivity | lra ].
Qed.

(** C5, as the code has it: the counts of [getStats] are those of the
    history.  When a scored frame exists its score is the double nearest to
    k / 100, for an integer k of [0, 10000] that is 10000 * (PERFECT +
    ACCEPTABLE) / (PERFECT + ACCEPTABLE + MISS) rounded to an integer, up to
    the 10^-11 by which the three rounded operations before the rounding
    can move it: the score is the double nearest to the percentage rounded
    to 2 decimal places, unless 10000 times the share of the hits lies
    within 10^-11 of the middle of two integers.  With no scored frame the
    score is 0.  The score lies in [0, 100]; it is 0 when every frame is
    MISS or NO_DATA, and 100 when a scored frame exists and no frame is
    MISS. *)
Theorem getStats_score (this : ScoreTracker) :
  let st := Binary64.getStats this in
  let hits := (perfectFrames st + acceptableFrames st)%nat in
  let scored := (hits + missFrames st)%nat in
  let share := of_nat hits / of_nat scored in
  (perfectFrames st = count_of PERFECT (frames this) /\
   acceptableFrames st = count_of ACCEPTABLE (frames this) /\
   missFrames st = count_of MISS (frames this) /\
   noDataFrames st = count_of NO_DATA (frames this)) /\
  ((0 < scored)%nat ->
   exists k : Z,
     score st = Binary64.fl (inject_Z k / 100) /\
     (0 <= k <= 10000)%Z /\
     10000 * share - (1 # 2) - (1 # 100000000000) <= inject_Z k
       <= 10000 * share + (1 # 2) + (1 # 100000000000)) /\
  ((0 < scored)%nat ->
   (forall j : Z,
      ~ (inject_Z j + (1 # 2) - (1 # 100000000000) <= 10000 * share
           <= inject_Z j + (1 # 2) + (1 # 100000000000))) ->
   score st == Binary64.fl (round2 (100 * share))) /\
  (scored = 0%nat -> score st == 0) /\
  0 <= score st <= 100 /\
  (Forall (fun f => f_match f = MISS \/ f_match f = NO_DATA) (frames this) ->
   score st == 0) /\
  (Exists (fun f => f_match f <> NO_DATA) (frames this) ->
   Forall (fun f => f_match f <> MISS) (frames this) ->
   score st == 100).
Proof.
  intros st hits scored share.
  assert (C : perfectFrames st = count_of PERFECT (frames this) /\
              acceptableFrames st = count_of ACCEPTABLE (frames this) /\
              missFrames st = count_of MISS (frames this) /\
              noDataFrames st = count_of NO_DATA (frames this)).
  { subst st. unfold Binary64.getStats. cbn. rewrite !count_match_count_of. tauto. }
  destruct C as [Cp [Ca [Cm Cn]]].
  assert (S : score st =
              Binary64.quot
                (inject_Z (round_half_up
                   (Binary64.mul
                      (if (0 <? scored)%nat
                       then Binary64.mul (Binary64.quot (of_nat hits) (of_nat scored)) 100
                       else 0) 100))) 100).
  { subst scored hits. rewrite Cp, Ca, Cm. apply score64_unfold. }
  assert (Lh : (hits <= scored)%nat) by (subst scored; lia).
  assert (Zero : scored = 0%nat -> score st == 0).
  { intro E. rewrite S, E. vm_compute. reflexivity. }
  assert (Pos : (0 < scored)%nat ->
                exists k : Z,
                  score st = Binary64.fl (inject_Z k / 100) /\
                  k = round_half_up
                        (Binary64.mul
                           (Binary64.mul (Binary64.quot (of_nat hits) (of_nat scored)) 100)
                           100) /\
                  (0 <= k <= 10000)%Z /\
                  10000 * share - (1 # 2) - (1 # 100000000000) <= inject_Z k
                    <= 10000 * share + (1 # 2) + (1 # 100000000000)).
  { intro P. rewrite S, (proj2 (Nat.ltb_lt _ _) P).
    destruct (percent64 hits scored P Lh) as [[C0 C1] [[C2 C3] _]]. fold share in C2, C3.
    set (c := Binary64.mul (Binary64.mul (Binary64.quot (of_nat hits) (of_nat scored)) 100)
                100) in *.
    destruct (round_half_up_bounds c) as [R1 R2].
    exists (round_half_up c).
    split; [ reflexivity | split; [ reflexivity | ] ].
    split; [ | split; lra ].
    split.
    - apply Qfloor_ge. change (inject_Z 0) with 0. lra.
    - assert (F : (Qfloor (c + (1 # 2)) < 10000 + 1)%Z); [ | unfold round_half_up; lia ].
      apply Qfloor_lt. change (inject_Z (10000 + 1)) with 10001. lra. }
  assert (Hits0 : hits = 0%nat -> score st == 0).
  { intro E.
    destruct (Nat.eq_dec scored 0) as [Z0 | NZ]; [ now apply Zero | ].
    assert (P : (0 < scored)%nat) by lia.
    rewrite S, (proj2 (Nat.ltb_lt _ _) P).
    destruct (percent64 hits scored P Lh) as [_ [_ [H0 _]]]. specialize (H0 E).
    unfold Binary64.quot.
    rewrite (round_half_up_comp _ 0) by exact H0.
    vm_compute. reflexivity. }
  split; [ tauto | ].
  split.
  { intro P. destruct (Pos P) as [k [E [_ [B K]]]]. exists k. tauto. }
  split.
  { intros P T. destruct (Pos P) as [k [E [Ek [B K]]]].
    rewrite E. apply fl_comp. unfold round2.
    assert (K0 : k = round_half_up (100 * share * 100)).
    { destruct (percent64 hits scored P Lh) as [_ [[C2 C3] _]]. fold share in C2, C3.
      set (c := Binary64.mul (Binary64.mul (Binary64.quot (of_nat hits) (of_nat scored)) 100)
                  100) in *.
      destruct (round_half_up_bounds (100 * share * 100)) as [R1 R2].
      set (k0 := round_half_up (100 * share * 100)) in *.
      assert (T0 := T k0). assert (T1 := T (k0 - 1)%Z).
      rewrite inject_Z_pred in T1.
      assert (A : inject_Z k0 <= c + (1 # 2)).
      { apply Qnot_lt_le. intro X. apply T1. split; lra. }
      assert (B' : c + (1 # 2) < inject_Z k0 + 1).
      { apply Qnot_le_lt. intro X. apply T0. split; lra. }
      rewrite Ek. unfold round_half_up at 1.
      apply Z.le_antisymm.
      - assert (F : (Qfloor (c + (1 # 2)) < k0 + 1)%Z); [ | lia ].
        apply Qfloor_lt. rewrite inject_Z_plus. exact B'.
      - now apply Qfloor_ge. }
    now rewrite K0. }
  split; [ exact Zero | ].
  split.
  { destruct (Nat.eq_dec scored 0) as [Z0 | NZ].
    - rewrite (Zero Z0). split; [ apply Qle_refl | discriminate ].
    - destruct (Pos ltac:(lia)) as [k [E [_ [B _]]]]. rewrite E.
      now apply quot_hundred_bounds. }
  split.
  { intro F. apply Hits0. subst hits. rewrite Cp, Ca.
    rewrite !count_of_zero; [ reflexivity | | ];
      apply Forall_impl with (2 := F); intros f [X | X]; rewrite X; discriminate. }
  intros E F.
  assert (M : missFrames st = 0%nat) by (rewrite Cm; now apply count_of_zero).
  assert (P : (0 < scored)%nat).
  { subst scored hits. rewrite Cp, Ca, Cm. now apply count_of_scored. }
  assert (Eh : hits = scored) by (subst scored; lia).
  rewrite S, (proj2 (Nat.ltb_lt _ _) P).
  destruct (percent64 hits scored P Lh) as [_ [_ [_ H1]]]. specialize (H1 Eh).
  unfold Binary64.quot.
  rewrite (round_half_up_comp _ 10000) by exact H1.
  vm_compute. reflexivity.
Qed.

Lemma getStats_score_witness :
  (0 < perfectFrames (Binary64.getStats two_frame_tracker)
       + acceptableFrames (Binary64.getStats two_frame_tracker)
       + missFrames (Binary64.getStats two_frame_tracker))%nat /\
  exists k : Z,
    score (Binary64.getStats two_frame_tracker) = Binary64.fl (inject_Z k / 100) /\
    (0 <= k <= 10000)%Z.
Proof.
  assert (P : (0 < perfectFrames (Binary64.getStats two_frame_tracker)
                   + acceptableFrames (Binary64.getStats two_frame_tracker)
                   + missFrames (Binary64.getStats two_frame_tracker))%nat)
    by (vm_compute; lia).
  split; [ exact P | ].
  destruct (proj1 (proj2 (getStats_score two_frame_tracker)) P) as [k [E [B _]]].
  exists k. split; [ exact E | exact B ].
Defined.

(** C5 as it is stated fails where the rounded operations move the
    percentage across the middle of two hundredths: with 23 PERFECT frames
    and 137 MISS frames the percentage is 14.375, which rounds to 14.38,
    but in doubles [23 / 160 * 100] is 14.374999999999998 and the score is
    14.37. *)
Lemma score_not_rounded :
  round2 (100 * of_nat 23 / of_nat 160) == 1438 # 100 /\
  Binary64.mul (Binary64.quot (of_nat 23) (of_nat 160)) 100
    = Binary64.literal (14374999999999998 # 1000000000000000) /\
  score (Binary64.getStats tracker_23_of_160) = Binary64.literal (1437 # 100) /\
  ~ score (Binary64.getStats tracker_23_of_160)
      == Binary64.fl (round2 (100 * of_nat 23 / of_nat 160)).
Proof.
  split; [ vm_compute; reflexivity | ].
  split; [ vm_compute; reflexivity | ].
  split; [ vm_compute; reflexivity | ].
  vm_compute. discriminate.
Qed.

(** ** The builder, in doubles *)


Lemma resolve_entries64_length (strategy : PolyphonyStrategy) (m : SlotMap) :
  forall ps, length (fold_left (Binary64.resolve_entry strategy) m ps) = length ps.
Proof.
  induction m as [ | [k v] m IH ]; intro ps; [ reflexivity | ].
  cbn [fold_left]. rewrite IH. unfold Binary64.resolve_entry. cbn [fst snd].
  destruct v; [ reflexivity | apply array_set_length ].
Qed.

Lemma resolve_entries64_at (strategy : PolyphonyStrategy) (j : Z) (m : SlotMap) :
  forall ps,
    NoDup (map fst m) -> Forall (fun k => 0 <= k)%Z (map fst m) ->
    (0 <= j)%Z -> (Z.to_nat j < length ps)%nat ->
    nth_error (fold_left (Binary64.resolve_entry strategy) m ps) (Z.to_nat j) =
      match candidates_at j m with
      | [] => nth_error ps (Z.to_nat j)
      | c0 :: cs => Some (note (Binary64.resolvePitch c0 cs strategy))
      end.
Proof.
  unfold candidates_at.
  induction m as [ | [k v] m IH ]; intros ps D F J L; [ reflexivity | ].
  simpl in D, F. inversion D as [ | ? ? Dk Dm ]; subst. inversion F as [ | ? ? Fk Fm ]; subst.
  cbn [fold_left Map_get].
  assert (L' : (Z.to_nat j < length (Binary64.resolve_entry strategy ps (k, v)))%nat).
  { unfold Binary64.resolve_entry. cbn [fst snd]. destruct v; [ exact L | ].
    now rewrite array_set_length. }
  rewrite (IH _ Dm Fm J L').
  destruct (Z.eqb k j) eqn:E.
  - apply Z.eqb_eq in E. subst k.
    rewrite (Map_get_None j m Dk).
    unfold Binary64.resolve_entry. cbn [fst snd].
    destruct v as [ | c0 cs ]; [ reflexivity | ].
    now apply array_set_same.
  - apply Z.eqb_neq in E.
    destruct (Map_get j m) as [ [ | c0 cs ] | ]; try reflexivity;
      unfold Binary64.resolve_entry; cbn [fst snd]; destruct v; try reflexivity;
      apply array_set_other; lia.
Qed.

Section PopulateInDoubles.

Variables (start res : Q) (len : Z).
Hypothesis res_not_zero : ~ res == 0.

Lemma slot_begin64_finite (n : NoteEvent) :
  Binary64.slot_begin start res n = Fin (Binary64.first_slot start res n).
Proof.
  unfold Binary64.slot_begin. now rewrite divide_quot.
Qed.

Lemma slot_end64_finite (n : NoteEvent) :
  Binary64.slot_end start res (Fin len) n = Fin (Binary64.last_slot start res len n).
Proof.
  unfold Binary64.slot_end. now rewrite divide_quot.
Qed.

Lemma in_slot64_range (n : NoteEvent) (j : Z) :
  let a := Binary64.first_slot start res n in
  let b := Binary64.last_slot start res len n in
  (a <=? j)%Z && (j <? a + Z.of_nat (Z.to_nat (b - a)))%Z = Binary64.in_slot start res len n j.
Proof.
  intros a b. unfold Binary64.in_slot. fold a b.
  destruct (Z.leb_spec a j), (Z.ltb_spec j b),
    (Z.ltb_spec j (a + Z.of_nat (Z.to_nat (b - a)))); cbn [andb];
    try reflexivity; exfalso; lia.
Qed.

Lemma populate64_at (notes : list NoteEvent) :
  forall m,
    NoDup (map fst m) -> Forall (fun k => 0 <= k < len)%Z (map fst m) ->
    exists m',
      Binary64.populate start res (Fin len) notes m = Some m' /\
      (forall j, candidates_at j m'
                 = candidates_at j m ++ Binary64.registered start res len notes j) /\
      NoDup (map fst m') /\ Forall (fun k => 0 <= k < len)%Z (map fst m').
Proof.
  induction notes as [ | n notes IH ]; intros m D F.
  - exists m. repeat split; try assumption.
    intro j. simpl. now rewrite app_nil_r.
  - cbn [Binary64.populate]. rewrite slot_begin64_finite, slot_end64_finite. cbn [for_range].
    set (a := Binary64.first_slot start res n).
    set (b := Binary64.last_slot start res len n).
    set (m1 := fold_left (push_candidate (mkCandidate (midi n) (velocity n) (time n)))
                 (map (fun k => (a + Z.of_nat k)%Z) (seq 0 (Z.to_nat (b - a)))) m).
    assert (K : NoDup (map fst m1) /\ Forall (fun k => 0 <= k < len)%Z (map fst m1)).
    { apply push_range_keys; [ | exact D | exact F ].
      intros i Hi.
      assert (Ha : (0 <= a)%Z) by (unfold a, Binary64.first_slot; lia).
      assert (Hb : (b <= len)%Z) by (unfold b, Binary64.last_slot; lia).
      lia. }
    destruct K as [D1 F1].
    destruct (IH m1 D1 F1) as [m' [E [C [D' F']]]].
    exists m'. repeat split; try assumption.
    intro j. rewrite C. unfold m1. rewrite push_range_at.
    unfold a, b. rewrite in_slot64_range.
    cbn [Binary64.registered flat_map]. rewrite <- app_assoc. reflexivity.
Qed.

End PopulateInDoubles.

(** With notes that a call can take as arguments, a resolution that is
    not zero and a length that an array can have, the builder returns: the
    timeline starts at the earliest note, and each of its slots holds the
    pitch resolved from the notes registered there. *)
Lemma build64_returns (max_arguments : nat) (notes : list NoteEvent)
    (config : PitchArrayConfig) :
  let res := Binary64.resolution_of config in
  let len := Binary64.timeline_length notes res in
  notes <> [] -> (length notes <= max_arguments)%nat ->
  ~ res == 0 -> (0 <= len <= max_array_length)%Z ->
  exists ps,
    Binary64.buildExpectedPitchArray max_arguments notes config =
      Returned {| start := timeline_start notes; step := res; pitches := ps |} /\
    length ps = Z.to_nat len /\
    forall j, (0 <= j < len)%Z ->
      nth_error ps (Z.to_nat j) =
        Some (Binary64.resolved (strategy_of config)
                (Binary64.registered (timeline_start notes) res len notes j)).
Proof.
  intros res len Hne Hargs Hres Hlen.
  destruct notes as [ | n0 rest ]; [ congruence | ].
  unfold Binary64.buildExpectedPitchArray.
  fold (Binary64.resolution_of config). fold res. fold (strategy_of config).
  rewrite (proj2 (Nat.ltb_ge _ _) Hargs).
  change (Math_min_list (time n0) (map time rest)) with (timeline_start (n0 :: rest)).
  change (Math_max_list (Binary64.add (time n0) (duration n0))
            (map (fun n => Binary64.add (time n) (duration n)) rest))
    with (Binary64.timeline_end (n0 :: rest)).
  rewrite (divide_quot _ _ Hres). cbn [Math_ceil map_ext].
  fold (Binary64.timeline_length (n0 :: rest) res). fold len.
  destruct (populate64_at (timeline_start (n0 :: rest)) res len Hres (n0 :: rest) [])
    as [m [E [C [D F]]]]; [ constructor | constructor | ].
  rewrite E. unfold new_Array.
  rewrite (proj2 (Z.leb_le 0 len)) by lia.
  rewrite (proj2 (Z.leb_le len max_array_length)) by lia.
  cbn [andb].
  eexists. split; [ reflexivity | ].
  split; [ now rewrite resolve_entries64_length, repeat_length | ].
  intros j Hj.
  rewrite resolve_entries64_at.
  - rewrite C. cbn [candidates_at Map_get app]. unfold Binary64.resolved.
    destruct (Binary64.registered _ _ _ _ _); [ | reflexivity ].
    apply nth_error_repeat. lia.
  - exact D.
  - apply Forall_impl with (2 := F). intros k Hk. lia.
  - lia.
  - rewrite repeat_length. lia.
Qed.




(** ** The timeline built, in doubles *)

Lemma build64_bad_length (max_arguments : nat) (notes : list NoteEvent)
    (config : PitchArrayConfig) :
  let len := Binary64.timeline_length notes (Binary64.resolution_of config) in
  notes <> [] -> ~ Binary64.resolution_of config == 0 ->
  ~ ((length notes <= max_arguments)%nat /\ (0 <= len <= max_array_length)%Z) ->
  Binary64.buildExpectedPitchArray max_arguments notes config = Threw RangeError.
Proof.
  intros len Hne Hres Hlen.
  destruct notes as [ | n0 rest ]; [ congruence | ].
  unfold Binary64.buildExpectedPitchArray. fold (Binary64.resolution_of config).
  destruct (Nat.ltb_spec max_arguments (length (n0 :: rest))) as [A | A]; [ reflexivity | ].
  change (Math_min_list (time n0) (map time rest)) with (timeline_start (n0 :: rest)).
  change (Math_max_list (Binary64.add (time n0) (duration n0))
            (map (fun n => Binary64.add (time n) (duration n)) rest))
    with (Binary64.timeline_end (n0 :: rest)).
  rewrite (divide_quot _ _ Hres). cbn [Math_ceil map_ext].
  fold (Binary64.timeline_length (n0 :: rest) (Binary64.resolution_of config)). fold len.
  destruct (populate64_at (timeline_start (n0 :: rest)) (Binary64.resolution_of config) len
              Hres (n0 :: rest) []) as [m [E _]]; [ constructor | constructor | ].
  rewrite E. unfold new_Array.
  destruct (Z.leb_spec 0 len), (Z.leb_spec len max_array_length); cbn [andb];
    try reflexivity.
  exfalso. apply Hlen. lia.
Qed.

Lemma timeline_end64_ge (notes : list NoteEvent) (n : NoteEvent) :
  In n notes -> Binary64.add (time n) (duration n) <= Binary64.timeline_end notes.
Proof.
  destruct notes as [ | n0 rest ]; [ intros [] | ].
  unfold Binary64.timeline_end.
  destruct (Math_max_list_ge (map (fun n => Binary64.add (time n) (duration n)) rest)
              (Binary64.add (time n0) (duration n0))) as [A B].
  intros [<- | I]; [ exact A | ].
  rewrite Forall_forall in B. apply B.
  now apply (in_map (fun n => Binary64.add (time n) (duration n))).
Qed.

(** X4: with notes and a resolution that is not zero, the builder
    returns a timeline when a call can take the notes as arguments and the
    length that it computes, ceil((end - start) / resolution) with each
    operation rounded, is one that an array can have; otherwise it fails
    with a RangeError.  The timeline returned has that length, the
    resolution as its step, and starts at the time of the earliest note.
    The length is not negative when the resolution is positive, no duration
    is negative and the times are doubles. *)
Theorem build_outcome (max_arguments : nat) (notes : list NoteEvent)
    (config : PitchArrayConfig) :
  let res := Binary64.resolution_of config in
  let len := Binary64.timeline_length notes res in
  notes <> [] -> ~ res == 0 ->
  (if (length notes <=? max_arguments)%nat && ((0 <=? len)%Z && (len <=? max_array_length)%Z)
   then exists ps,
          Binary64.buildExpectedPitchArray max_arguments notes config =
            Returned {| start := timeline_start notes; step := res; pitches := ps |} /\
          length ps = Z.to_nat len
   else Binary64.buildExpectedPitchArray max_arguments notes config = Threw RangeError) /\
  In (timeline_start notes) (map time notes) /\
  Forall (fun n => timeline_start notes <= time n) notes /\
  (0 < res -> Forall (fun n => 0 <= duration n) notes ->
   Forall (fun n => Binary64.double (time n)) notes -> (0 <= len)%Z).
Proof.
  intros res len Hne Hres.
  split; [ | split; [ now apply timeline_start_In | split; [ apply timeline_start_bound | ] ] ].
  - destruct (Nat.leb_spec (length notes) max_arguments) as [G | G],
      (Z.leb_spec 0 len) as [A | A], (Z.leb_spec len max_array_length) as [B | B];
      cbn [andb];
      try (apply build64_bad_length; [ exact Hne | exact Hres | fold res len; lia ]).
    destruct (build64_returns max_arguments notes config Hne G Hres (conj A B))
      as [ps [E [L _]]].
    exists ps. now split.
  - intros R D Dbl.
    destruct notes as [ | n0 rest ] eqn:N; [ congruence | ]. rewrite <- N in *.
    assert (I : In n0 notes) by (rewrite N; now left).
    pose proof (timeline_start_le notes n0 I) as S.
    pose proof (timeline_end64_ge notes n0 I) as E.
    rewrite Forall_forall in D, Dbl.
    assert (T : time n0 <= Binary64.add (time n0) (duration n0)).
    { unfold Binary64.add. specialize (Dbl n0 I). unfold Binary64.double in Dbl.
      apply Qle_trans with (Binary64.fl (time n0)); [ rewrite Dbl; apply Qle_refl | ].
      apply fl_mono. specialize (D n0 I). lra. }
    unfold len, Binary64.timeline_length, Binary64.quot, Binary64.sub.
    rewrite <- N. change 0%Z with (Qceiling 0). apply Qceiling_resp_le.
    apply fl_nonneg. apply Qle_shift_div_l; [ exact R | ].
    assert (X : 0 <= Binary64.fl (Binary64.timeline_end notes - timeline_start notes))
      by (apply fl_nonneg; lra).
    lra.
Qed.

Lemma build_outcome_witness :
  two_notes <> [] /\ ~ Binary64.resolution_of half_second == 0 /\
  exists ps,
    Binary64.buildExpectedPitchArray 100 two_notes half_second =
      Returned {| start := timeline_start two_notes; step := 1 # 2; pitches := ps |} /\
    length ps = 2%nat.
Proof.
  assert (N : two_notes <> []) by discriminate.
  assert (R : ~ Binary64.resolution_of half_second == 0) by discriminate.
  split; [ exact N | split; [ exact R | ] ].
  destruct (build_outcome 100 two_notes half_second N R) as [H _].
  assert (L : Binary64.timeline_length two_notes (Binary64.resolution_of half_second) = 2%Z)
    by (vm_compute; reflexivity).
  cbv zeta in H. rewrite L in H. exact H.
Defined.

(** X26: the timeline that the builder makes of the notes that
    [parseMidiFile] returns, when there is one at least, starts at the time
    of the first of them: with a positive resolution, notes that a call can
    take as arguments and a computed length that an array can have, the
    builder returns a timeline whose start is this time, whose step is the
    resolution and whose length is the one computed. *)
Theorem parsed_timeline (max_arguments : nat) (tracks : list (list NoteEvent))
    (trackIndex : option Z) (config : PitchArrayConfig) (first : NoteEvent)
    (rest : list NoteEvent) :
  let notes := parseMidiFile tracks trackIndex in
  let res := Binary64.resolution_of config in
  notes = first :: rest ->
  0 < res ->
  (length notes <= max_arguments)%nat ->
  (0 <= Binary64.timeline_length notes res <= max_array_length)%Z ->
  exists timeline,
    Binary64.buildExpectedPitchArray max_arguments notes config = Returned timeline /\
    start timeline == time first /\
    step timeline = res /\
    Z.of_nat (length (pitches timeline)) = Binary64.timeline_length notes res.
Proof.
  intros notes res E R A L.
  assert (Hne : notes <> []) by (rewrite E; discriminate).
  assert (Hres : ~ res == 0) by (intro X; rewrite X in R; discriminate).
  destruct (build64_returns max_arguments notes config Hne A Hres L) as [ps [B [Len _]]].
  eexists. split; [ exact B | ]. cbn [start step pitches].
  split; [ | split; [ reflexivity | rewrite Len; fold res; lia ] ].
  assert (S : by_time notes).
  { subst notes. destruct (parseMidiFile_sort tracks trackIndex) as [chosen [-> _]].
    apply sort_by_time_sorted. }
  rewrite E in S. apply by_time_head in S. destruct S as [F _].
  rewrite Forall_forall in F.
  assert (X : timeline_start notes <= time first).
  { apply timeline_start_le. rewrite E. now left. }
  pose proof (timeline_start_In notes Hne) as I.
  apply in_map_iff in I. destruct I as [n [En In_]].
  rewrite E in In_. destruct In_ as [<- | In_].
  - rewrite En. reflexivity.
  - specialize (F n In_). rewrite En in F. lra.
Qed.

Lemma parsed_timeline_witness :
  exists timeline,
    Binary64.buildExpectedPitchArray 100 (parseMidiFile two_tracks None) half_second
      = Returned timeline /\
    start timeline == 0.
Proof.
  assert (R : 0 < Binary64.resolution_of half_second) by reflexivity.
  assert (A : (length (parseMidiFile two_tracks None) <= 100)%nat) by (vm_compute; lia).
  assert (L : (0 <= Binary64.timeline_length (parseMidiFile two_tracks None)
                     (Binary64.resolution_of half_second) <= max_array_length)%Z)
    by (vm_compute; split; discriminate).
  destruct (parsed_timeline 100 two_tracks None half_second
              (mkNote 0 (1 # 2) 60 (1 # 2))
              [ mkNote (1 # 2) (1 # 2) 62 (1 # 2); mkNote 1 (1 # 2) 64 (9 # 10) ]
              eq_refl R A L) as [timeline [B [S _]]].
  exists timeline. split; [ exact B | exact S ].
Defined.

(** ** The slots of the timeline, in doubles *)

Lemma registered64_nil (start res : Q) (len : Z) (notes : list NoteEvent) (i : Z) :
  Binary64.registered start res len notes i = [] <->
  Forall (fun n => Binary64.in_slot start res len n i = false) notes.
Proof.
  unfold Binary64.registered. induction notes as [ | n notes IH ]; cbn [flat_map].
  - split; [ constructor | reflexivity ].
  - destruct (Binary64.in_slot start res len n i) eqn:E.
    + split; [ discriminate | ]. intro F. inversion F; congruence.
    + cbn [app]. rewrite IH. split; intro F; [ now constructor | now inversion F ].
Qed.

(** X5: in the timeline that the builder returns for notes and a
    resolution that is not zero, a slot holds the pitch that the strategy
    chooses among the notes registered in it, those whose computed first
    slot is not after it and whose computed last slot is after it; it is
    silent exactly when no note is registered in it.  The computed last
    slot can lie past the end of the note: of a single note at 0.03 that is
    0.02 long, at resolution 0.02, the timeline has two slots, both with
    its pitch. *)
Theorem silent_slot (max_arguments : nat) (notes : list NoteEvent)
    (config : PitchArrayConfig) (timeline : ExpectedPitchArray) (i : Z) :
  let res := Binary64.resolution_of config in
  let len := Binary64.timeline_length notes res in
  ~ res == 0 -> notes <> [] ->
  Binary64.buildExpectedPitchArray max_arguments notes config = Returned timeline ->
  (0 <= i < Z.of_nat (length (pitches timeline)))%Z ->
  nth_error (pitches timeline) (Z.to_nat i) =
    Some (Binary64.resolved (strategy_of config)
            (Binary64.registered (timeline_start notes) res len notes i)) /\
  (nth_error (pitches timeline) (Z.to_nat i) = Some null <->
   Forall (fun n => Binary64.in_slot (timeline_start notes) res len n i = false) notes) /\
  Binary64.buildExpectedPitchArray 100
    [ mkNote (Binary64.literal (3 # 100)) (Binary64.literal (2 # 100)) 62 1 ]
    {| resolution := Some (Binary64.literal (2 # 100)); strategy := None |} =
    Returned {| start := Binary64.literal (3 # 100);
                step := Binary64.literal (2 # 100);
                pitches := [ note (Fin 62%Z); note (Fin 62%Z) ] |}.
Proof.
  intros res len R0 Hne B I.
  assert (Hlen : (length notes <= max_arguments)%nat /\ (0 <= len <= max_array_length)%Z).
  { destruct (le_dec (length notes) max_arguments) as [A | A];
      [ destruct (Z_le_dec 0 len) as [A0 | A0];
        [ destruct (Z_le_dec len max_array_length) as [A' | A'] | ] | ];
      [ split; [ exact A | lia ] | | | ];
      rewrite (build64_bad_length max_arguments notes config Hne R0) in B
        by (fold res len; lia);
      discriminate B. }
  destruct Hlen as [Hargs Hlen].
  destruct (build64_returns max_arguments notes config Hne Hargs R0 Hlen) as [ps [E [L H]]].
  rewrite E in B. injection B as <-. cbn [start step pitches] in *.
  fold res len in H, L. rewrite L in I.
  assert (I' : (0 <= i < len)%Z) by lia.
  split; [ exact (H i I') | split; [ | vm_compute; reflexivity ] ].
  rewrite (H i I'). unfold Binary64.resolved.
  transitivity (Binary64.registered (timeline_start notes) res len notes i = []).
  - destruct (Binary64.registered _ _ _ _ _); split; congruence.
  - apply registered64_nil.
Qed.

Lemma silent_slot_witness :
  exists timeline,
    Binary64.buildExpectedPitchArray 100 gapped_notes half_second = Returned timeline /\
    nth_error (pitches timeline) 1 = Some null.
Proof.
  exists {| start := 0; step := 1 # 2;
            pitches := [note (Fin 60%Z); null; note (Fin 64%Z)] |}.
  assert (B : Binary64.buildExpectedPitchArray 100 gapped_notes half_second
              = Returned {| start := 0; step := 1 # 2;
                            pitches := [note (Fin 60%Z); null; note (Fin 64%Z)] |})
    by (vm_compute; reflexivity).
  split; [ exact B | ].
  assert (R : ~ Binary64.resolution_of half_second == 0) by discriminate.
  assert (N : gapped_notes <> []) by discriminate.
  apply (proj1 (proj2 (silent_slot 100 gapped_notes half_second _ 1%Z R N B
                         ltac:(cbn; lia)))).
  repeat constructor.
Defined.

(** ** The history of the visualizer, in doubles *)

Lemma show64_history (calls : list Shown) :
  forall (first : Shown) (this : PitchBarVisualizer),
    StronglySorted (fun a b => shown_time a <= shown_time b) (first :: calls) ->
    history (Binary64.show (first :: calls) this) =
      filter (fun e => Qle_bool (Binary64.sub (shown_time (last calls first))
                                   (historyDuration (bar_config this))) (h_time e))
             (history this ++ map Binary64.entry_of (first :: calls)) /\
    bar_config (Binary64.show (first :: calls) this) = bar_config this.
Proof.
  induction calls as [ | c calls IH ]; intros first this S.
  - split; reflexivity.
  - apply StronglySorted_inv in S. destruct S as [S F].
    change (Binary64.show (first :: c :: calls) this)
      with (Binary64.show (c :: calls)
              (Binary64.addPitch (shown_time first) (shown_detected first)
                 (shown_expected first) (shown_frame first) this)).
    destruct (IH c (Binary64.addPitch (shown_time first) (shown_detected first)
                      (shown_expected first) (shown_frame first) this) S) as [E1 E2].
    rewrite E1, E2. cbn [Binary64.addPitch history bar_config].
    split; [ | reflexivity ].
    fold (Binary64.entry_of first).
    rewrite (last_cons calls c first).
    assert (L : shown_time first <= shown_time (last calls c)).
    { rewrite Forall_forall in F. apply F. apply last_In. }
    rewrite filter_app, cutoff_filter by (apply fl_mono; lra).
    rewrite <- filter_app, <- app_assoc. reflexivity.
Qed.

(** X27: [addPitch] keeps the configuration and leaves in the history
    the entries, the new one included, whose time is not less than the
    cutoff that it computes, the double nearest to the current time less
    the history duration; the entries kept stay in their order.  The new
    entry comes last when the history duration is not negative and the
    current time is a double.  The cutoff is within one rounding of the
    exact difference.  After calls at times that do not decrease, the
    history holds the entries of the calls whose time is not less than the
    cutoff of the last call, and these only. *)
Theorem addPitch_window (this : PitchBarVisualizer) (currentTime : Q)
    (detected : option DetectedPitch) (expected : option ExpectedPitchArray)
    (frame : option ScoreFrame) :
  let after := Binary64.addPitch currentTime detected expected frame this in
  let entry := Binary64.new_entry currentTime detected expected frame in
  let cutoff := Binary64.sub currentTime (historyDuration (bar_config this)) in
  bar_config after = bar_config this /\
  (forall e, In e (history after) <->
             (In e (history this) \/ e = entry) /\ cutoff <= h_time e) /\
  history after =
    filter (fun e => Qle_bool cutoff (h_time e)) (history this)
    ++ (if Qle_bool cutoff currentTime then [entry] else []) /\
  (0 <= historyDuration (bar_config this) -> Binary64.double currentTime ->
   history after = filter (fun e => Qle_bool cutoff (h_time e)) (history this) ++ [entry]) /\
  Qabs (cutoff - (currentTime - historyDuration (bar_config this)))
    <= Qabs (currentTime - historyDuration (bar_config this)) * Binary64.unit_roundoff /\
  (forall first calls,
     Sorted (fun a b => shown_time a <= shown_time b) (first :: calls) ->
     history (Binary64.show (first :: calls)
                {| history := []; bar_config := bar_config this |}) =
       filter (fun e => Qle_bool (Binary64.sub (shown_time (last calls first))
                                    (historyDuration (bar_config this))) (h_time e))
              (map Binary64.entry_of (first :: calls))).
Proof.
  intros after entry cutoff. subst after.
  assert (I : forall e,
             In e (history (Binary64.addPitch currentTime detected expected frame this)) <->
             (In e (history this) \/ e = entry) /\ cutoff <= h_time e).
  { intro e. unfold Binary64.addPitch. cbn [history]. fold entry. fold cutoff.
    rewrite filter_In, in_app_iff, Qle_bool_iff. cbn [In]. intuition congruence. }
  assert (H : history (Binary64.addPitch currentTime detected expected frame this) =
              filter (fun e => Qle_bool cutoff (h_time e)) (history this)
              ++ (if Qle_bool cutoff currentTime then [entry] else [])).
  { unfold Binary64.addPitch. cbn [history]. fold entry. fold cutoff.
    rewrite filter_app. f_equal. }
  split; [ reflexivity | split; [ exact I | split; [ exact H | split; [ | split ] ] ] ].
  - intros P D. rewrite H.
    assert (K : Qle_bool cutoff currentTime = true).
    { apply Qle_bool_iff. unfold Binary64.double in D. rewrite <- D.
      subst cutoff. unfold Binary64.sub. apply fl_mono. lra. }
    now rewrite K.
  - apply fl_error.
  - intros first calls S.
    apply Sorted_StronglySorted in S.
    2:{ intros a b c. apply Qle_trans. }
    destruct (show64_history calls first {| history := []; bar_config := bar_config this |} S)
      as [E _].
    exact E.
Qed.

Lemma addPitch_window_witness :
  Sorted (fun a b => shown_time a <= shown_time b) three_shown /\
  map h_time (history (Binary64.show three_shown default_visualizer)) = [2; 4].
Proof.
  assert (S : Sorted (fun a b => shown_time a <= shown_time b) three_shown).
  { repeat constructor; vm_compute; discriminate. }
  split; [ exact S | ].
  pose proof (proj2 (proj2 (proj2 (proj2 (proj2
                (addPitch_window default_visualizer 0 None None None)))))
                (mkShown 0 None None None)
                [ mkShown 2 None None None; mkShown 4 None None None ] S) as E.
  change (Binary64.show three_shown default_visualizer)
    with (Binary64.show (mkShown 0 None None None
                :: [ mkShown 2 None None None; mkShown 4 None None None ])
               {| history := []; bar_config := bar_config default_visualizer |}).
  rewrite E. vm_compute. reflexivity.
Defined.

(** ** The place of a point on the canvas, in doubles *)

Lemma fl_pos (q : Q) : 0 < q -> 0 < Binary64.fl q.
Proof.
  intro P. rewrite (fl_pos_eq q P). now apply nearest_pos.
Qed.

Lemma quot_mono (a b d : Q) : 0 < d -> a <= b -> Binary64.quot a d <= Binary64.quot b d.
Proof.
  intros P L. unfold Binary64.quot. apply fl_mono.
  unfold Qdiv. apply Qmult_le_compat_r; [ exact L | ].
  apply Qlt_le_weak. now apply Qinv_lt_0_compat.
Qed.

Lemma mul_mono (a b w : Q) : 0 <= w -> a <= b -> Binary64.mul a w <= Binary64.mul b w.
Proof.
  intros W L. unfold Binary64.mul. apply fl_mono. now apply Qmult_le_compat_r.
Qed.

Lemma quot_unit (a d : Q) : 0 < d -> 0 <= a <= d -> 0 <= Binary64.quot a d <= 1.
Proof.
  intros P [A B]. unfold Binary64.quot. split.
  - apply fl_nonneg. apply Qle_shift_div_l; [ exact P | lra ].
  - apply (fl_le_Z _ 1); [ vm_compute; reflexivity | ].
    change (inject_Z 1) with 1. apply Qle_shift_div_r; [ exact P | lra ].
Qed.

Lemma mul_unit (r w : Q) :
  0 <= w -> Binary64.double w -> 0 <= r <= 1 -> 0 <= Binary64.mul r w <= w.
Proof.
  intros W D [A B]. unfold Binary64.mul. split.
  - apply fl_nonneg. now apply Qmult_le_0_compat.
  - unfold Binary64.double in D. rewrite <- D at 2. apply fl_mono.
    setoid_replace w with (1 * w) at 2 by ring. now apply Qmult_le_compat_r.
Qed.

(** X29: with a positive history duration and a width that is not
    negative, [timeToX] gives a number for every time, one that is not
    negative for a time that is not less than the cutoff (the double nearest
    to the current time less the history duration), and no less for a later
    time than for an earlier one; it is at most the width, when the width is
    a double, for a time whose computed distance to the cutoff is at most
    the history duration.  That distance can exceed the history duration at
    the current time itself: with a history duration of 0.7 and a width of
    800, the time 5.1 is drawn past the width at the current time 5.1.  With
    a note range that is not empty and a height that is a double and not
    negative, a pitch of the range is drawn at an ordinate between 0 and the
    height, and a higher pitch is not drawn lower.  With a history duration
    of 0 the current time, a double, has no abscissa: [timeToX] gives
    NaN. *)
Theorem point_on_canvas (this : PitchBarVisualizer) (currentTime : Q) :
  let cfg := bar_config this in
  let cutoff := Binary64.sub currentTime (historyDuration cfg) in
  (0 < historyDuration cfg -> 0 <= width cfg ->
   forall t,
     exists x, Binary64.timeToX t currentTime this = Fin x /\
       (cutoff <= t -> 0 <= x) /\
       (0 <= Binary64.sub t cutoff <= historyDuration cfg -> Binary64.double (width cfg) ->
        0 <= x <= width cfg) /\
       (forall t' x', t <= t' -> Binary64.timeToX t' currentTime this = Fin x' -> x <= x')) /\
  (noteRange_min cfg < noteRange_max cfg -> 0 <= height cfg -> Binary64.double (height cfg) ->
   forall m, noteRange_min cfg <= m <= noteRange_max cfg ->
     exists y, Binary64.midiToY m this = Fin y /\ 0 <= y <= height cfg /\
       (forall m' y', m <= m' -> Binary64.midiToY m' this = Fin y' -> y' <= y)) /\
  (historyDuration cfg == 0 -> Binary64.double currentTime ->
   Binary64.timeToX currentTime currentTime this = NaN) /\
  (exists x,
     Binary64.timeToX (Binary64.literal (51 # 10)) (Binary64.literal (51 # 10))
       {| history := [];
          bar_config := {| width := 800; height := 200; noteRange_min := 48;
                           noteRange_max := 84;
                           historyDuration := Binary64.literal (7 # 10) |} |} = Fin x /\
     800 < x).
Proof.
  intros cfg cutoff. subst cfg cutoff. unfold Binary64.timeToX, Binary64.midiToY.
  set (hd := historyDuration (bar_config this)).
  set (w := width (bar_config this)). set (h := height (bar_config this)).
  set (lo := noteRange_min (bar_config this)). set (hi := noteRange_max (bar_config this)).
  split; [ | split; [ | split ] ].
  - intros P W t.
    assert (Hd : ~ hd == 0) by (intro X; rewrite X in P; discriminate).
    rewrite (divide_quot _ _ Hd). cbn [Binary64.scale].
    eexists. split; [ reflexivity | ].
    split; [ | split ].
    + intro C. unfold Binary64.mul. apply fl_nonneg. apply Qmult_le_0_compat; [ | exact W ].
      unfold Binary64.quot. apply fl_nonneg. apply Qle_shift_div_l; [ exact P | ].
      assert (X : 0 <= Binary64.sub t (Binary64.sub currentTime hd))
        by (unfold Binary64.sub at 1; apply fl_nonneg; lra).
      lra.
    + intros R D. apply mul_unit; [ exact W | exact D | ].
      now apply quot_unit.
    + intros t' x' L X. rewrite (divide_quot _ _ Hd) in X. cbn [Binary64.scale] in X.
      injection X as <-.
      apply mul_mono; [ exact W | ]. apply quot_mono; [ exact P | ].
      unfold Binary64.sub at 1 3. apply fl_mono. lra.
  - intros P H D m [A B].
    assert (P' : 0 < Binary64.sub hi lo) by (apply fl_pos; lra).
    assert (Hd : ~ Binary64.sub hi lo == 0) by (intro X; rewrite X in P'; discriminate).
    rewrite (divide_quot _ _ Hd). cbn [Binary64.scale].
    eexists. split; [ reflexivity | ].
    split.
    + apply mul_unit; [ exact H | exact D | ].
      apply quot_unit; [ exact P' | ].
      split; [ apply fl_nonneg; lra | apply fl_mono; lra ].
    + intros m' y' L Y. rewrite (divide_quot _ _ Hd) in Y. cbn [Binary64.scale] in Y.
      injection Y as <-.
      apply mul_mono; [ exact H | ]. apply quot_mono; [ exact P' | ].
      apply fl_mono. lra.
  - intros Z0 D. unfold Binary64.double in D.
    assert (C : Binary64.sub currentTime hd == currentTime).
    { unfold Binary64.sub. rewrite <- D at 2. apply fl_comp. rewrite Z0. ring. }
    assert (R : Binary64.sub currentTime (Binary64.sub currentTime hd) == 0).
    { unfold Binary64.sub at 1. apply fl_zero. rewrite C. ring. }
    unfold Binary64.divide. rewrite (proj2 (Qeq_bool_iff _ 0) Z0).
    assert (A : Qltb 0 (Binary64.sub currentTime (Binary64.sub currentTime hd)) = false)
      by (apply Qltb_ge; rewrite R; apply Qle_refl).
    assert (B : Qltb (Binary64.sub currentTime (Binary64.sub currentTime hd)) 0 = false)
      by (apply Qltb_ge; rewrite R; apply Qle_refl).
    now rewrite A, B.
  - eexists. split; [ vm_compute; reflexivity | vm_compute; reflexivity ].
Qed.

Lemma point_on_canvas_witness :
  exists x, Binary64.timeToX 2 3 default_visualizer = Fin x /\ 0 <= x <= 800.
Proof.
  assert (P : 0 < historyDuration (bar_config default_visualizer)) by reflexivity.
  assert (W : 0 <= width (bar_config default_visualizer)) by (vm_compute; discriminate).
  destruct (proj1 (point_on_canvas default_visualizer 3) P W 2) as [x [E [_ [B _]]]].
  exists x. split; [ exact E | ]. apply B.
  - split; vm_compute; discriminate.
  - vm_compute. reflexivity.
Defined.
